(** * srcFacts: the streaming XML scanner of [srcFacts.cpp]

    A shallow embedding of [refillBuffer] and of the scan loop of [main],
    followed by the properties of the scanner that the specification states.

    Positions are offsets from [buffer.begin()], kept in [Z] because the
    source compares iterator differences that can be negative.  The counters
    are C [int]s and [long]s; they are bounded by the number of bytes read,
    and are kept in [Z].

    The loop [while (true)] need not end, so a run is given fuel, one unit a
    turn.  Standard input is the bytes still to come together with a script
    that says how many of them each [read] delivers. *)

From Stdlib Require Import ZArith Ascii String List Bool Lia.
Import ListNotations.
Local Open Scope char_scope.
Local Open Scope Z_scope.

(** ** Bytes *)

Definition byte := ascii.

Definition NUL : byte := "000".
Definition dquote : byte := ascii_of_nat 34.
Definition squote : byte := "'".
Definition newline : byte := "010".

Definition bytes (s : string) : list byte := list_ascii_of_string s.
Arguments bytes s%_string.

Definition byte_eqb (a b : byte) : bool := Ascii.eqb a b.

Fixpoint bytes_eqb (a b : list byte) : bool :=
  match a, b with
  | [], [] => true
  | x :: a', y :: b' => byte_eqb x y && bytes_eqb a' b'
  | _, _ => false
  end.

Definition code (c : byte) : Z := Z.of_nat (nat_of_ascii c).

(** [isspace] in the "C" locale, the one in force (only [std::cout] is
    imbued): space, and the five controls from tab to carriage return. *)
Definition isspace (c : byte) : bool :=
  (code c =? 32) || ((9 <=? code c) && (code c <=? 13)).

(** ** Results of a piece of scanning

    A handler either goes on with a value, or leaves [main] through
    [return 1] after a diagnostic, or has no defined behaviour in C++ (an
    iterator range whose first position is past its last, a [std::bitset]
    subscript out of range). *)

Inductive ParserError :=
| FileInputError
| IncompleteNamespace
| EmptyAttributeName
| InvalidAttributeName
| IncompleteAttribute
| MissingEquals
| MissingDelimiter
| UnterminatedXMLComment
| UnterminatedCDATA
| IncompleteXMLDeclaration
| MissingSpaceBeforeVersion
| InvalidStartDelimiterForVersion
| InvalidEndDelimiterForVersion
| MissingRequiredVersion
| IncompleteDeclarationAttribute
| InvalidDeclarationDelimiter
| InvalidDeclarationAttribute
| IncompleteProcessingInstruction
| UnterminatedProcessingInstruction
| IncompleteEndTag
| InvalidEndTagName
| UnterminatedEndTag
| EmptyEndTagName
| IncompleteStartTag
| InvalidStartTagName
| UnterminatedStartTag
| EmptyStartTagName.

Inductive Res (A : Type) :=
| Ok (a : A)
| Err (e : ParserError)
| Undef.
Arguments Ok {A} a.
Arguments Err {A} e.
Arguments Undef {A}.

Definition bind {A B} (m : Res A) (k : A -> Res B) : Res B :=
  match m with
  | Ok a => k a
  | Err e => Err e
  | Undef => Undef
  end.

Notation "x <- m ;; k" := (bind m (fun x => k))
  (at level 61, m at next level, right associativity).
Notation "'failif' c 'with' e ;; k" := (if c then Err e else k)
  (at level 61, c at next level, e at next level, right associativity).

(** ** The name-character table *)

Definition tagNameMaskBits : string :=
  "00000111111111111111111111111110100001111111111111111111111111100000001111111111011000000000000000000000000000000000000000000000".

(** [std::bitset<128>] built from a string: the leftmost character is bit
    127.  A subscript of 128 or more is outside the bitset, which is what a
    byte of 128 or more gives. *)
Definition tagNameMask (c : byte) : Res bool :=
  if code c <? 128
  then Ok (byte_eqb (nth (127 - nat_of_ascii c) (bytes tagNameMaskBits) NUL) "1")
  else Undef.

(** ** Reading the buffer through a position *)

Section Reading.

(** [rd i] is the byte at offset [i] of the buffer's storage. *)
Variable rd : Z -> byte.

(** [std::find_if(first, last, p)], by [n] the positions left to visit. *)
Fixpoint find_from (p : byte -> bool) (first : Z) (n : nat) : Z :=
  match n with
  | O => first
  | S n' => if p (rd first) then first else find_from p (first + 1) n'
  end.

Definition find_if (p : byte -> bool) (first last : Z) : Res Z :=
  if last <? first then Undef
  else Ok (find_from p first (Z.to_nat (last - first))).

Definition find (c : byte) (first last : Z) : Res Z :=
  find_if (byte_eqb c) first last.

Definition find_if_not (p : byte -> bool) (first last : Z) : Res Z :=
  find_if (fun c => negb (p c)) first last.

(** [std::find_if_not(first, last, [] (char c) { return tagNameMask[c]; })] *)
Fixpoint find_name_from (first : Z) (n : nat) : Res Z :=
  match n with
  | O => Ok first
  | S n' =>
      b <- tagNameMask (rd first) ;;
      if b then find_name_from (first + 1) n' else Ok first
  end.

Definition find_name_end (first last : Z) : Res Z :=
  if last <? first then Undef
  else find_name_from first (Z.to_nat (last - first)).

(** The bytes of [std::string_view(addressof( *first ), len)]. *)
Fixpoint view_from (first : Z) (len : nat) : list byte :=
  match len with
  | O => []
  | S len' => rd first :: view_from (first + 1) len'
  end.

Definition view (first len : Z) : list byte := view_from first (Z.to_nat len).

(** Does the pattern stand at [pos]? *)
Fixpoint matches_at (pat : list byte) (pos : Z) : bool :=
  match pat with
  | [] => true
  | c :: pat' => byte_eqb (rd pos) c && matches_at pat' (pos + 1)
  end.

(** [std::search(first, last, pat.begin(), pat.end())]: the first position
    from which the whole pattern lies inside the range, or [last]. *)
Fixpoint search_from (pat : list byte) (first last : Z) (n : nat) : Z :=
  match n with
  | O => last
  | S n' =>
      if (first + Z.of_nat (length pat) <=? last) && matches_at pat first
      then first
      else search_from pat (first + 1) last n'
  end.

Definition search (pat : list byte) (first last : Z) : Res Z :=
  if last <? first then Undef
  else Ok (search_from pat first last (Z.to_nat (last - first))).

End Reading.

(** [std::count(s.begin(), s.end(), '\n')] *)
Definition count_newlines (s : list byte) : Z :=
  Z.of_nat (length (filter (byte_eqb newline) s)).

Definition size (s : list byte) : Z := Z.of_nat (length s).

(** [std::string_view::find(':')]; [None] is [npos]. *)
Fixpoint find_colon (s : list byte) : option Z :=
  match s with
  | [] => None
  | c :: s' =>
      if byte_eqb c ":" then Some 0
      else match find_colon s' with
           | Some k => Some (k + 1)
           | None => None
           end
  end.

(** ** The buffer

    [std::string buffer(BUFFER_SIZE, ' ')] is [capacity] bytes, all ' ' at
    first, followed by the string's terminating NUL.  [filled] is the prefix
    that has been written since; the bytes after it still hold ' '.  The
    scanner does read bytes that are in the buffer but after [cursorEnd]:
    they are what earlier reads and shifts have left there, and [byteAt]
    gives them.  The byte at [capacity] is the NUL, and [byteAt] gives NUL
    for the offsets beyond it as well, where C++ defines nothing. *)

Record Buffer := mkBuffer { filled : list byte; capacity : Z }.

Definition BUFFER_SIZE : Z := 16 * 16 * 4096.

Definition byteAt (b : Buffer) (i : Z) : byte :=
  if i <? 0 then NUL
  else if i <? size (filled b) then nth (Z.to_nat i) (filled b) NUL
  else if i <? capacity b then " "
  else NUL.

(** Writing [bs] from offset [pos] on. *)
Definition store (l : list byte) (pos : nat) (bs : list byte) : list byte :=
  firstn pos (l ++ repeat " " (pos - length l)) ++ bs
    ++ skipn (pos + length bs) l.

(** ** Standard input

    [read(0, p, count)] gives at most [count] of the bytes still to come,
    as many as the system chooses.  What it chooses is written down as a
    script, one event a call; once the script is over each call gives all
    it can.  A call returns 0 when nothing is to come or [count] is 0. *)

Inductive ReadEvent :=
| Deliver (more : nat)   (* at most [S more] bytes *)
| Interrupted            (* -1, errno == EINTR *)
| Failure.               (* -1, another errno *)

Record Source := mkSource { pending : list byte; script : list ReadEvent }.

Inductive ReadResult :=
| ReadBytes (bs : list byte)
| ReadError.

(** The loop [while (((readBytes = READ(...)) == -1) && (errno == EINTR)) {}]. *)
Fixpoint read_retry (count : nat) (pend : list byte) (scr : list ReadEvent)
  : ReadResult * Source :=
  match scr with
  | [] =>
      let n := Nat.min count (length pend) in
      (ReadBytes (firstn n pend), mkSource (skipn n pend) [])
  | Deliver more :: scr' =>
      let n := Nat.min (S more) (Nat.min count (length pend)) in
      (ReadBytes (firstn n pend), mkSource (skipn n pend) scr')
  | Interrupted :: scr' => read_retry count pend scr'
  | Failure :: scr' => (ReadError, mkSource pend scr')
  end.

(** ** refillBuffer *)

Record Refilled := mkRefilled {
  r_ret : Z;
  r_cursor : Z;
  r_cursorEnd : Z;
  r_buffer : Buffer;
  r_stdin : Source
}.

(** The bytes of the window [[cursor, cursorEnd)]. *)
Definition window (b : Buffer) (cursor cursorEnd : Z) : list byte :=
  view (byteAt b) cursor (cursorEnd - cursor).

(** [std::distance] into a [size_t] and [std::copy] need
    [cursor <= cursorEnd]; nothing is defined otherwise. *)
Definition refillBuffer (cursor cursorEnd : Z) (b : Buffer) (src : Source)
  : Res Refilled :=
  if cursorEnd <? cursor then Undef
  else
    let unprocessed := cursorEnd - cursor in
    let shifted := store (filled b) 0 (window b cursor cursorEnd) in
    let cursor' := 0 in
    let cursorEnd' := cursor' + unprocessed in
    match read_retry (Z.to_nat (capacity b - cursorEnd')) (pending src) (script src) with
    | (ReadError, src') =>
        Ok (mkRefilled (-1) cursor' cursorEnd' (mkBuffer shifted (capacity b)) src')
    | (ReadBytes [], src') =>
        Ok (mkRefilled 0 (capacity b) (capacity b) (mkBuffer shifted (capacity b)) src')
    | (ReadBytes bs, src') =>
        Ok (mkRefilled (size bs) cursor' (cursorEnd' + size bs)
              (mkBuffer (store shifted (Z.to_nat unprocessed) bs) (capacity b)) src')
    end.

(** ** The variables of [main] *)

(** The variables that the program declares [int] are integers here, with
    no bound of their own.  The part on the range of the [int] variables
    shows that on a stream of at most [INT_MAX] bytes every one of them
    stays in the range of [int] at every turn, so that no addition of the
    program overflows there. *)

(** A [std::string_view] into [inTagQName]: an offset and a length. *)
Record View := mkView { v_off : nat; v_len : nat }.

Definition view_bytes (owner : list byte) (v : View) : list byte :=
  firstn (v_len v) (skipn (v_off v) owner).

(** [strlen]: the bytes before the first NUL. *)
Fixpoint strlen (l : list byte) : nat :=
  match l with
  | [] => O
  | c :: l' => if byte_eqb c NUL then O else S (strlen l')
  end.

Record Locals := mkLocals {
  url : list byte;
  textsize : Z;
  loc : Z;
  exprCount : Z;
  functionCount : Z;
  classCount : Z;
  unitCount : Z;
  declCount : Z;
  commentCount : Z;
  depth : Z;
  totalBytes : Z;
  inTag : bool;
  inXMLComment : bool;
  inCDATA : bool;
  inTagQName : list byte;
  inTagPrefix : View;
  inTagLocalName : View;
  isArchive : bool
}.

Record State := mkState {
  locals : Locals;
  buffer : Buffer;
  cursor : Z;
  cursorEnd : Z;
  stdin : Source
}.

Definition set_url (x : list byte) (v : Locals) : Locals :=
  mkLocals x (textsize v) (loc v) (exprCount v) (functionCount v) (classCount v)
    (unitCount v) (declCount v) (commentCount v) (depth v) (totalBytes v)
    (inTag v) (inXMLComment v) (inCDATA v) (inTagQName v) (inTagPrefix v)
    (inTagLocalName v) (isArchive v).

Definition add_text (n lines : Z) (v : Locals) : Locals :=
  mkLocals (url v) (textsize v + n) (loc v + lines) (exprCount v) (functionCount v)
    (classCount v) (unitCount v) (declCount v) (commentCount v) (depth v)
    (totalBytes v) (inTag v) (inXMLComment v) (inCDATA v) (inTagQName v)
    (inTagPrefix v) (inTagLocalName v) (isArchive v).

Definition set_depth (d : Z) (v : Locals) : Locals :=
  mkLocals (url v) (textsize v) (loc v) (exprCount v) (functionCount v)
    (classCount v) (unitCount v) (declCount v) (commentCount v) d
    (totalBytes v) (inTag v) (inXMLComment v) (inCDATA v) (inTagQName v)
    (inTagPrefix v) (inTagLocalName v) (isArchive v).

Definition add_totalBytes (n : Z) (v : Locals) : Locals :=
  mkLocals (url v) (textsize v) (loc v) (exprCount v) (functionCount v)
    (classCount v) (unitCount v) (declCount v) (commentCount v) (depth v)
    (totalBytes v + n) (inTag v) (inXMLComment v) (inCDATA v) (inTagQName v)
    (inTagPrefix v) (inTagLocalName v) (isArchive v).

Definition set_inTag (b : bool) (v : Locals) : Locals :=
  mkLocals (url v) (textsize v) (loc v) (exprCount v) (functionCount v)
    (classCount v) (unitCount v) (declCount v) (commentCount v) (depth v)
    (totalBytes v) b (inXMLComment v) (inCDATA v) (inTagQName v)
    (inTagPrefix v) (inTagLocalName v) (isArchive v).

Definition set_inXMLComment (b : bool) (v : Locals) : Locals :=
  mkLocals (url v) (textsize v) (loc v) (exprCount v) (functionCount v)
    (classCount v) (unitCount v) (declCount v) (commentCount v) (depth v)
    (totalBytes v) (inTag v) b (inCDATA v) (inTagQName v)
    (inTagPrefix v) (inTagLocalName v) (isArchive v).

Definition set_inCDATA (b : bool) (v : Locals) : Locals :=
  mkLocals (url v) (textsize v) (loc v) (exprCount v) (functionCount v)
    (classCount v) (unitCount v) (declCount v) (commentCount v) (depth v)
    (totalBytes v) (inTag v) (inXMLComment v) b (inTagQName v)
    (inTagPrefix v) (inTagLocalName v) (isArchive v).

Definition set_inTagName (q : list byte) (p l : View) (v : Locals) : Locals :=
  mkLocals (url v) (textsize v) (loc v) (exprCount v) (functionCount v)
    (classCount v) (unitCount v) (declCount v) (commentCount v) (depth v)
    (totalBytes v) (inTag v) (inXMLComment v) (inCDATA v) q p l (isArchive v).

(** The six element counters, and [isArchive] with [unitCount]. *)
Definition set_counts (e f c u d m : Z) (a : bool) (v : Locals) : Locals :=
  mkLocals (url v) (textsize v) (loc v) e f c u d m (depth v)
    (totalBytes v) (inTag v) (inXMLComment v) (inCDATA v) (inTagQName v)
    (inTagPrefix v) (inTagLocalName v) a.

Definition initial_locals : Locals :=
  mkLocals [] 0 0 0 0 0 0 0 0 0 0 false false false [] (mkView 0 0) (mkView 0 0)
    false.

(** ** Choosing the construct

    The conditions of the [if] / [else if] chain, in the order in which C++
    evaluates them.  Each carries, next to its value, how many bytes from
    the cursor on it has looked at: [&&] and [||] do not evaluate their
    right operand when the left one decides, and [strncmp] stops at the
    first difference. *)

Inductive Construct :=
| CNamespace
| CAttribute
| CXMLComment
| CCDATA
| CXMLDeclaration
| CProcessingInstruction
| CEndTag
| CStartTag
| CWhitespace
| CEntityReference
| CCharacters.

Definition Look := (bool * Z)%type.

Definition flag (b : bool) : Look := (b, 0).

Definition andL (a b : Look) : Look :=
  if fst a then (fst b, Z.max (snd a) (snd b)) else (false, snd a).

Definition orL (a b : Look) : Look :=
  if fst a then (true, snd a) else (fst b, Z.max (snd a) (snd b)).

Fixpoint first_match (alts : list (Look * Construct)) (otherwise : Construct)
  : Construct * Z :=
  match alts with
  | [] => (otherwise, 0)
  | (c, k) :: rest =>
      if fst c then (k, snd c)
      else let r := first_match rest otherwise in (fst r, Z.max (snd c) (snd r))
  end.

Section Classifier.

Variable rd : Z -> byte.
Variable c : Z.   (* cursor *)

(** [cursor[k] == x] *)
Definition at_ (k : Z) (x : byte) : Look := (byte_eqb (rd (c + k)) x, k + 1).

(** [strncmp(addressof(cursor[k]), lit, length lit) == 0] *)
Fixpoint strncmpL (lit : list byte) (k : Z) : Look :=
  match lit with
  | [] => (true, 0)
  | x :: lit' =>
      if byte_eqb (rd (c + k)) x
      then let r := strncmpL lit' (k + 1) in (fst r, Z.max (k + 1) (snd r))
      else (false, k + 1)
  end.

Definition classify (v : Locals) : Construct * Z :=
  first_match
    [ (andL (andL (flag (inTag v)) (strncmpL (bytes "xmlns") 0))
            (orL (at_ 5 ":") (at_ 5 "=")), CNamespace);
      (flag (inTag v), CAttribute);
      (orL (flag (inXMLComment v))
           (andL (andL (andL (at_ 1 "!") (at_ 0 "<")) (at_ 2 "-")) (at_ 3 "-")),
       CXMLComment);
      (orL (flag (inCDATA v))
           (andL (andL (andL (at_ 1 "!") (at_ 0 "<")) (at_ 2 "["))
                 (strncmpL (bytes "CDATA[") 3)),
       CCDATA);
      (andL (andL (at_ 1 "?") (at_ 0 "<")) (strncmpL (bytes "<?xml ") 0),
       CXMLDeclaration);
      (andL (at_ 1 "?") (at_ 0 "<"), CProcessingInstruction);
      (andL (at_ 1 "/") (at_ 0 "<"), CEndTag);
      (at_ 0 "<", CStartTag);
      (flag (depth v =? 0), CWhitespace);
      (at_ 0 "&", CEntityReference) ]
    CCharacters.

End Classifier.

(** ** The handlers that do not refill

    Each takes the variables of [main], the cursor [c] and [cursorEnd] [e],
    and gives the variables and the cursor at the end of the branch. *)

Definition is_quote (x : byte) : bool := byte_eqb x dquote || byte_eqb x squote.

Record TagName := mkTagName {
  tn_prefix : list byte;
  tn_qName : list byte;
  tn_localName : list byte;
  tn_end : Z
}.

Section Handlers.

Variable rd : Z -> byte.

(** How a tag header goes on after a name, an attribute or a namespace:
    [if ( *cursor == '>') ... else if ( *cursor == '/' && cursor[1] == '>') ...]. *)
Definition close_header (v : Locals) (c : Z) : Locals * Z :=
  if byte_eqb (rd c) ">" then (set_depth (depth v + 1) (set_inTag false v), c + 1)
  else if byte_eqb (rd c) "/" && byte_eqb (rd (c + 1)) ">"
       then (set_inTag false v, c + 2)
       else (v, c).

(** parse XML namespace; the prefix and the uri are views that only the
    trace reads *)
Definition parseNamespace (v : Locals) (c e : Z) : Res (Locals * Z) :=
  let c := c + 5 in
  nameEnd <- find rd "=" c e ;;
  failif (nameEnd =? e) with IncompleteNamespace ;;
  let c := nameEnd + 1 in
  c <- find_if_not rd isspace c e ;;
  failif (c =? e) with IncompleteNamespace ;;
  let delimiter := rd c in
  failif (negb (is_quote delimiter)) with IncompleteNamespace ;;
  let c := c + 1 in
  valueEnd <- find rd delimiter c e ;;
  failif (valueEnd =? e) with IncompleteNamespace ;;
  let c := valueEnd + 1 in
  c <- find_if_not rd isspace c e ;;
  Ok (close_header v c).

(** The name, the value and the position after the value of the attribute
    at the cursor, up to the assignment to [url]. *)
Definition attribute_parts (c e : Z) : Res (list byte * list byte * Z) :=
  nameEnd <- find_name_end rd c e ;;
  failif (nameEnd =? e) with EmptyAttributeName ;;
  let qName := view rd c (nameEnd - c) in
  failif (match find_colon qName with Some 0 => true | _ => false end)
    with InvalidAttributeName ;;
  let colonPosition := match find_colon qName with Some k => k | None => 0 end in
  let colonPosition := if colonPosition =? 0 then colonPosition else colonPosition + 1 in
  let localName := view rd (c + colonPosition) (size qName - colonPosition) in
  let c := nameEnd in
  c <- (if isspace (rd c) then find_if_not rd isspace c e else Ok c) ;;
  failif (c =? e) with IncompleteAttribute ;;
  failif (negb (byte_eqb (rd c) "=")) with MissingEquals ;;
  let c := c + 1 in
  c <- (if isspace (rd c) then find_if_not rd isspace c e else Ok c) ;;
  let delimiter := rd c in
  failif (negb (is_quote delimiter)) with MissingDelimiter ;;
  let c := c + 1 in
  valueEnd <- find rd delimiter c e ;;
  failif (valueEnd =? e) with MissingDelimiter ;;
  Ok (localName, view rd c (valueEnd - c), valueEnd).

(** parse attribute *)
Definition parseAttribute (v : Locals) (c e : Z) : Res (Locals * Z) :=
  parts <- attribute_parts c e ;;
  let '(localName, value, valueEnd) := parts in
  let v := if bytes_eqb localName (bytes "url") then set_url value v else v in
  let c := valueEnd + 1 in
  c <- (if isspace (rd c) then find_if_not rd isspace (c + 1) e else Ok c) ;;
  Ok (close_header v c).

(** parse XML comment *)
Definition parseXMLComment (v : Locals) (c e : Z) : Res (Locals * Z) :=
  failif (c =? e) with UnterminatedXMLComment ;;
  let c := if inXMLComment v then c else c + 4 in
  tagEnd <- search rd (bytes "-->") c e ;;
  let v := set_inXMLComment (tagEnd =? e) v in
  Ok (v, if inXMLComment v then tagEnd else tagEnd + 3).

(** parse CDATA *)
Definition parseCDATA (v : Locals) (c e : Z) : Res (Locals * Z) :=
  failif (c =? e) with UnterminatedCDATA ;;
  let c := if inCDATA v then c else c + 9 in
  tagEnd <- search rd (bytes "]]>") c e ;;
  let v := set_inCDATA (tagEnd =? e) v in
  let characters := view rd c (tagEnd - c) in
  let v := add_text (size characters) (count_newlines characters) v in
  Ok (v, if inCDATA v then tagEnd else tagEnd + 3).

(** An attribute of the XML declaration after [version]: its name, and
    the cursor after its value and the white space behind it. *)
Definition declaration_attribute (c tagEnd : Z) : Res (list byte * Z) :=
  nameEnd <- find rd "=" c tagEnd ;;
  failif (nameEnd =? tagEnd) with IncompleteDeclarationAttribute ;;
  let attr2 := view rd c (nameEnd - c) in
  let c := nameEnd + 1 in
  let delimiter2 := rd c in
  failif (negb (is_quote delimiter2)) with InvalidDeclarationDelimiter ;;
  let c := c + 1 in
  valueEnd <- find rd delimiter2 c tagEnd ;;
  failif (valueEnd =? tagEnd) with IncompleteDeclarationAttribute ;;
  Ok (attr2, valueEnd).

(** parse XML declaration, once [tagEnd] is known *)
Definition parseXMLDeclaration (v : Locals) (c e tagEnd : Z) : Res (Locals * Z) :=
  let c := c + 5 in
  c <- find_if_not rd isspace c tagEnd ;;
  failif (c =? tagEnd) with MissingSpaceBeforeVersion ;;
  nameEnd <- find rd "=" c tagEnd ;;
  let attr := view rd c (nameEnd - c) in
  let c := nameEnd + 1 in
  let delimiter := rd c in
  failif (negb (is_quote delimiter)) with InvalidStartDelimiterForVersion ;;
  let c := c + 1 in
  valueEnd <- find rd delimiter c tagEnd ;;
  failif (valueEnd =? tagEnd) with InvalidEndDelimiterForVersion ;;
  failif (negb (bytes_eqb attr (bytes "version"))) with MissingRequiredVersion ;;
  let c := valueEnd + 1 in
  c <- find_if_not rd isspace c tagEnd ;;
  (* optional encoding and standalone attributes *)
  second <-
    (if negb (c =? tagEnd - 1) then
       a <- declaration_attribute c tagEnd ;;
       let '(attr2, valueEnd) := a in
       standalone <-
         (if bytes_eqb attr2 (bytes "encoding") then Ok false
          else if bytes_eqb attr2 (bytes "standalone") then Ok true
          else Err InvalidDeclarationAttribute) ;;
       c <- find_if_not rd isspace (valueEnd + 1) tagEnd ;;
       Ok (standalone, c)
     else Ok (false, c)) ;;
  let '(standalone, c) := second in
  c <-
    (if negb (c =? tagEnd - 2 + 1) then
       a <- declaration_attribute c tagEnd ;;
       let '(attr2, valueEnd) := a in
       if negb standalone && bytes_eqb attr2 (bytes "standalone")
       then find_if_not rd isspace (valueEnd + 1) tagEnd
       else Err InvalidDeclarationAttribute
     else Ok c) ;;
  let c := c + 2 in
  c <- find_if_not rd isspace c e ;;
  Ok (v, c).

(** parse processing instruction, once [tagEnd] is known *)
Definition parseProcessingInstruction (v : Locals) (c tagEnd : Z)
  : Res (Locals * Z) :=
  let c := c + 2 in
  nameEnd <- find_name_end rd c tagEnd ;;
  failif (nameEnd =? tagEnd) with UnterminatedProcessingInstruction ;;
  c <- find_if_not rd isspace nameEnd tagEnd ;;
  Ok (v, tagEnd + 2).

(** The name of a start or end tag, read from [c] on; the three
    diagnostics are those of the tag at hand. *)
Definition tag_name (invalid unterminated empty : ParserError) (c e : Z)
  : Res TagName :=
  failif (byte_eqb (rd c) ":") with invalid ;;
  nameEnd <- find_name_end rd c e ;;
  failif (nameEnd =? e) with unterminated ;;
  split <-
    (if byte_eqb (rd nameEnd) ":"
     then nameEnd' <- find_name_end rd (nameEnd + 1) e ;; Ok (nameEnd - c, nameEnd')
     else Ok (0, nameEnd)) ;;
  let '(colonPosition, nameEnd) := split in
  let prefix := view rd c colonPosition in
  let qName := view rd c (nameEnd - c) in
  failif (match qName with [] => true | _ => false end) with empty ;;
  let colonPosition := if colonPosition =? 0 then colonPosition else colonPosition + 1 in
  let localName := view rd (c + colonPosition) ((nameEnd - c) - colonPosition) in
  Ok (mkTagName prefix qName localName nameEnd).

(** parse end tag, after the search for '>' *)
Definition parseEndTag (v : Locals) (c e : Z) : Res (Locals * Z) :=
  let c := c + 2 in
  nm <- tag_name InvalidEndTagName UnterminatedEndTag EmptyEndTagName c e ;;
  Ok (set_depth (depth v - 1) v, tn_end nm + 1).

(** The chain of comparisons of [localName] in the start tag. *)
Definition count_element (localName : list byte) (v : Locals) : Locals :=
  let upd e f k u d m a := set_counts e f k u d m a v in
  if bytes_eqb localName (bytes "expr") then
    upd (exprCount v + 1) (functionCount v) (classCount v) (unitCount v)
        (declCount v) (commentCount v) (isArchive v)
  else if bytes_eqb localName (bytes "decl") then
    upd (exprCount v) (functionCount v) (classCount v) (unitCount v)
        (declCount v + 1) (commentCount v) (isArchive v)
  else if bytes_eqb localName (bytes "comment") then
    upd (exprCount v) (functionCount v) (classCount v) (unitCount v)
        (declCount v) (commentCount v + 1) (isArchive v)
  else if bytes_eqb localName (bytes "function") then
    upd (exprCount v) (functionCount v + 1) (classCount v) (unitCount v)
        (declCount v) (commentCount v) (isArchive v)
  else if bytes_eqb localName (bytes "unit") then
    upd (exprCount v) (functionCount v) (classCount v) (unitCount v + 1)
        (declCount v) (commentCount v)
        (if depth v =? 1 then true else isArchive v)
  else if bytes_eqb localName (bytes "class") then
    upd (exprCount v) (functionCount v) (classCount v + 1) (unitCount v)
        (declCount v) (commentCount v) (isArchive v)
  else v.

(** [inTagQName = qName] and the two views made from [inTagQName.data()]:
    the second runs from [prefix.size() + 1] to the terminating NUL. *)
Definition remember_tag (nm : TagName) (v : Locals) : Locals :=
  let q := tn_qName nm in
  let p := length (tn_prefix nm) in
  set_inTag true
    (set_inTagName q (mkView 0 p)
       (mkView (p + 1) (strlen (skipn (p + 1) (q ++ [NUL])))) v).

(** parse start tag, after the search for '>' *)
Definition parseStartTag (v : Locals) (c e : Z) : Res (Locals * Z) :=
  let c := c + 1 in
  nm <- tag_name InvalidStartTagName UnterminatedStartTag EmptyStartTagName c e ;;
  let v := count_element (tn_localName nm) v in
  let c := tn_end nm in
  c <- (if negb (byte_eqb (rd c) ">") then find_if_not rd isspace c e else Ok c) ;;
  if byte_eqb (rd c) ">" then Ok (set_depth (depth v + 1) v, c + 1)
  else if byte_eqb (rd c) "/" && byte_eqb (rd (c + 1)) ">" then Ok (v, c + 2)
  else Ok (remember_tag nm v, c).

(** parse characters before or after XML *)
Definition parseWhitespace (v : Locals) (c e : Z) : Res (Locals * Z) :=
  c <- find_if_not rd isspace c e ;;
  Ok (v, c).

(** parse character entity references *)
Definition parseEntityReference (v : Locals) (c : Z) : Locals * Z :=
  let c :=
    if byte_eqb (rd (c + 1)) "l" && byte_eqb (rd (c + 2)) "t"
       && byte_eqb (rd (c + 3)) ";" then c + 4
    else if byte_eqb (rd (c + 1)) "g" && byte_eqb (rd (c + 2)) "t"
            && byte_eqb (rd (c + 3)) ";" then c + 4
    else if byte_eqb (rd (c + 1)) "a" && byte_eqb (rd (c + 2)) "m"
            && byte_eqb (rd (c + 3)) "p" && byte_eqb (rd (c + 4)) ";" then c + 5
    else c + 1 in
  (add_text 1 0 v, c).

(** parse character non-entity references *)
Definition parseCharacters (v : Locals) (c e : Z) : Res (Locals * Z) :=
  tagEnd <- find_if rd (fun x => byte_eqb x "<" || byte_eqb x "&") c e ;;
  let characters := view rd c (tagEnd - c) in
  Ok (add_text (size characters) (count_newlines characters) v,
      c + size characters).

End Handlers.

(** ** The scan loop *)

Definition rd_of (st : State) : Z -> byte := byteAt (buffer st).

(** [int bytesRead = refillBuffer(cursor, cursorEnd, buffer);
     if (bytesRead < 0) return 1;  totalBytes += bytesRead;] *)
Definition refill (st : State) : Res State :=
  r <- refillBuffer (cursor st) (cursorEnd st) (buffer st) (stdin st) ;;
  failif (r_ret r <? 0) with FileInputError ;;
  Ok (mkState (add_totalBytes (r_ret r) (locals st)) (r_buffer r)
        (r_cursor r) (r_cursorEnd r) (r_stdin r)).

(** Look for the end of the construct; when the window does not hold it,
    refill once and look again. *)
Definition ensure (look : (Z -> byte) -> Z -> Z -> Res Z) (incomplete : ParserError)
    (st : State) : Res (State * Z) :=
  tagEnd <- look (rd_of st) (cursor st) (cursorEnd st) ;;
  if tagEnd =? cursorEnd st then
    st <- refill st ;;
    tagEnd <- look (rd_of st) (cursor st) (cursorEnd st) ;;
    failif (tagEnd =? cursorEnd st) with incomplete ;;
    Ok (st, tagEnd)
  else Ok (st, tagEnd).

(** The same, only when fewer than [limit] bytes are in the window. *)
Definition ensure_within (limit : Z) (incomplete : ParserError) (st : State)
  : Res State :=
  if cursorEnd st - cursor st <? limit then
    r <- ensure (fun rd => find rd ">") incomplete st ;;
    Ok (fst r)
  else Ok st.

Definition moved (st : State) (r : Locals * Z) : State :=
  mkState (fst r) (buffer st) (snd r) (cursorEnd st) (stdin st).

(** The branch of the chain that [k] names. *)
Definition handle (k : Construct) (st : State) : Res State :=
  let rd := rd_of st in
  let v := locals st in
  let c := cursor st in
  let e := cursorEnd st in
  match k with
  | CNamespace => r <- parseNamespace rd v c e ;; Ok (moved st r)
  | CAttribute => r <- parseAttribute rd v c e ;; Ok (moved st r)
  | CXMLComment => r <- parseXMLComment rd v c e ;; Ok (moved st r)
  | CCDATA => r <- parseCDATA rd v c e ;; Ok (moved st r)
  | CXMLDeclaration =>
      p <- ensure (fun rd => find rd ">") IncompleteXMLDeclaration st ;;
      let '(st, tagEnd) := p in
      r <- parseXMLDeclaration (rd_of st) (locals st) (cursor st) (cursorEnd st) tagEnd ;;
      Ok (moved st r)
  | CProcessingInstruction =>
      p <- ensure (fun rd => search rd (bytes "?>")) IncompleteProcessingInstruction st ;;
      let '(st, tagEnd) := p in
      r <- parseProcessingInstruction (rd_of st) (locals st) (cursor st) tagEnd ;;
      Ok (moved st r)
  | CEndTag =>
      st <- ensure_within 100 IncompleteEndTag st ;;
      r <- parseEndTag (rd_of st) (locals st) (cursor st) (cursorEnd st) ;;
      Ok (moved st r)
  | CStartTag =>
      st <- ensure_within 200 IncompleteStartTag st ;;
      r <- parseStartTag (rd_of st) (locals st) (cursor st) (cursorEnd st) ;;
      Ok (moved st r)
  | CWhitespace => r <- parseWhitespace rd v c e ;; Ok (moved st r)
  | CEntityReference => Ok (moved st (parseEntityReference rd v c))
  | CCharacters => r <- parseCharacters rd v c e ;; Ok (moved st r)
  end.

(** What one turn of [while (true)] comes to. *)
Inductive Outcome :=
| Continue (st : State)
| Break (st : State)
| Return1 (e : ParserError)
| Undefined.

Definition construct_at (st : State) : Construct :=
  fst (classify (rd_of st) (cursor st) (locals st)).

Definition step (st : State) : Outcome :=
  if cursorEnd st - cursor st <? 5 then
    match refill st with
    | Ok st' =>
        if negb (inXMLComment (locals st')) && negb (inCDATA (locals st'))
           && (cursor st' =? cursorEnd st')
        then Break st' else Continue st'
    | Err e => Return1 e
    | Undef => Undefined
    end
  else
    match handle (construct_at st) st with
    | Ok st' => Continue st'
    | Err e => Return1 e
    | Undef => Undefined
    end.

(** The state in which the loop is entered, for a buffer of [cap] bytes. *)
Definition initial (cap : Z) (src : Source) : State :=
  mkState initial_locals (mkBuffer [] cap) cap cap src.

(** What a run comes to: [return 0] with the variables the report is made
    of, [return 1], no defined behaviour, or still looping when the fuel
    is spent. *)
Inductive Result :=
| Exit0 (v : Locals)
| Exit1 (e : ParserError)
| NoBehaviour
| Running.

Fixpoint loop (fuel : nat) (st : State) : Result :=
  match fuel with
  | O => Running
  | S fuel' =>
      match step st with
      | Continue st' => loop fuel' st'
      | Break st' => Exit0 (locals st')
      | Return1 e => Exit1 e
      | Undefined => NoBehaviour
      end
  end.

Definition scan (cap : Z) (fuel : nat) (src : Source) : Result :=
  loop fuel (initial cap src).

Definition main (fuel : nat) (src : Source) : Result := scan BUFFER_SIZE fuel src.

Definition exit_code (r : Result) : option Z :=
  match r with
  | Exit0 _ => Some 0
  | Exit1 _ => Some 1
  | _ => None
  end.

(** The state after [n] turns of the loop, when it is still going. *)
Fixpoint after (n : nat) (st : State) : option State :=
  match n with
  | O => Some st
  | S n' =>
      match step st with
      | Continue st' => after n' st'
      | _ => None
      end
  end.

(** ** The report *)

Definition files (v : Locals) : Z :=
  if isArchive v then unitCount v - 1 else unitCount v.

Record Report := mkReport {
  rep_url : list byte;
  rep_srcML_bytes : Z;
  rep_Characters : Z;
  rep_Files : Z;
  rep_LOC : Z;
  rep_Classes : Z;
  rep_Functions : Z;
  rep_Declarations : Z;
  rep_Expressions : Z;
  rep_Comments : Z
}.

Definition report (v : Locals) : Report :=
  mkReport (url v) (totalBytes v) (textsize v) (files v) (loc v) (classCount v)
    (functionCount v) (declCount v) (exprCount v) (commentCount v).

(** A whole stream given at once, by reads that deliver all they can. *)
Definition whole (input : list byte) : Source := mkSource input [].

(** * Notions and inputs that the statements use *)

(** ** Inputs *)

(** The first end-to-end scenario of the specification. *)
Definition scenario1 : list byte :=
  bytes "<?xml version=" ++ [dquote] ++ bytes "1.0" ++ [dquote] ++ bytes "?>"
    ++ [newline] ++ bytes "<unit><expr/></unit>" ++ [newline].

(** A well-formed document in which [ATA[] comes five bytes after the
    place that [<![CDATA[] takes once the buffer has been shifted. *)
Definition cdata_document : list byte :=
  bytes "<a>12ATA[zz<![CDATA[hello]]></a>" ++ [newline].

(** The document above, given by reads of 11 bytes, then 5, then the rest. *)
Definition cdata_in_three_reads : Source :=
  mkSource cdata_document [Deliver 10; Deliver 4].

(** A start tag without prefix that has an attribute. *)
Definition tag_with_attribute : list byte := bytes "<unit a='b'/>".

(** A root element the size of those that srcML writes, 79 bytes. *)
Definition unit_header : list byte :=
  bytes "<unit xmlns='http://www.srcML.org/srcML/src' language='C++' filename='a.cpp'/>"
    ++ [newline].

(** A document with an XML comment. *)
Definition commented : list byte :=
  bytes "<unit><!-- a comment --><expr/></unit>" ++ [newline].

(** Two elements that both carry a [url] attribute. *)
Definition two_urls : list byte :=
  bytes "<unit url='a'><unit url='b'/></unit>" ++ [newline].

(** A [unit] whose only child is a self-closing [unit]. *)
Definition self_closing_nested_unit : list byte :=
  bytes "<unit><unit/></unit>" ++ [newline].

(** A [unit] that is the child of another element. *)
Definition unit_inside_other : list byte :=
  bytes "<a><unit></unit></a>" ++ [newline].

(** An end tag that no start tag precedes, and four spaces. *)
Definition stray_end_tag : list byte := bytes "</a>    ".

(** One element with text. *)
Definition one_element : list byte := bytes "<a>text</a>" ++ [newline].

(** A state inside an element, the window being [&amp;&lt;x]. *)
Definition in_text : State :=
  mkState (set_depth 1 initial_locals) (mkBuffer (bytes "&amp;&lt;x") 16) 0 10
    (whole []).

(** ** Reads and refills *)

(** A read event that is not a failing read. *)
Definition delivers (ev : ReadEvent) : Prop := ev <> Failure.

(** What C2 says of every call: the window afterwards is the window before
    followed by the bytes that the call has read. *)
Definition keeps_the_window : Prop :=
  forall c e b src r,
    0 <= c <= e -> e <= capacity b ->
    refillBuffer c e b src = Ok r ->
    exists new,
      pending src = new ++ pending (r_stdin r)
      /\ window (r_buffer r) (r_cursor r) (r_cursorEnd r) = window b c e ++ new.

(** What a call comes to, by what the read gave. *)
Definition refilled_as_read (c e : Z) (b : Buffer) (src : Source) (r : Refilled)
  : Prop :=
  match read_retry (Z.to_nat (capacity b - (e - c))) (pending src) (script src) with
  | (ReadBytes new, src') =>
      r_ret r = size new /\ r_stdin r = src'
      /\ (r_ret r = 0 <-> new = [])
      /\ (new = [] ->
          r_cursor r = capacity b /\ r_cursorEnd r = capacity b
          /\ window (r_buffer r) (r_cursor r) (r_cursorEnd r) = [])
      /\ (new <> [] ->
          r_cursor r = 0 /\ r_cursorEnd r = (e - c) + size new
          /\ window (r_buffer r) (r_cursor r) (r_cursorEnd r) = window b c e ++ new)
  | (ReadError, src') =>
      r_ret r = -1 /\ r_stdin r = src'
      /\ r_cursor r = 0 /\ r_cursorEnd r = e - c
      /\ window (r_buffer r) (r_cursor r) (r_cursorEnd r) = window b c e
  end.

(** ** What a turn of the loop parses *)

(** The length of the reference that stands at [c], where an ampersand is:
    4 for [&lt;] and [&gt;], 5 for [&amp;], and 1, the ampersand alone, for
    anything else. *)
Definition reference_length (rd : Z -> byte) (c : Z) : Z :=
  if bytes_eqb (view rd c 4) (bytes "&lt;") then 4
  else if bytes_eqb (view rd c 4) (bytes "&gt;") then 4
  else if bytes_eqb (view rd c 5) (bytes "&amp;") then 5
  else 1.

(** The value of the attribute that the turn at [st] parses, when its local
    name is [url]. *)
Definition url_attribute (st : State) : option (list byte) :=
  if cursorEnd st - cursor st <? 5 then None
  else match construct_at st with
       | CAttribute =>
           match attribute_parts (rd_of st) (cursor st) (cursorEnd st) with
           | Ok (localName, value, _) =>
               if bytes_eqb localName (bytes "url") then Some value else None
           | _ => None
           end
       | _ => None
       end.

(** The values of the [url] attributes parsed by the first [fuel] turns,
    in the order of the document. *)
Fixpoint url_values (fuel : nat) (st : State) : list (list byte) :=
  match fuel with
  | O => []
  | S fuel' =>
      match step st with
      | Continue st' =>
          match url_attribute st with
          | Some x => x :: url_values fuel' st'
          | None => url_values fuel' st'
          end
      | _ => []
      end
  end.

(** Does the turn at [st] scan a start tag whose local name is [unit]? *)
Definition unit_start_tag (st : State) : bool :=
  if cursorEnd st - cursor st <? 5 then false
  else match construct_at st with
       | CStartTag =>
           match ensure_within 200 IncompleteStartTag st with
           | Ok st1 =>
               match tag_name (rd_of st1) InvalidStartTagName UnterminatedStartTag
                       EmptyStartTagName (cursor st1 + 1) (cursorEnd st1) with
               | Ok nm => bytes_eqb (tn_localName nm) (bytes "unit")
               | _ => false
               end
           | _ => false
           end
       | _ => false
       end.

(** Has one of the first [fuel] turns scanned a start tag whose local name
    is [unit] while [depth] was 1? *)
Fixpoint unit_seen_at_depth_1 (fuel : nat) (st : State) : bool :=
  match fuel with
  | O => false
  | S fuel' =>
      match step st with
      | Continue st' =>
          (unit_start_tag st && (depth (locals st) =? 1))
          || unit_seen_at_depth_1 fuel' st'
      | _ => false
      end
  end.

(** Does the turn at [st] take the end-tag branch? *)
Definition at_end_tag (st : State) : bool :=
  if cursorEnd st - cursor st <? 5 then false
  else match construct_at st with CEndTag => true | _ => false end.

(** ** What a branch changes *)

(** Neither [url] nor [isArchive] changes. *)
Definition quiet (v v' : Locals) : Prop :=
  url v' = url v /\ isArchive v' = isArchive v.

(** What a branch does to [url], by the construct. *)
Definition url_after (k : Construct) (st st' : State) : Prop :=
  match k with
  | CAttribute =>
      exists localName value valueEnd,
        attribute_parts (rd_of st) (cursor st) (cursorEnd st)
        = Ok (localName, value, valueEnd)
        /\ url (locals st')
           = (if bytes_eqb localName (bytes "url") then value else url (locals st))
  | _ => url (locals st') = url (locals st)
  end.

(** What a branch does to [isArchive], by the construct. *)
Definition isArchive_after (k : Construct) (st st' : State) : Prop :=
  match k with
  | CStartTag =>
      exists st1 nm,
        ensure_within 200 IncompleteStartTag st = Ok st1
        /\ tag_name (rd_of st1) InvalidStartTagName UnterminatedStartTag
             EmptyStartTagName (cursor st1 + 1) (cursorEnd st1) = Ok nm
        /\ isArchive (locals st')
           = (isArchive (locals st)
              || (bytes_eqb (tn_localName nm) (bytes "unit")
                  && (depth (locals st) =? 1)))
  | _ => isArchive (locals st') = isArchive (locals st)
  end.

(** What a branch does to [depth], by the construct. *)
Definition depth_after (k : Construct) (st st' : State) : Prop :=
  match k with
  | CEndTag => depth (locals st') = depth (locals st) - 1
  | _ => depth (locals st) <= depth (locals st') <= depth (locals st) + 1
  end.

(** ** Two runs side by side *)

(** Two ways of reading that give the same byte below [bound]. *)
Definition agree (bound : Z) (rd1 rd2 : Z -> byte) : Prop :=
  forall i, i < bound -> rd1 i = rd2 i.

(** Two states that differ in the capacity of the buffer only, the stream
    having come with the first read: either the window is the same in
    both, with four bytes to spare after it, or both cursors stand at the
    end of the buffer. *)
Inductive Related : State -> State -> Prop :=
| rel_window v f c e cap1 cap2 :
    0 <= e -> e + 4 <= cap1 -> e + 4 <= cap2 ->
    Related (mkState v (mkBuffer f cap1) c e (mkSource [] []))
            (mkState v (mkBuffer f cap2) c e (mkSource [] []))
| rel_at_end v f p cap1 cap2 :
    size p + 4 <= cap1 -> size p + 4 <= cap2 ->
    Related (mkState v (mkBuffer f cap1) cap1 cap1 (mkSource p []))
            (mkState v (mkBuffer f cap2) cap2 cap2 (mkSource p [])).

(** Results of a branch that go the same way. *)
Definition Related_res (r1 r2 : Res State) : Prop :=
  match r1, r2 with
  | Ok s1, Ok s2 => Related s1 s2
  | Err e1, Err e2 => e1 = e2
  | Undef, Undef => True
  | _, _ => False
  end.

(** Outcomes of a turn that go the same way. *)
Definition Related_outcome (o1 o2 : Outcome) : Prop :=
  match o1, o2 with
  | Continue s1, Continue s2 => Related s1 s2
  | Break s1, Break s2 => locals s1 = locals s2
  | Return1 e1, Return1 e2 => e1 = e2
  | Undefined, Undefined => True
  | _, _ => False
  end.

(** ** Names, diagnostics and what is counted *)

(** The bytes that may stand in a name: letters, digits, [-], [.] and [_]. *)
Definition name_char (c : byte) : bool :=
  let n := code c in
  ((48 <=? n) && (n <=? 57)) || ((65 <=? n) && (n <=? 90))
  || ((97 <=? n) && (n <=? 122)) || (n =? 45) || (n =? 46) || (n =? 95).

(** Is every byte of [s] accepted by the table? *)
Definition all_name (s : list byte) : bool :=
  forallb (fun x => match tagNameMask x with Ok true => true | _ => false end) s.

(** A name as it is written: [prefix:local], or [local] without prefix. *)
Definition qualified (prefix local : list byte) : list byte :=
  match prefix with
  | [] => local
  | _ => prefix ++ ":" :: local
  end.

(** The three diagnostics that the program has a message for and never
    writes. *)
Definition never_issued (x : ParserError) : Prop :=
  x <> UnterminatedXMLComment /\ x <> UnterminatedCDATA
  /\ x <> InvalidAttributeName.

(** What can be said of the diagnostic that a turn ends with. *)
Definition diagnosed (st : State) (x : ParserError) : Prop :=
  never_issued x /\ (x = FileInputError -> In Failure (script (stdin st))).

(** The six element counters. *)
Definition elements (v : Locals) : Z * Z * Z * Z * Z * Z :=
  (exprCount v, functionCount v, classCount v, unitCount v, declCount v,
   commentCount v).

(** What the branches other than the start tag leave alone, and how they
    count text: [loc] grows by no more than [textsize], and [textsize] by
    no more than the cursor moves from [c] to [c']. *)
Definition frame (v v' : Locals) (c c' : Z) : Prop :=
  totalBytes v' = totalBytes v /\ elements v' = elements v
  /\ isArchive v' = isArchive v
  /\ 0 <= loc v' - loc v <= textsize v' - textsize v
  /\ textsize v' - textsize v <= c' - c.

(** What the report counts: the characters and the six kinds of element. *)
Definition counted (v : Locals) : Z :=
  textsize v + exprCount v + functionCount v + classCount v + unitCount v
  + declCount v + commentCount v.

(** The bytes read so far that are neither counted nor still in the
    window. *)
Definition slack (st : State) : Z :=
  totalBytes (locals st) - counted (locals st) - (cursorEnd st - cursor st).

(** What holds between a state and a later one. *)
Definition Keeps (st st' : State) : Prop :=
  totalBytes (locals st') + size (pending (stdin st'))
  = totalBytes (locals st) + size (pending (stdin st))
  /\ slack st <= slack st'
  /\ 0 <= loc (locals st') - loc (locals st)
       <= textsize (locals st') - textsize (locals st)
  /\ (exprCount (locals st) <= exprCount (locals st')
      /\ functionCount (locals st) <= functionCount (locals st')
      /\ classCount (locals st) <= classCount (locals st')
      /\ unitCount (locals st) <= unitCount (locals st')
      /\ declCount (locals st) <= declCount (locals st')
      /\ commentCount (locals st) <= commentCount (locals st'))
  /\ (isArchive (locals st') = true ->
      isArchive (locals st) = true \/ unitCount (locals st) < unitCount (locals st'))
  /\ (exists past, script (stdin st) = past ++ script (stdin st')).

(** The window lies in the buffer, and the buffer holds no more than its
    capacity. *)
Definition Within (cap : Z) (st : State) : Prop :=
  capacity (buffer st) = cap
  /\ 0 <= cursor st
  /\ 0 <= cursorEnd st <= cap
  /\ size (filled (buffer st)) <= cap.

(** The local name of the start tag that the turn at [st] reads, if it
    reads one. *)
Definition start_tag_read (st : State) : option (list byte) :=
  if cursorEnd st - cursor st <? 5 then None
  else match construct_at st with
       | CStartTag =>
           match ensure_within 200 IncompleteStartTag st with
           | Ok st1 =>
               match tag_name (rd_of st1) InvalidStartTagName UnterminatedStartTag
                       EmptyStartTagName (cursor st1 + 1) (cursorEnd st1) with
               | Ok nm => Some (tn_localName nm)
               | _ => None
               end
           | _ => None
           end
       | _ => None
       end.

(** 1 when the turn at [st] reads a start tag whose local name is [name]. *)
Definition start_tag_named (name : list byte) (st : State) : Z :=
  match start_tag_read st with
  | Some l => if bytes_eqb l name then 1 else 0
  | None => 0
  end.

(** How many of the first [fuel] turns read a start tag whose local name
    is [name]. *)
Fixpoint start_tags (name : list byte) (fuel : nat) (st : State) : Z :=
  match fuel with
  | O => 0
  | S fuel' =>
      match step st with
      | Continue st' => start_tag_named name st + start_tags name fuel' st'
      | _ => 0
      end
  end.

(** 1 for [true], 0 for [false]. *)
Definition one_if (b : bool) : Z := if b then 1 else 0.

(** The counters after a turn that reads the start tag [l], or none. *)
Definition elements_with (l : option (list byte)) (v : Locals)
  : Z * Z * Z * Z * Z * Z :=
  match l with
  | Some l =>
      (exprCount v + one_if (bytes_eqb l (bytes "expr")),
       functionCount v + one_if (bytes_eqb l (bytes "function")),
       classCount v + one_if (bytes_eqb l (bytes "class")),
       unitCount v + one_if (bytes_eqb l (bytes "unit")),
       declCount v + one_if (bytes_eqb l (bytes "decl")),
       commentCount v + one_if (bytes_eqb l (bytes "comment")))
  | None => elements v
  end.

(** Does the turn at [st] take one of the three branches that count
    characters: CDATA, an entity reference, or character data? *)
Definition counts_text (st : State) : bool :=
  if cursorEnd st - cursor st <? 5 then false
  else match construct_at st with
       | CCDATA | CEntityReference | CCharacters => true
       | _ => false
       end.

(** ** Further inputs *)

(** A start tag with a prefix. *)
Definition qualified_tag : Z -> byte := byteAt (mkBuffer (bytes "<src:unit>") 16).

(** An attribute with a prefix, as it stands after the name of a tag. *)
Definition prefixed_attribute : Z -> byte :=
  byteAt (mkBuffer (bytes "xml:lang='en'>") 16).

(** An attribute that has no [=] after its name. *)
Definition attribute_without_value : list byte := bytes "<a b></a>   ".

(** A stream whose first read is interrupted and whose second fails. *)
Definition failing_read : Source := mkSource (bytes "<a/>") [Interrupted; Failure].

(** Two bytes left in the window and nothing more to come. *)
Definition at_end_of_stream : State :=
  mkState initial_locals (mkBuffer (bytes "    ") 8) 2 4 (mkSource [] [Deliver 3]).

(** The same, inside an XML comment that has not ended. *)
Definition in_open_comment : State :=
  mkState (set_inXMLComment true initial_locals) (mkBuffer (bytes "    ") 8) 2 4
    (mkSource [] [Deliver 3]).

(** The cursor after the root element, at text that is not white space. *)
Definition after_the_root : State :=
  mkState initial_locals (mkBuffer (bytes "<a/>junk<b/>") 16) 4 12 (whole []).

(** A state inside an element, the cursor at a start tag. *)
Definition at_start_tag : State :=
  mkState (set_depth 1 initial_locals) (mkBuffer (bytes "<expr/>text") 16) 0 11
    (whole []).

(** ** Runs that never end *)

(** What is left to do: the bytes still to come, the bytes in the window,
    the read events still to come, and one more turn when the cursor is not
    at the end of the buffer. *)
Definition remaining (st : State) : Z :=
  4 * size (pending (stdin st)) + 2 * (cursorEnd st - cursor st)
  + Z.of_nat (length (script (stdin st)))
  + (if cursor st =? capacity (buffer st) then 0 else 1).

(** The two ways in which a turn leaves the state as it is: text outside
    the root element, and the end of the stream inside a comment or a CDATA
    section. *)
Definition stands_still (st : State) : Prop :=
  step st = Continue st
  /\ ((5 <= cursorEnd st - cursor st /\ construct_at st = CWhitespace)
      \/ (cursorEnd st - cursor st < 5 /\ pending (stdin st) = []
          /\ (inXMLComment (locals st) = true \/ inCDATA (locals st) = true))).

(** Text before a root element. *)
Definition text_before_the_root : list byte := bytes "abcd<r/>".

(** ** Further documents *)

(** A document with two comments, each followed by an element. *)
Definition two_comments : list byte :=
  bytes "<unit><!-- a --><expr/><!-- b --><expr/></unit>".

(** The same with CDATA sections of one character each. *)
Definition two_cdata_sections : list byte :=
  bytes "<a><![CDATA[x]]><b/><![CDATA[y]]><b/></a>" ++ [newline].

(** Elements inside one another, one with an attribute, one that closes
    itself. *)
Definition nested_elements : list byte :=
  bytes "<a><b x='1'>t</b><c/></a>" ++ [newline].

(** ** Where a tag header ends *)

Section Headers.

Variable rd : Z -> byte.

(** The position at which the start-tag branch tests [*cursor == '>']:
    after the name and the white space behind it. *)
Definition start_tag_header (c e : Z) : Res Z :=
  nm <- tag_name rd InvalidStartTagName UnterminatedStartTag EmptyStartTagName
          (c + 1) e ;;
  let c := tn_end nm in
  if negb (byte_eqb (rd c) ">") then find_if_not rd isspace c e else Ok c.

(** The same for the attribute branch: after the value and the white space
    behind it. *)
Definition attribute_header (c e : Z) : Res Z :=
  parts <- attribute_parts rd c e ;;
  let '(_, _, valueEnd) := parts in
  let c := valueEnd + 1 in
  if isspace (rd c) then find_if_not rd isspace (c + 1) e else Ok c.

(** The same for the namespace branch. *)
Definition namespace_header (c e : Z) : Res Z :=
  let c := c + 5 in
  nameEnd <- find rd "=" c e ;;
  failif (nameEnd =? e) with IncompleteNamespace ;;
  let c := nameEnd + 1 in
  c <- find_if_not rd isspace c e ;;
  failif (c =? e) with IncompleteNamespace ;;
  let delimiter := rd c in
  failif (negb (is_quote delimiter)) with IncompleteNamespace ;;
  let c := c + 1 in
  valueEnd <- find rd delimiter c e ;;
  failif (valueEnd =? e) with IncompleteNamespace ;;
  let c := valueEnd + 1 in
  find_if_not rd isspace c e.

End Headers.

(** The byte on which the turn at [st] tests whether a tag header ends,
    if it is in one of the three branches that do and gets that far. *)
Definition header_byte (st : State) : option byte :=
  if cursorEnd st - cursor st <? 5 then None
  else match construct_at st with
       | CNamespace =>
           match namespace_header (rd_of st) (cursor st) (cursorEnd st) with
           | Ok p => Some (rd_of st p)
           | _ => None
           end
       | CAttribute =>
           match attribute_header (rd_of st) (cursor st) (cursorEnd st) with
           | Ok p => Some (rd_of st p)
           | _ => None
           end
       | CStartTag =>
           match ensure_within 200 IncompleteStartTag st with
           | Ok st1 =>
               match start_tag_header (rd_of st1) (cursor st1) (cursorEnd st1) with
               | Ok p => Some (rd_of st1 p)
               | _ => None
               end
           | _ => None
           end
       | _ => None
       end.

(** Does the turn at [st] end the header of a start tag with [>], so that
    an element is open after it? *)
Definition opens_element (st : State) : bool :=
  match header_byte st with
  | Some x => byte_eqb x ">"
  | None => false
  end.

(** How many of the first [n] turns open an element. *)
Fixpoint opened (n : nat) (st : State) : Z :=
  match n with
  | O => 0
  | S n' =>
      match step st with
      | Continue st' => one_if (opens_element st) + opened n' st'
      | _ => 0
      end
  end.

(** How many of the first [n] turns scan an end tag. *)
Fixpoint closed (n : nat) (st : State) : Z :=
  match n with
  | O => 0
  | S n' =>
      match step st with
      | Continue st' => one_if (at_end_tag st) + closed n' st'
      | _ => 0
      end
  end.

(** ** The range of [int] *)

(** [INT_MAX] where [int] has 32 bits. *)
Definition INT_MAX : Z := 2147483647.

(** What the scan has counted, the depth taken without its sign. *)
Definition weight (v : Locals) : Z := counted v + Z.abs (depth v).

(** Every byte read so far is counted at most once or is still in the
    window. *)
Definition Accounted (st : State) : Prop :=
  weight (locals st) + Z.max 0 (cursorEnd st - cursor st)
  <= totalBytes (locals st).

(** What a branch adds to the weight is covered by what it takes from the
    window [[c, e)]. *)
Definition covered (v v' : Locals) (c c' e : Z) : Prop :=
  weight v' - weight v <= c' - c /\ weight v' - weight v <= e - c.

(** The variables of a state are in the range of [int], none below 0 but
    [depth], and together they are covered by the bytes read. *)
Definition in_int_range (bytes_in : Z) (v : Locals) : Prop :=
  0 <= loc v <= textsize v
  /\ 0 <= exprCount v /\ 0 <= functionCount v /\ 0 <= classCount v
  /\ 0 <= unitCount v /\ 0 <= declCount v /\ 0 <= commentCount v
  /\ (isArchive v = true -> 1 <= unitCount v)
  /\ textsize v + exprCount v + functionCount v + classCount v + unitCount v
     + declCount v + commentCount v + Z.abs (depth v)
     <= totalBytes v
  /\ totalBytes v <= bytes_in
  /\ bytes_in <= INT_MAX.

(** The rows of a report: none is negative, LOC is at most Characters, and
    the counts together are at most the srcML bytes, which are at most the
    bytes of the stream. *)
Definition rows_in_range (bytes_in : Z) (r : Report) : Prop :=
  0 <= rep_LOC r <= rep_Characters r
  /\ 0 <= rep_Files r
  /\ 0 <= rep_Classes r /\ 0 <= rep_Functions r
  /\ 0 <= rep_Declarations r /\ 0 <= rep_Expressions r
  /\ 0 <= rep_Comments r
  /\ rep_Characters r + rep_Files r + rep_Classes r + rep_Functions r
     + rep_Declarations r + rep_Expressions r + rep_Comments r
     <= rep_srcML_bytes r
  /\ rep_srcML_bytes r <= bytes_in
  /\ bytes_in <= INT_MAX.

(** * Properties *)

(** ** Running longer *)

Lemma loop_more (fuel extra : nat) (st : State) :
  loop fuel st <> Running -> loop (fuel + extra) st = loop fuel st.
Proof.
  revert st; induction fuel as [|fuel IH]; intros st H.
  - now elim H.
  - cbn [Nat.add loop] in *. destruct (step st); auto.
Qed.

Lemma loop_agree (f1 f2 : nat) (st : State) :
  loop f1 st <> Running -> loop f2 st <> Running -> loop f1 st = loop f2 st.
Proof.
  intros H1 H2.
  rewrite <- (loop_more f1 f2 st H1), <- (loop_more f2 f1 st H2).
  now rewrite Nat.add_comm.
Qed.

Lemma scan_agree (cap : Z) (f1 f2 : nat) (src : Source) :
  scan cap f1 src <> Running -> scan cap f2 src <> Running ->
  scan cap f1 src = scan cap f2 src.
Proof. apply loop_agree. Qed.

Lemma main_agree (f1 f2 : nat) (src : Source) :
  main f1 src <> Running -> main f2 src <> Running -> main f1 src = main f2 src.
Proof. apply scan_agree. Qed.

(** ** The first scenario of the specification *)

Lemma scenario1_run :
  main 8 (whole scenario1)
  = Exit0 (mkLocals [] 0 0 1 0 0 1 0 0 0 43 false false false []
             (mkView 0 0) (mkView 0 0) false).
Proof. vm_compute. reflexivity. Qed.

(** C6, as the specification has it, does not hold: no run on the first
    scenario ends with a report whose "srcML bytes" row is 37. *)
Lemma scenario1_not_37_bytes :
  ~ (exists fuel v,
       main fuel (whole scenario1) = Exit0 v
       /\ report v = mkReport [] 37 0 1 0 0 0 0 1 0).
Proof.
  intros (fuel & v & Hrun & Hrep).
  assert (E : main fuel (whole scenario1) = main 8 (whole scenario1)).
  { apply main_agree.
    - rewrite Hrun. discriminate.
    - rewrite scenario1_run. discriminate. }
  rewrite Hrun, scenario1_run in E. injection E as E'. subst v.
  vm_compute in Hrep. discriminate.
Qed.

(** C6, amended: the scenario is 43 bytes long; on it the program returns 0
    and the rows of the report are srcML bytes = 43, Characters = 0,
    Files = 1, LOC = 0, Classes = 0, Functions = 0, Declarations = 0,
    Expressions = 1, Comments = 0; and every run that ends, ends so. *)
Theorem scenario1_report :
  size scenario1 = 43
  /\ (exists v, main 8 (whole scenario1) = Exit0 v
                /\ report v = mkReport [] 43 0 1 0 0 0 0 1 0)
  /\ (forall fuel, main fuel (whole scenario1) = Running
                   \/ main fuel (whole scenario1) = main 8 (whole scenario1)).
Proof.
  split; [reflexivity|]. split.
  - eexists. split; [apply scenario1_run | reflexivity].
  - intros fuel.
    destruct (main fuel (whole scenario1)) eqn:E; auto; right; rewrite <- E;
      apply main_agree; rewrite ?E, ?scenario1_run; discriminate.
Qed.

(** ** What the classifier looks at *)

(** C3, on the code: with a window of exactly the five bytes [<![CD] the
    chain of conditions is evaluated without a refill and [strncmp] goes on
    to [cursor[8]], four bytes past [cursorEnd]; what lies there is what an
    earlier read left, here [ATA[], so the CDATA branch is taken, advances
    the cursor by 9 past [cursorEnd] and calls [std::search] on an invalid
    range.  Given in one read the same document is scanned to the end. *)
Theorem classifier_reads_past_cursorEnd :
  (exists v, main 20 (whole cdata_document) = Exit0 v /\ textsize v = 13)
  /\ (exists st,
        after 4 (initial BUFFER_SIZE cdata_in_three_reads) = Some st
        /\ window (buffer st) (cursor st) (cursorEnd st) = bytes "<![CD"
        /\ classify (rd_of st) (cursor st) (locals st) = (CCDATA, 9)
        /\ cursorEnd st - cursor st < snd (classify (rd_of st) (cursor st) (locals st))
        /\ step st = Undefined)
  /\ main 20 cdata_in_three_reads = NoBehaviour.
Proof.
  split; [|split].
  - eexists. split; [vm_compute; reflexivity | reflexivity].
  - eexists. split; [vm_compute; reflexivity|].
    repeat split; vm_compute; reflexivity.
  - vm_compute. reflexivity.
Qed.

(** ** The remembered tag *)

(** C9, on the code: for the start tag [<unit a='b'/>], which has no
    prefix, the handler computes the local name [unit] and remembers the
    qualified name [unit] with an empty prefix view, but the local-name view
    starts at [prefix.size() + 1] and is [nit]. *)
Theorem remembered_local_name_loses_a_byte :
  exists st nm st',
    after 1 (initial BUFFER_SIZE (whole tag_with_attribute)) = Some st
    /\ construct_at st = CStartTag
    /\ tag_name (rd_of st) InvalidStartTagName UnterminatedStartTag
         EmptyStartTagName (cursor st + 1) (cursorEnd st) = Ok nm
    /\ tn_prefix nm = [] /\ tn_qName nm = bytes "unit"
    /\ tn_localName nm = bytes "unit"
    /\ step st = Continue st'
    /\ inTag (locals st') = true
    /\ inTagQName (locals st') = bytes "unit"
    /\ view_bytes (inTagQName (locals st')) (inTagPrefix (locals st')) = []
    /\ view_bytes (inTagQName (locals st')) (inTagLocalName (locals st')) = bytes "nit".
Proof.
  eexists. eexists. eexists.
  split; [vm_compute; reflexivity|].
  split; [vm_compute; reflexivity|].
  split; [vm_compute; reflexivity|].
  repeat split; vm_compute; reflexivity.
Qed.

(** ** Searching stays inside its range *)

Lemma find_from_bounds rd p first n :
  first <= find_from rd p first n <= first + Z.of_nat n.
Proof.
  revert first; induction n as [|n IH]; intros first; cbn [find_from].
  - lia.
  - destruct (p (rd first)); [lia|]. specialize (IH (first + 1)). lia.
Qed.

Lemma find_if_bounds rd p first last r :
  find_if rd p first last = Ok r -> first <= r <= last.
Proof.
  unfold find_if. destruct (last <? first) eqn:E; [discriminate|].
  intros [= <-]. apply Z.ltb_ge in E.
  pose proof (find_from_bounds rd p first (Z.to_nat (last - first))). lia.
Qed.

Lemma find_bounds rd x first last r :
  find rd x first last = Ok r -> first <= r <= last.
Proof. apply find_if_bounds. Qed.

Lemma find_if_not_bounds rd p first last r :
  find_if_not rd p first last = Ok r -> first <= r <= last.
Proof. apply find_if_bounds. Qed.

Lemma find_name_from_bounds rd first n r :
  find_name_from rd first n = Ok r -> first <= r <= first + Z.of_nat n.
Proof.
  revert first; induction n as [|n IH]; intros first; cbn [find_name_from].
  - intros [= <-]. lia.
  - destruct (tagNameMask (rd first)) as [[|]| |]; cbn [bind]; try discriminate.
    + intros H. apply IH in H. lia.
    + intros [= <-]. lia.
Qed.

Lemma find_name_end_bounds rd first last r :
  find_name_end rd first last = Ok r -> first <= r <= last.
Proof.
  unfold find_name_end. destruct (last <? first) eqn:E; [discriminate|].
  intros H. apply find_name_from_bounds in H. apply Z.ltb_ge in E. lia.
Qed.

Lemma search_from_bounds rd pat first last n :
  first + Z.of_nat n <= last ->
  first <= search_from rd pat first last n <= last.
Proof.
  revert first; induction n as [|n IH]; intros first Hn; cbn [search_from].
  - lia.
  - destruct (_ && _); [lia|]. specialize (IH (first + 1)). lia.
Qed.

Lemma search_bounds rd pat first last r :
  search rd pat first last = Ok r -> first <= r <= last.
Proof.
  unfold search. destruct (last <? first) eqn:E; [discriminate|].
  intros [= <-]. apply Z.ltb_ge in E. apply search_from_bounds. lia.
Qed.

Lemma size_view rd first len : 0 <= len -> size (view rd first len) = len.
Proof.
  unfold size, view. intros H.
  assert (G : forall n f, length (view_from rd f n) = n).
  { induction n; intros; cbn; auto. }
  rewrite G. lia.
Qed.

(** ** Two buffers that agree below a bound *)

Section Agreement.

Variables (rd1 rd2 : Z -> byte) (bound : Z).
Hypothesis same : agree bound rd1 rd2.

Lemma find_from_agree p first n :
  first + Z.of_nat n <= bound -> find_from rd1 p first n = find_from rd2 p first n.
Proof.
  revert first; induction n as [|n IH]; intros first H; cbn [find_from]; auto.
  rewrite same by lia. rewrite IH by lia. reflexivity.
Qed.

Lemma find_if_agree p first last :
  last <= bound -> find_if rd1 p first last = find_if rd2 p first last.
Proof.
  intros H. unfold find_if. destruct (last <? first) eqn:E; auto.
  apply Z.ltb_ge in E. rewrite find_from_agree by lia. reflexivity.
Qed.

Lemma find_agree x first last :
  last <= bound -> find rd1 x first last = find rd2 x first last.
Proof. apply find_if_agree. Qed.

Lemma find_if_not_agree p first last :
  last <= bound -> find_if_not rd1 p first last = find_if_not rd2 p first last.
Proof. apply find_if_agree. Qed.

Lemma find_name_from_agree first n :
  first + Z.of_nat n <= bound -> find_name_from rd1 first n = find_name_from rd2 first n.
Proof.
  revert first; induction n as [|n IH]; intros first H; cbn [find_name_from]; auto.
  rewrite same by lia. rewrite IH by lia. reflexivity.
Qed.

Lemma find_name_end_agree first last :
  last <= bound -> find_name_end rd1 first last = find_name_end rd2 first last.
Proof.
  intros H. unfold find_name_end. destruct (last <? first) eqn:E; auto.
  apply Z.ltb_ge in E. rewrite find_name_from_agree by lia. reflexivity.
Qed.

Lemma view_from_agree first n :
  first + Z.of_nat n <= bound -> view_from rd1 first n = view_from rd2 first n.
Proof.
  revert first; induction n as [|n IH]; intros first H; cbn [view_from]; auto.
  rewrite same by lia. rewrite IH by lia. reflexivity.
Qed.

Lemma view_agree first len :
  first + len <= bound -> view rd1 first len = view rd2 first len.
Proof.
  intros H. unfold view. destruct (Z.le_gt_cases len 0) as [L|L].
  - replace (Z.to_nat len) with O by lia. reflexivity.
  - apply view_from_agree. lia.
Qed.

Lemma matches_at_agree pat pos :
  pos + size pat <= bound -> matches_at rd1 pat pos = matches_at rd2 pat pos.
Proof.
  unfold size. revert pos; induction pat as [|x pat IH]; intros pos H;
    cbn [matches_at]; auto.
  cbn [length] in H. rewrite same by lia. rewrite IH by lia. reflexivity.
Qed.

Lemma search_from_agree pat first last n :
  last <= bound ->
  search_from rd1 pat first last n = search_from rd2 pat first last n.
Proof.
  intros Hl. revert first; induction n as [|n IH]; intros first;
    cbn [search_from]; auto.
  rewrite IH. destruct (first + Z.of_nat (length pat) <=? last) eqn:E; auto.
  apply Z.leb_le in E. cbn [andb].
  rewrite matches_at_agree by (unfold size; lia). reflexivity.
Qed.

Lemma search_agree pat first last :
  last <= bound -> search rd1 pat first last = search rd2 pat first last.
Proof.
  intros H. unfold search. destruct (last <? first); auto.
  rewrite search_from_agree by lia. reflexivity.
Qed.

Lemma strncmpL_agree c lit k :
  c + k + size lit <= bound -> strncmpL rd1 c lit k = strncmpL rd2 c lit k.
Proof.
  unfold size. revert k; induction lit as [|x lit IH]; intros k H;
    cbn [strncmpL]; auto.
  cbn [length] in H. rewrite same by lia. rewrite IH by lia. reflexivity.
Qed.

End Agreement.

(** ** The handlers read the window and at most three bytes after it *)

(** Turn the equation of a search that has succeeded into its bounds. *)
Ltac note_bounds E :=
  first [ apply find_bounds in E | apply find_if_not_bounds in E
        | apply find_name_end_bounds in E | apply search_bounds in E
        | apply find_if_bounds in E | idtac ].

(** Turn a comparison of positions that has been decided into a fact. *)
Ltac note_test E :=
  first [ apply Z.eqb_eq in E | apply Z.eqb_neq in E | idtac ].

(** Replace what the first way of reading gives by what the second gives,
    wherever the positions are known to be below the bound. *)
Ltac to_second Hag :=
  repeat first
    [ rewrite size_view by lia
    | rewrite (find_agree _ _ _ Hag) by lia
    | rewrite (find_if_not_agree _ _ _ Hag) by lia
    | rewrite (find_if_agree _ _ _ Hag) by lia
    | rewrite (find_name_end_agree _ _ _ Hag) by lia
    | rewrite (search_agree _ _ _ Hag) by lia
    | rewrite (view_agree _ _ _ Hag) by lia
    | match type of Hag with
      | agree _ ?rd1 _ =>
          match goal with |- context [rd1 ?x] => rewrite (Hag x) by lia end
      end ].

(** What a branch examines first. *)
Ltac head_of t :=
  lazymatch t with
  | bind ?m _ => head_of m
  | (if ?b then _ else _) => head_of b
  | match ?p with (_, _) => _ end => head_of p
  | negb ?b => head_of b
  | _ => t
  end.

(** Case analysis on it, keeping what the case says about positions. *)
Ltac split_head h :=
  let E := fresh "B" in
  lazymatch h with
  | Ok _ => fail
  | Err _ => fail
  | Undef => fail
  | true => fail
  | false => fail
  | (_, _) => fail
  | _ => idtac
  end;
  lazymatch type of h with
  | bool => destruct h eqn:E; note_test E
  | Res _ => destruct h eqn:E; [note_bounds E | |]
  | (_ * _)%type => destruct h
  end.

(** One step through the two sides of [h rd1 ... = h rd2 ...]. *)
Ltac agree_step Hag :=
  cbn [bind negb]; to_second Hag;
  lazymatch goal with
  | |- ?x = ?x => reflexivity
  | |- ?l = _ => let h := head_of l in split_head h
  end.

Lemma close_header_agree rd1 rd2 v c bound :
  agree bound rd1 rd2 -> c + 2 <= bound ->
  close_header rd1 v c = close_header rd2 v c.
Proof.
  intros Hag Hc. unfold close_header. rewrite !Hag by lia. reflexivity.
Qed.

Lemma parseNamespace_agree rd1 rd2 v c e :
  agree (e + 2) rd1 rd2 ->
  parseNamespace rd1 v c e = parseNamespace rd2 v c e.
Proof.
  intros Hag. unfold parseNamespace. cbv zeta.
  repeat agree_step Hag.
  all: cbn [bind]; f_equal; eapply close_header_agree; eauto; lia.
Qed.

(** Go back through a branch that has ended with [Ok]. *)
Ltac inv_ok :=
  repeat match goal with
  | H : Ok _ = Ok _ |- _ => injection H as H; subst
  | H : (_, _) = (_, _) |- _ => injection H as ? ?; subst
  | H : Err _ = Ok _ |- _ => discriminate H
  | H : Undef = Ok _ |- _ => discriminate H
  | H : bind ?m _ = Ok _ |- _ =>
      let E := fresh "B" in
      destruct m eqn:E; cbn [bind] in H; try discriminate H; note_bounds E
  | H : (if ?b then _ else _) = Ok _ |- _ =>
      let E := fresh "T" in destruct b eqn:E; try discriminate H; note_test E
  | H : match ?p with (_, _) => _ end = Ok _ |- _ => destruct p
  | H : find _ _ _ _ = Ok _ |- _ => apply find_bounds in H
  | H : find_if_not _ _ _ _ = Ok _ |- _ => apply find_if_not_bounds in H
  | H : find_if _ _ _ _ = Ok _ |- _ => apply find_if_bounds in H
  | H : find_name_end _ _ _ = Ok _ |- _ => apply find_name_end_bounds in H
  | H : search _ _ _ _ = Ok _ |- _ => apply search_bounds in H
  end.

Lemma attribute_parts_bounds rd c e l x valueEnd :
  attribute_parts rd c e = Ok (l, x, valueEnd) -> valueEnd < e.
Proof. unfold attribute_parts. cbv zeta. intros H. inv_ok. all: lia. Qed.

Lemma attribute_parts_agree rd1 rd2 c e :
  agree (e + 2) rd1 rd2 ->
  attribute_parts rd1 c e = attribute_parts rd2 c e.
Proof.
  intros Hag. unfold attribute_parts. cbv zeta.
  repeat agree_step Hag.
Qed.

Lemma parseAttribute_agree rd1 rd2 v c e :
  agree (e + 2) rd1 rd2 ->
  parseAttribute rd1 v c e = parseAttribute rd2 v c e.
Proof.
  intros Hag. unfold parseAttribute. cbv zeta.
  rewrite (attribute_parts_agree rd1 rd2 c e Hag).
  destruct (attribute_parts rd2 c e) as [[[l x] valueEnd]| |] eqn:B; cbn [bind]; auto.
  apply attribute_parts_bounds in B.
  repeat agree_step Hag.
  all: cbn [bind]; f_equal; eapply close_header_agree; eauto; lia.
Qed.

Lemma parseXMLComment_agree rd1 rd2 v c e :
  agree (e + 2) rd1 rd2 ->
  parseXMLComment rd1 v c e = parseXMLComment rd2 v c e.
Proof. intros Hag. unfold parseXMLComment. cbv zeta. repeat agree_step Hag. Qed.

Lemma parseCDATA_agree rd1 rd2 v c e :
  agree (e + 2) rd1 rd2 ->
  parseCDATA rd1 v c e = parseCDATA rd2 v c e.
Proof.
  intros Hag. unfold parseCDATA. cbv zeta. repeat agree_step Hag.
Qed.

Lemma declaration_attribute_bounds rd c t a valueEnd :
  declaration_attribute rd c t = Ok (a, valueEnd) -> valueEnd < t.
Proof. unfold declaration_attribute. cbv zeta. intros H. inv_ok. lia. Qed.

Lemma declaration_attribute_agree rd1 rd2 c t e :
  agree (e + 2) rd1 rd2 -> t < e ->
  declaration_attribute rd1 c t = declaration_attribute rd2 c t.
Proof.
  intros Hag Ht. unfold declaration_attribute. cbv zeta. repeat agree_step Hag.
Qed.

Lemma parseXMLDeclaration_agree rd1 rd2 v c e t :
  agree (e + 2) rd1 rd2 -> t < e ->
  parseXMLDeclaration rd1 v c e t = parseXMLDeclaration rd2 v c e t.
Proof.
  intros Hag Ht. unfold parseXMLDeclaration. cbv zeta.
  repeat first
    [ rewrite (declaration_attribute_agree rd1 rd2 _ t e Hag Ht)
    | agree_step Hag
    | match goal with
      | B : declaration_attribute _ _ _ = Ok _ |- _ =>
          apply declaration_attribute_bounds in B
      end ].
Qed.

Lemma parseProcessingInstruction_agree rd1 rd2 v c e t :
  agree (e + 2) rd1 rd2 -> t <= e ->
  parseProcessingInstruction rd1 v c t = parseProcessingInstruction rd2 v c t.
Proof.
  intros Hag Ht. unfold parseProcessingInstruction. cbv zeta.
  repeat agree_step Hag.
Qed.

Lemma tag_name_bounds rd i u m c e nm :
  tag_name rd i u m c e = Ok nm -> c <= tn_end nm <= e.
Proof. unfold tag_name. cbv zeta. intros H. inv_ok; cbn [tn_end]; lia. Qed.

Lemma tag_name_agree rd1 rd2 i u m c e :
  agree (e + 2) rd1 rd2 -> c <= e ->
  tag_name rd1 i u m c e = tag_name rd2 i u m c e.
Proof.
  intros Hag Hc. unfold tag_name. cbv zeta.
  repeat agree_step Hag.
Qed.

Lemma parseEndTag_agree rd1 rd2 v c e :
  agree (e + 2) rd1 rd2 -> c + 5 <= e ->
  parseEndTag rd1 v c e = parseEndTag rd2 v c e.
Proof.
  intros Hag Hc. unfold parseEndTag. cbv zeta.
  rewrite (tag_name_agree rd1 rd2 _ _ _ (c + 2) e Hag) by lia. reflexivity.
Qed.

Lemma parseStartTag_agree rd1 rd2 v c e :
  agree (e + 2) rd1 rd2 -> c + 5 <= e ->
  parseStartTag rd1 v c e = parseStartTag rd2 v c e.
Proof.
  intros Hag Hc. unfold parseStartTag. cbv zeta.
  rewrite (tag_name_agree rd1 rd2 _ _ _ (c + 1) e Hag) by lia.
  destruct (tag_name rd2 _ _ _ (c + 1) e) as [nm| |] eqn:B; cbn [bind]; auto.
  apply tag_name_bounds in B.
  repeat agree_step Hag.
Qed.

Lemma parseWhitespace_agree rd1 rd2 v c e :
  agree (e + 2) rd1 rd2 ->
  parseWhitespace rd1 v c e = parseWhitespace rd2 v c e.
Proof. intros Hag. unfold parseWhitespace. repeat agree_step Hag. Qed.

Lemma parseEntityReference_agree rd1 rd2 v c e :
  agree (e + 2) rd1 rd2 -> c + 5 <= e ->
  parseEntityReference rd1 v c = parseEntityReference rd2 v c.
Proof.
  intros Hag Hc. unfold parseEntityReference. rewrite !Hag by lia. reflexivity.
Qed.

Lemma parseCharacters_agree rd1 rd2 v c e :
  agree (e + 2) rd1 rd2 ->
  parseCharacters rd1 v c e = parseCharacters rd2 v c e.
Proof. intros Hag. unfold parseCharacters. cbv zeta. repeat agree_step Hag. Qed.

Lemma classify_agree rd1 rd2 v c e :
  agree (e + 4) rd1 rd2 -> c + 5 <= e ->
  classify rd1 c v = classify rd2 c v.
Proof.
  intros Hag Hc. unfold classify, at_.
  rewrite !(strncmpL_agree rd1 rd2 (e + 4) Hag) by (cbn; lia).
  rewrite !Hag by lia. reflexivity.
Qed.

(** ** Two runs that differ in the capacity only *)

Lemma byteAt_agree f cap1 cap2 bound :
  bound <= cap1 -> bound <= cap2 ->
  agree bound (byteAt (mkBuffer f cap1)) (byteAt (mkBuffer f cap2)).
Proof.
  intros H1 H2 i Hi. unfold byteAt. cbn [filled capacity].
  destruct (i <? 0); auto. destruct (i <? size f); auto.
  replace (i <? cap1) with true by (symmetry; apply Z.ltb_lt; lia).
  replace (i <? cap2) with true by (symmetry; apply Z.ltb_lt; lia).
  reflexivity.
Qed.

Lemma add_totalBytes_0 v : add_totalBytes 0 v = v.
Proof. destruct v. unfold add_totalBytes. cbn. f_equal. lia. Qed.

(** Refilling when the stream is over. *)
Lemma refill_exhausted v f cap c e :
  c <= e ->
  refill (mkState v (mkBuffer f cap) c e (mkSource [] []))
  = Ok (mkState v (mkBuffer (store f 0 (window (mkBuffer f cap) c e)) cap)
          cap cap (mkSource [] [])).
Proof.
  intros H. unfold refill, refillBuffer. cbn [cursor cursorEnd buffer stdin locals pending script capacity filled].
  replace (e <? c) with false by (symmetry; apply Z.ltb_ge; lia).
  cbn [read_retry]. rewrite firstn_nil, skipn_nil. cbn [bind r_ret r_cursor r_cursorEnd r_buffer r_stdin].
  cbn [Z.ltb Z.compare]. rewrite add_totalBytes_0. reflexivity.
Qed.

(** Refilling from the end of the buffer when the stream fits. *)
Lemma refill_at_end v f cap p :
  size p <= cap ->
  refill (mkState v (mkBuffer f cap) cap cap (mkSource p []))
  = Ok (match p with
        | [] => mkState v (mkBuffer f cap) cap cap (mkSource [] [])
        | _ => mkState (add_totalBytes (size p) v) (mkBuffer (store f 0 p) cap)
                 0 (size p) (mkSource [] [])
        end).
Proof.
  intros H. unfold refill, refillBuffer. cbn [cursor cursorEnd buffer stdin locals pending script capacity filled].
  rewrite Z.ltb_irrefl. unfold window. rewrite Z.sub_diag. cbn [view Z.to_nat view_from].
  replace (store f 0 []) with f by reflexivity.
  cbn [read_retry]. cbn [Z.add]. rewrite Z.sub_0_r.
  replace (Nat.min (Z.to_nat cap) (length p)) with (length p) by (unfold size in H; lia).
  rewrite firstn_all, skipn_all.
  destruct p as [|x p]; cbn [bind r_ret r_cursor r_cursorEnd r_buffer r_stdin].
  - cbn [Z.ltb Z.compare]. rewrite add_totalBytes_0. reflexivity.
  - replace (size (x :: p) <? 0) with false by (symmetry; apply Z.ltb_ge; unfold size; lia).
    reflexivity.
Qed.

Section Simulation.

Variables (v : Locals) (f : list byte) (c e cap1 cap2 : Z).
Hypothesis He : 0 <= e.
Hypothesis Hc : c + 5 <= e.
Hypothesis H1 : e + 4 <= cap1.
Hypothesis H2 : e + 4 <= cap2.

Let st1 := mkState v (mkBuffer f cap1) c e (mkSource [] []).
Let st2 := mkState v (mkBuffer f cap2) c e (mkSource [] []).

Lemma window_agree : agree (e + 4) (rd_of st1) (rd_of st2).
Proof. apply byteAt_agree; lia. Qed.

Lemma window_agree2 : agree (e + 2) (rd_of st1) (rd_of st2).
Proof. intros i Hi. apply window_agree. lia. Qed.

Lemma moved_related r : Related_res (Ok (moved st1 r)) (Ok (moved st2 r)).
Proof. destruct r. unfold moved, st1, st2. cbn. constructor; lia. Qed.

Lemma pure_related (h : (Z -> byte) -> Res (Locals * Z)) :
  h (rd_of st1) = h (rd_of st2) ->
  Related_res (r <- h (rd_of st1) ;; Ok (moved st1 r))
              (r <- h (rd_of st2) ;; Ok (moved st2 r)).
Proof.
  intros ->. destruct (h (rd_of st2)); cbn [bind Related_res]; auto.
  apply moved_related.
Qed.

(** A search that has to refill fails, the stream being over. *)
Lemma ensure_related (look : (Z -> byte) -> Z -> Z -> Res Z) incomplete :
  (forall rd1 rd2 bound first last,
      agree bound rd1 rd2 -> last <= bound ->
      look rd1 first last = look rd2 first last) ->
  (forall rd first last r, look rd first last = Ok r -> first <= r <= last) ->
  (forall rd x, look rd x x = Ok x) ->
  (exists t, ensure look incomplete st1 = Ok (st1, t)
             /\ ensure look incomplete st2 = Ok (st2, t) /\ c <= t < e)
  \/ (exists x, ensure look incomplete st1 = Err x /\ ensure look incomplete st2 = Err x)
  \/ (ensure look incomplete st1 = Undef /\ ensure look incomplete st2 = Undef).
Proof.
  intros Hag Hb Hx. unfold ensure.
  rewrite (Hag (rd_of st1) (rd_of st2) (e + 2) (cursor st1) (cursorEnd st1)
             window_agree2) by (cbn; lia).
  change (cursor st1) with c. change (cursor st2) with c.
  change (cursorEnd st1) with e. change (cursorEnd st2) with e.
  destruct (look (rd_of st2) c e) as [t| |] eqn:B; cbn [bind].
  - apply Hb in B. destruct (t =? e) eqn:T.
    + right; left. exists incomplete. unfold st1, st2.
      rewrite !refill_exhausted by lia. cbn [bind cursor cursorEnd].
      rewrite !Hx. cbn [bind]. rewrite !Z.eqb_refl. split; reflexivity.
    + left. exists t. apply Z.eqb_neq in T. repeat split; lia.
  - right; left. eauto.
  - right; right. eauto.
Qed.

Lemma find_empty rd x pos : find rd x pos pos = Ok pos.
Proof.
  unfold find, find_if. rewrite Z.ltb_irrefl, Z.sub_diag. reflexivity.
Qed.

Lemma search_empty rd pat pos : search rd pat pos pos = Ok pos.
Proof.
  unfold search. rewrite Z.ltb_irrefl, Z.sub_diag. reflexivity.
Qed.

Lemma ensure_within_related limit incomplete :
  (ensure_within limit incomplete st1 = Ok st1
   /\ ensure_within limit incomplete st2 = Ok st2)
  \/ (exists x, ensure_within limit incomplete st1 = Err x
                /\ ensure_within limit incomplete st2 = Err x)
  \/ (ensure_within limit incomplete st1 = Undef
      /\ ensure_within limit incomplete st2 = Undef).
Proof.
  unfold ensure_within. change (cursorEnd st1 - cursor st1) with (e - c).
  change (cursorEnd st2 - cursor st2) with (e - c).
  destruct (e - c <? limit); [|auto].
  destruct (ensure_related (fun rd => find rd ">") incomplete)
    as [(t & -> & -> & _)|[(x & -> & ->)|[-> ->]]]; cbn [bind fst]; eauto.
  - intros. apply (find_agree _ _ bound); auto.
  - intros rd first last r. apply find_bounds.
  - intros. apply find_empty.
Qed.

Lemma handle_related k :
  Related_res (handle k st1) (handle k st2).
Proof.
  pose proof window_agree2 as Hag.
  destruct k; unfold handle.
  - apply (pure_related (fun rd => parseNamespace rd v c e)).
    now apply parseNamespace_agree.
  - apply (pure_related (fun rd => parseAttribute rd v c e)).
    now apply parseAttribute_agree.
  - apply (pure_related (fun rd => parseXMLComment rd v c e)).
    now apply parseXMLComment_agree.
  - apply (pure_related (fun rd => parseCDATA rd v c e)).
    now apply parseCDATA_agree.
  - destruct (ensure_related (fun rd => find rd ">") IncompleteXMLDeclaration)
      as [(t & -> & -> & Ht)|[(x & -> & ->)|[-> ->]]]; cbn [bind Related_res]; auto.
    + intros. apply (find_agree _ _ bound); auto.
    + intros rd first last r. apply find_bounds.
    + intros. apply find_empty.
    + apply (pure_related (fun rd => parseXMLDeclaration rd v c e t)).
      apply parseXMLDeclaration_agree; auto; lia.
  - destruct (ensure_related (fun rd => search rd (bytes "?>"))
                IncompleteProcessingInstruction)
      as [(t & -> & -> & Ht)|[(x & -> & ->)|[-> ->]]]; cbn [bind Related_res]; auto.
    + intros. apply (search_agree _ _ bound); auto.
    + intros rd first last r. apply search_bounds.
    + intros. apply search_empty.
    + apply (pure_related (fun rd => parseProcessingInstruction rd v c t)).
      apply (parseProcessingInstruction_agree _ _ _ _ e); auto; lia.
  - destruct (ensure_within_related 100 IncompleteEndTag)
      as [[-> ->]|[(x & -> & ->)|[-> ->]]]; cbn [bind Related_res]; auto.
    apply (pure_related (fun rd => parseEndTag rd v c e)).
    now apply parseEndTag_agree.
  - destruct (ensure_within_related 200 IncompleteStartTag)
      as [[-> ->]|[(x & -> & ->)|[-> ->]]]; cbn [bind Related_res]; auto.
    apply (pure_related (fun rd => parseStartTag rd v c e)).
    now apply parseStartTag_agree.
  - apply (pure_related (fun rd => parseWhitespace rd v c e)).
    now apply parseWhitespace_agree.
  - change (Related_res
              (Ok (moved st1 (parseEntityReference (rd_of st1) v c)))
              (Ok (moved st2 (parseEntityReference (rd_of st2) v c)))).
    rewrite (parseEntityReference_agree _ _ v c e Hag Hc). apply moved_related.
  - apply (pure_related (fun rd => parseCharacters rd v c e)).
    now apply parseCharacters_agree.
Qed.

Lemma construct_related : construct_at st1 = construct_at st2.
Proof.
  unfold construct_at. f_equal.
  apply (classify_agree _ _ v c e window_agree Hc).
Qed.

End Simulation.

Lemma step_related st1 st2 :
  Related st1 st2 -> Related_outcome (step st1) (step st2).
Proof.
  intros [v f c e cap1 cap2 He H1 H2 | v f p cap1 cap2 H1 H2]; unfold step;
    cbn [cursor cursorEnd].
  - destruct (e - c <? 5) eqn:D.
    + destruct (Z.le_gt_cases c e) as [L|L].
      * rewrite !refill_exhausted by lia. cbn [locals cursor cursorEnd].
        rewrite !Z.eqb_refl.
        replace (window (mkBuffer f cap1) c e) with (window (mkBuffer f cap2) c e).
        2:{ unfold window. symmetry. apply (view_agree _ _ (e + 4)).
            apply byteAt_agree; lia. lia. }
        destruct (_ && _); cbn; auto.
        constructor; cbn; unfold size; cbn; lia.
      * unfold refill, refillBuffer. cbn [cursor cursorEnd].
        replace (e <? c) with true by (symmetry; apply Z.ltb_lt; lia).
        cbn. exact I.
    + apply Z.ltb_ge in D.
      rewrite (construct_related v f c e cap1 cap2) by lia.
      pose proof (handle_related v f c e cap1 cap2 He ltac:(lia) H1 H2
                    (construct_at (mkState v (mkBuffer f cap2) c e (mkSource [] [])))) as R.
      destruct (handle _ (mkState v (mkBuffer f cap1) c e _)),
               (handle _ (mkState v (mkBuffer f cap2) c e _)); cbn in R |- *; auto.
  - rewrite !Z.sub_diag. cbn [Z.ltb Z.compare].
    rewrite !refill_at_end by lia.
    destruct p as [|x p]; cbn [locals cursor cursorEnd].
    + rewrite !Z.eqb_refl. destruct (_ && _); cbn; auto. constructor; auto.
    + replace (0 =? size (x :: p)) with false
        by (symmetry; apply Z.eqb_neq; unfold size; cbn [length]; lia).
      rewrite !andb_false_r. cbn [Related_outcome]. apply rel_window; unfold size in *; lia.
Qed.

Lemma loop_related fuel st1 st2 :
  Related st1 st2 -> loop fuel st1 = loop fuel st2.
Proof.
  revert st1 st2; induction fuel as [|fuel IH]; intros st1 st2 R; cbn [loop]; auto.
  apply step_related in R.
  destruct (step st1), (step st2); cbn in R; try contradiction; auto.
  - now f_equal.
  - now f_equal.
Qed.

Lemma capacity_irrelevant input cap1 cap2 fuel :
  size input + 4 <= cap1 -> size input + 4 <= cap2 ->
  scan cap1 fuel (whole input) = scan cap2 fuel (whole input).
Proof.
  intros H1 H2. unfold scan, initial, whole. apply loop_related.
  now constructor.
Qed.

(** ** Where the window ends matters *)

Lemma after_loop n fuel st st' :
  after n st = Some st' -> loop (n + fuel) st = loop fuel st'.
Proof.
  revert st; induction n as [|n IH]; intros st; cbn [after Nat.add loop].
  - now intros [= ->].
  - destruct (step st); try discriminate. apply IH.
Qed.

Lemma loop_stuck st fuel : step st = Continue st -> loop fuel st = Running.
Proof. intros H. induction fuel; cbn [loop]; auto. now rewrite H. Qed.

Lemma loop_never n st st' :
  after n st = Some st' -> step st' = Continue st' ->
  forall fuel, loop fuel st = Running.
Proof.
  intros Ha Hs fuel.
  destruct (loop fuel st) eqn:E; auto; exfalso;
    assert (D : loop fuel st <> Running) by (rewrite E; discriminate);
    pose proof (loop_more fuel n st D) as M;
    rewrite Nat.add_comm, (after_loop n fuel st st' Ha), (loop_stuck st' fuel Hs) in M;
    congruence.
Qed.

(** The 79 bytes of [unit_header] are scanned to the end by the program,
    but not with a buffer of 64 bytes, and not when they come 16 at a time. *)
Lemma unit_header_runs :
  (exists v, main 20 (whole unit_header) = Exit0 v)
  /\ scan 64 20 (whole unit_header) = Exit1 IncompleteStartTag
  /\ (exists v, scan BUFFER_SIZE 20 (whole unit_header) = Exit0 v)
  /\ main 20 (mkSource unit_header [Deliver 15; Deliver 15]) = Exit1 IncompleteStartTag.
Proof.
  split; [eexists; vm_compute; reflexivity|].
  split; [vm_compute; reflexivity|].
  split; [eexists; vm_compute; reflexivity|].
  vm_compute; reflexivity.
Qed.

(** When the first read ends after the first '-' of [-->], the comment is
    never left and the program does not return. *)
Lemma commented_runs :
  (exists v, main 20 (whole commented) = Exit0 v)
  /\ forall fuel, main fuel (mkSource commented [Deliver 21]) = Running.
Proof.
  split; [eexists; vm_compute; reflexivity|].
  intros fuel. unfold main, scan.
  eapply (loop_never 6); [vm_compute; reflexivity | vm_compute; reflexivity].
Qed.

(** C1, on the code: the comment and the CDATA branch go on over several
    windows, [inXMLComment] and [inCDATA] carrying them from one to the
    next, but where the terminator is not in the window they take the
    whole window, the first bytes of a terminator at its end included.  So
    a terminator that a read cuts in two is missed.  The document
    [two_comments] given whole has two expressions; with a first read of
    15 bytes, which ends after the two hyphens of the first terminator, the
    scan goes on to the end of the second comment and counts one, the exit
    code being 0 both times.  The same cut in the terminator of a CDATA
    section makes 18 characters of 2.  And the document [commented], cut
    after the first hyphen of its terminator, never leaves the comment: the
    program does not return. *)
Theorem terminator_cut_by_a_read_is_missed :
  (exists v, main 30 (whole two_comments) = Exit0 v /\ exprCount v = 2)
  /\ (exists v, main 30 (mkSource two_comments [Deliver 14]) = Exit0 v
                /\ exprCount v = 1)
  /\ (exists v, main 30 (whole two_cdata_sections) = Exit0 v /\ textsize v = 2)
  /\ (exists v, main 30 (mkSource two_cdata_sections [Deliver 14]) = Exit0 v
                /\ textsize v = 18)
  /\ (exists v, main 20 (whole commented) = Exit0 v)
  /\ forall fuel, main fuel (mkSource commented [Deliver 21]) = Running.
Proof.
  split; [eexists; split; [vm_compute; reflexivity|reflexivity]|].
  split; [eexists; split; [vm_compute; reflexivity|reflexivity]|].
  split; [eexists; split; [vm_compute; reflexivity|reflexivity]|].
  split; [eexists; split; [vm_compute; reflexivity|reflexivity]|].
  exact commented_runs.
Qed.

(** The outcome depends on the capacity and on the reads also where no
    terminator is cut: by design a tag must fit in the window after one
    refill at most, so the 79 bytes of [unit_header] are refused in a
    buffer of 64 bytes and in reads of 16 (the first two parts; the third
    is the comment that is never left). *)
Lemma boundaries_matter :
  ~ (forall input cap1 cap2 fuel1 fuel2,
        0 < cap1 -> 0 < cap2 ->
        scan cap1 fuel1 (whole input) <> Running ->
        scan cap2 fuel2 (whole input) <> Running ->
        exit_code (scan cap1 fuel1 (whole input))
        = exit_code (scan cap2 fuel2 (whole input)))
  /\ ~ (forall input more fuel1 fuel2,
        main fuel1 (whole input) <> Running ->
        main fuel2 (mkSource input [Deliver more; Deliver more]) <> Running ->
        exit_code (main fuel1 (whole input))
        = exit_code (main fuel2 (mkSource input [Deliver more; Deliver more])))
  /\ ~ (forall input more fuel1,
        main fuel1 (whole input) <> Running ->
        exists fuel2, main fuel2 (mkSource input [Deliver more]) <> Running).
Proof.
  destruct unit_header_runs as ((v & Hv) & H64 & (v' & Hv') & H16).
  destruct commented_runs as ((w & Hw) & Hnever).
  split; [|split].
  - intros H.
    pose proof (H unit_header 64 BUFFER_SIZE 20%nat 20%nat) as E.
    rewrite H64, Hv' in E. clear - E.
    assert (X : Some 1 = Some 0).
    { apply E; [reflexivity | reflexivity | intros Y; discriminate Y
               | intros Y; discriminate Y]. }
    discriminate X.
  - intros H. pose proof (H unit_header 15%nat 20%nat 20%nat) as E.
    rewrite Hv, H16 in E. clear - E.
    assert (X : Some 0 = Some 1).
    { apply E; intros Y; discriminate Y. }
    discriminate X.
  - intros H. pose proof (H commented 21%nat 20%nat) as E.
    rewrite Hw in E. destruct E as (fuel2 & E); [intros Y; discriminate Y|].
    apply E, Hnever.
Qed.

(** X16: when the whole input comes with the first read and each of the
    two capacities exceeds its length by at least 4, the two scans go the
    same way turn by turn: the same final variables and the same exit
    code, whatever fuel each run is given. *)
Theorem capacity_independence input cap1 cap2 :
  size input + 4 <= cap1 -> size input + 4 <= cap2 ->
  (forall fuel, scan cap1 fuel (whole input) = scan cap2 fuel (whole input))
  /\ (forall fuel1 fuel2,
        scan cap1 fuel1 (whole input) <> Running ->
        scan cap2 fuel2 (whole input) <> Running ->
        scan cap1 fuel1 (whole input) = scan cap2 fuel2 (whole input)).
Proof.
  intros H1 H2. split.
  - intros fuel. now apply capacity_irrelevant.
  - intros fuel1 fuel2 R1 R2.
    rewrite (capacity_irrelevant input cap1 cap2 fuel1 H1 H2) in *.
    now apply scan_agree.
Qed.

Lemma capacity_independence_witness :
  scan 64 8 (whole scenario1) = scan BUFFER_SIZE 8 (whole scenario1).
Proof.
  refine (proj1 (capacity_independence scenario1 64 BUFFER_SIZE _ _) 8%nat);
    vm_compute; discriminate.
Defined.

(** ** refillBuffer and the window *)

Lemma view_from_middle cap pre l rest :
  view_from (byteAt (mkBuffer (pre ++ l ++ rest) cap)) (size pre) (length l) = l.
Proof.
  revert pre; induction l as [|x l IH]; intros pre; cbn [view_from length]; auto.
  f_equal.
  - unfold byteAt, size. cbn [filled].
    replace (Z.of_nat (length pre) <? 0) with false by (symmetry; apply Z.ltb_ge; lia).
    replace (Z.of_nat (length pre) <? Z.of_nat (length (pre ++ (x :: l) ++ rest)))
      with true
      by (symmetry; apply Z.ltb_lt; rewrite length_app; cbn [length app]; lia).
    rewrite Nat2Z.id. apply nth_middle.
  - specialize (IH (pre ++ [x])).
    replace (size (pre ++ [x])) with (size pre + 1) in IH
      by (unfold size; rewrite length_app; cbn [length]; lia).
    rewrite <- app_assoc in IH. exact IH.
Qed.

Lemma window_prefix cap l rest :
  window (mkBuffer (l ++ rest) cap) 0 (size l) = l.
Proof.
  unfold window, view. rewrite Z.sub_0_r. unfold size. rewrite Nat2Z.id.
  apply (view_from_middle cap [] l rest).
Qed.

Lemma length_window b c e : length (window b c e) = Z.to_nat (e - c).
Proof.
  unfold window, view. generalize (Z.to_nat (e - c)) as n. intros n; revert c.
  induction n; intros; cbn [view_from length]; auto.
Qed.

Lemma store_shift f w : store f 0 w = w ++ skipn (length w) f.
Proof. reflexivity. Qed.

Lemma store_append w rest bs :
  store (w ++ rest) (length w) bs
  = (w ++ bs) ++ skipn (length w + length bs) (w ++ rest).
Proof.
  unfold store. rewrite <- app_assoc, firstn_app, firstn_all, Nat.sub_diag.
  cbn [firstn]. rewrite app_nil_r, <- app_assoc. reflexivity.
Qed.

(** C2, as the specification has it, does not hold: at the end of the
    stream a call with the unconsumed bytes [abc] leaves an empty window. *)
Lemma refill_at_end_of_file_empties_the_window : ~ keeps_the_window.
Proof.
  intros H.
  destruct (H 0 3 (mkBuffer (bytes "abc") 8) (whole []) _ ltac:(lia) ltac:(cbn; lia) eq_refl)
    as (new & _ & E).
  vm_compute in E. destruct new; discriminate E.
Qed.

(** C2, amended: a call with [cursor <= cursorEnd] inside the buffer
    returns the number of bytes that the read gave, and 0 exactly when it
    gave none.  When it gave some, the window afterwards is the unconsumed
    bytes followed by the new ones; when it gave none, [cursor] and
    [cursorEnd] are both the end of the buffer and the window is empty, the
    unconsumed bytes being left out of it; when it failed, the call returns
    -1 and the window is the unconsumed bytes. *)
Theorem refillBuffer_window c e b src :
  0 <= c <= e -> e <= capacity b ->
  exists r, refillBuffer c e b src = Ok r /\ refilled_as_read c e b src r.
Proof.
  intros Hc He. unfold refilled_as_read, refillBuffer.
  replace (e <? c) with false by (symmetry; apply Z.ltb_ge; lia).
  cbv zeta. rewrite Z.add_0_l.
  pose proof (length_window b c e) as Hw.
  set (w := window b c e) in *.
  assert (Sw : size w = e - c) by (unfold size; lia).
  destruct (read_retry _ _ _) as [[new|] src'].
  - destruct new as [|x new]; eexists; (split; [reflexivity|]);
      cbn [r_ret r_stdin r_cursor r_cursorEnd r_buffer].
    + repeat split; auto; try discriminate; try congruence.
      unfold window. rewrite Z.sub_diag. reflexivity.
    + repeat split; auto; try discriminate.
      rewrite store_shift.
      replace (Z.to_nat (e - c)) with (length w) by lia.
      rewrite store_append.
      replace (e - c + size (x :: new)) with (size (w ++ x :: new))
        by (unfold size in *; rewrite length_app; lia).
      apply window_prefix.
  - eexists; split; [reflexivity|].
    cbn [r_ret r_stdin r_cursor r_cursorEnd r_buffer].
    repeat split; auto.
    rewrite store_shift, <- Sw. apply window_prefix.
Qed.

Lemma refillBuffer_window_witness :
  exists r,
    refillBuffer 0 3 (mkBuffer (bytes "abc") 8) (whole (bytes "de")) = Ok r
    /\ refilled_as_read 0 3 (mkBuffer (bytes "abc") 8) (whole (bytes "de")) r.
Proof.
  exact (refillBuffer_window 0 3 (mkBuffer (bytes "abc") 8) (whole (bytes "de"))
           ltac:(lia) ltac:(cbn; lia)).
Defined.

(** ** Entity references *)

Lemma byte_eqb_eq a b : byte_eqb a b = true <-> a = b.
Proof. apply Ascii.eqb_eq. Qed.

Lemma fst_andL a b : fst (andL a b) = fst a && fst b.
Proof. unfold andL. destruct (fst a); reflexivity. Qed.

Lemma fst_orL a b : fst (orL a b) = fst a || fst b.
Proof. unfold orL. destruct (fst a); reflexivity. Qed.

Lemma fst_first_match c k rest d :
  fst (first_match ((c, k) :: rest) d)
  = if fst c then k else fst (first_match rest d).
Proof. cbn [first_match]. destruct (fst c); reflexivity. Qed.

Lemma construct_at_ampersand st :
  inTag (locals st) = false -> inXMLComment (locals st) = false ->
  inCDATA (locals st) = false -> depth (locals st) <> 0 ->
  rd_of st (cursor st) = "&" ->
  construct_at st = CEntityReference.
Proof.
  intros HT HC HD Hd Ha. unfold construct_at, classify.
  repeat first [rewrite fst_first_match | rewrite fst_andL | rewrite fst_orL].
  unfold at_, flag. cbn [fst].
  rewrite HT, HC, HD, !Z.add_0_r, Ha.
  replace (depth (locals st) =? 0) with false by (symmetry; now apply Z.eqb_neq).
  change (byte_eqb "&" "<") with false. change (byte_eqb "&" "&") with true.
  rewrite !andb_false_r. reflexivity.
Qed.

Lemma parseEntityReference_length rd v c :
  rd c = "&" ->
  parseEntityReference rd v c = (add_text 1 0 v, c + reference_length rd c).
Proof.
  intros Ha. unfold parseEntityReference, reference_length.
  change (view rd c 4) with [rd c; rd (c + 1); rd (c + 1 + 1); rd (c + 1 + 1 + 1)].
  change (view rd c 5)
    with [rd c; rd (c + 1); rd (c + 1 + 1); rd (c + 1 + 1 + 1); rd (c + 1 + 1 + 1 + 1)].
  rewrite Ha, <- !Z.add_assoc. cbn [Z.add Pos.add Pos.succ].
  cbn [bytes list_ascii_of_string bytes_eqb].
  change (byte_eqb "&" "&") with true. cbn [andb].
  rewrite !andb_true_r, !andb_assoc.
  destruct (byte_eqb (rd (c + 1)) "l" && byte_eqb (rd (c + 2)) "t"
            && byte_eqb (rd (c + 3)) ";"); [reflexivity|].
  destruct (byte_eqb (rd (c + 1)) "g" && byte_eqb (rd (c + 2)) "t"
            && byte_eqb (rd (c + 3)) ";"); [reflexivity|].
  destruct (byte_eqb (rd (c + 1)) "a" && byte_eqb (rd (c + 2)) "m"
            && byte_eqb (rd (c + 3)) "p" && byte_eqb (rd (c + 4)) ";"); reflexivity.
Qed.

(** C7: where an ampersand stands in text, the turn of the loop takes the
    entity-reference branch; it moves the cursor past [&lt;], [&gt;] or
    [&amp;] when one of the three stands there and past the ampersand alone
    otherwise, adds 1 to [textsize], and changes nothing else, [loc]
    included. *)
Theorem entity_reference_step st :
  5 <= cursorEnd st - cursor st ->
  inTag (locals st) = false -> inXMLComment (locals st) = false ->
  inCDATA (locals st) = false -> depth (locals st) <> 0 ->
  rd_of st (cursor st) = "&" ->
  exists st',
    step st = Continue st'
    /\ construct_at st = CEntityReference
    /\ cursor st' = cursor st + reference_length (rd_of st) (cursor st)
    /\ textsize (locals st') = textsize (locals st) + 1
    /\ loc (locals st') = loc (locals st)
    /\ locals st' = add_text 1 0 (locals st)
    /\ buffer st' = buffer st /\ cursorEnd st' = cursorEnd st
    /\ stdin st' = stdin st.
Proof.
  intros Hw HT HC HD Hd Ha. unfold step.
  replace (cursorEnd st - cursor st <? 5) with false
    by (symmetry; apply Z.ltb_ge; lia).
  rewrite (construct_at_ampersand st HT HC HD Hd Ha). cbn [handle].
  rewrite (parseEntityReference_length _ _ _ Ha).
  eexists. split; [reflexivity|]. cbn.
  repeat split; try reflexivity. lia.
Qed.

Lemma entity_reference_step_witness :
  exists st',
    step in_text = Continue st'
    /\ construct_at in_text = CEntityReference
    /\ cursor st' = cursor in_text + reference_length (rd_of in_text) (cursor in_text)
    /\ textsize (locals st') = textsize (locals in_text) + 1
    /\ loc (locals st') = loc (locals in_text)
    /\ locals st' = add_text 1 0 (locals in_text)
    /\ buffer st' = buffer in_text /\ cursorEnd st' = cursorEnd in_text
    /\ stdin st' = stdin in_text.
Proof.
  refine (entity_reference_step in_text _ _ _ _ _ _);
    vm_compute; try reflexivity; discriminate.
Defined.

(** ** Streams shorter than five bytes *)

Lemma read_retry_delivers count pend scr :
  Forall delivers scr -> (0 < count)%nat ->
  exists n scr',
    read_retry count pend scr = (ReadBytes (firstn n pend), mkSource (skipn n pend) scr')
    /\ (n <= length pend)%nat /\ (pend <> [] -> (0 < n)%nat)
    /\ Forall delivers scr'.
Proof.
  intros Hs Hc. induction Hs as [|ev scr Hev Hs IH]; cbn [read_retry].
  - eexists _, _. split; [reflexivity|].
    repeat split; auto; [lia|]. destruct pend; [congruence|cbn [length]; lia].
  - destruct ev as [more| |].
    + eexists _, _. split; [reflexivity|].
      repeat split; auto; [lia|]. destruct pend; [congruence|cbn [length]; lia].
    + exact IH.
    + now elim Hev.
Qed.

Lemma add_totalBytes_add a b v :
  add_totalBytes b (add_totalBytes a v) = add_totalBytes (a + b) v.
Proof. unfold add_totalBytes. cbn. f_equal. lia. Qed.

Lemma loop_short m : forall st fuel,
  length (pending (stdin st)) = m ->
  Forall delivers (script (stdin st)) ->
  inXMLComment (locals st) = false -> inCDATA (locals st) = false ->
  0 <= cursorEnd st - cursor st ->
  cursorEnd st - cursor st + Z.of_nat m < 5 ->
  5 <= capacity (buffer st) ->
  (m < fuel)%nat ->
  loop fuel st = Exit0 (add_totalBytes (Z.of_nat m) (locals st)).
Proof.
  induction m as [m IH] using lt_wf_ind.
  intros [v b c e [pend scr]] fuel Hm Hs HC HD Hw Hlt Hcap Hf.
  cbn [stdin pending script locals cursor cursorEnd buffer] in *.
  destruct fuel as [|fuel]; [lia|]. cbn [loop]. unfold step.
  cbn [cursor cursorEnd].
  replace (e - c <? 5) with true by (symmetry; apply Z.ltb_lt; lia).
  unfold refill, refillBuffer. cbn [cursor cursorEnd buffer stdin pending script locals].
  replace (e <? c) with false by (symmetry; apply Z.ltb_ge; lia).
  cbv zeta.
  destruct (read_retry_delivers (Z.to_nat (capacity b - (0 + (e - c)))) pend scr Hs
              ltac:(lia)) as (n & scr' & -> & Hn & Hpos & Hs').
  destruct (firstn n pend) as [|x bs] eqn:F.
  - (* nothing read: the end of the stream *)
    cbn [bind r_ret r_cursor r_cursorEnd r_buffer r_stdin Z.ltb Z.compare locals
         cursor cursorEnd inXMLComment inCDATA add_totalBytes].
    rewrite HC, HD, Z.eqb_refl. cbn [negb andb locals].
    assert (E0 : m = 0%nat).
    { destruct pend as [|y pend]; [cbn in Hm; lia|].
      specialize (Hpos ltac:(discriminate)). destruct n; [lia|discriminate F]. }
    rewrite E0. reflexivity.
  - cbn [bind r_ret r_cursor r_cursorEnd r_buffer r_stdin].
    assert (Hlen : length (x :: bs) = n).
    { rewrite <- F. rewrite length_firstn. lia. }
    replace (size (x :: bs) <? 0) with false
      by (symmetry; apply Z.ltb_ge; unfold size; lia).
    cbn [locals cursor cursorEnd inXMLComment inCDATA add_totalBytes].
    rewrite HC, HD. cbn [negb andb].
    replace (0 =? 0 + (e - c) + size (x :: bs)) with false
      by (symmetry; apply Z.eqb_neq; unfold size; cbn [length]; lia).
    rewrite (IH (m - n)%nat); cbn [stdin pending script locals cursor cursorEnd buffer
                                    capacity inXMLComment inCDATA]; auto.
    + fold (add_totalBytes (size (x :: bs)) v). rewrite add_totalBytes_add.
      f_equal. f_equal. unfold size. lia.
    + cbn [length] in Hlen. lia.
    + rewrite length_skipn. lia.
    + unfold size. lia.
    + unfold size. lia.
    + cbn [length] in Hlen. lia.
Qed.

Lemma scan_short cap input scr fuel :
  5 <= cap -> size input < 5 -> Forall delivers scr -> (5 <= fuel)%nat ->
  scan cap fuel (mkSource input scr)
  = Exit0 (add_totalBytes (size input) initial_locals).
Proof.
  intros Hcap Hin Hs Hf. unfold scan, size in *.
  apply (loop_short (length input)); cbn [initial stdin pending script locals
    cursor cursorEnd buffer capacity initial_locals inXMLComment inCDATA]; auto; lia.
Qed.

(** C10: a stream of fewer than five bytes, however the reads cut it and
    provided none of them fails, makes the program return 0 after at most
    five turns of the loop, without a construct being parsed: [totalBytes]
    is the length of the stream and every other row of the report is 0,
    with an empty URL. *)
Theorem short_stream input scr fuel :
  size input < 5 -> Forall delivers scr -> (5 <= fuel)%nat ->
  exists v,
    main fuel (mkSource input scr) = Exit0 v
    /\ v = add_totalBytes (size input) initial_locals
    /\ report v = mkReport [] (size input) 0 0 0 0 0 0 0 0.
Proof.
  intros Hin Hs Hf. eexists. split; [|split; [reflexivity|]].
  - unfold main. apply scan_short; auto. unfold BUFFER_SIZE. lia.
  - reflexivity.
Qed.

Lemma short_stream_witness :
  exists v,
    main 5 (mkSource (bytes "<a/>") [Deliver 0; Interrupted; Deliver 1]) = Exit0 v
    /\ v = add_totalBytes (size (bytes "<a/>")) initial_locals
    /\ report v = mkReport [] (size (bytes "<a/>")) 0 0 0 0 0 0 0 0.
Proof.
  refine (short_stream (bytes "<a/>") [Deliver 0; Interrupted; Deliver 1] 5 _ _ _).
  - reflexivity.
  - repeat constructor; discriminate.
  - apply le_n.
Defined.

(** ** What a turn of the loop does to [url], [isArchive] and [depth] *)

Lemma quiet_refl v : quiet v v.
Proof. split; reflexivity. Qed.

Lemma close_header_effect rd v c v' c' :
  close_header rd v c = (v', c') ->
  quiet v v' /\ depth v <= depth v' <= depth v + 1.
Proof.
  unfold close_header, quiet. intros H.
  destruct (byte_eqb (rd c) ">"); [|destruct (_ && _)]; injection H as <- <-;
    cbn; repeat split; try reflexivity; lia.
Qed.

Lemma parseNamespace_effect rd v c e v' c' :
  parseNamespace rd v c e = Ok (v', c') ->
  quiet v v' /\ depth v <= depth v' <= depth v + 1.
Proof.
  unfold parseNamespace. cbv zeta. intros H. inv_ok.
  all: match goal with H : close_header _ _ _ = _ |- _ =>
         apply close_header_effect in H; exact H end.
Qed.

Lemma parseAttribute_effect rd v c e v' c' :
  parseAttribute rd v c e = Ok (v', c') ->
  exists localName value valueEnd,
    attribute_parts rd c e = Ok (localName, value, valueEnd)
    /\ url v' = (if bytes_eqb localName (bytes "url") then value else url v)
    /\ isArchive v' = isArchive v
    /\ depth v <= depth v' <= depth v + 1.
Proof.
  unfold parseAttribute. cbv zeta. intros H.
  destruct (attribute_parts rd c e) as [[[l x] ve]| |]; cbn [bind] in H;
    try discriminate H.
  exists l, x, ve. split; [reflexivity|].
  set (b := bytes_eqb l (bytes "url")) in *.
  inv_ok.
  all: match goal with H : close_header _ _ _ = _ |- _ =>
         apply close_header_effect in H; destruct H as ((U & A) & D) end.
  all: rewrite U, A; destruct b; cbn in *; repeat split; try reflexivity; lia.
Qed.

Lemma parseXMLComment_effect rd v c e v' c' :
  parseXMLComment rd v c e = Ok (v', c') -> quiet v v' /\ depth v' = depth v.
Proof.
  unfold parseXMLComment. cbv zeta. intros H. inv_ok;
    (split; [split|]; reflexivity).
Qed.

Lemma parseCDATA_effect rd v c e v' c' :
  parseCDATA rd v c e = Ok (v', c') -> quiet v v' /\ depth v' = depth v.
Proof.
  unfold parseCDATA. cbv zeta. intros H. inv_ok;
    (split; [split|]; reflexivity).
Qed.

Lemma parseXMLDeclaration_effect rd v c e t v' c' :
  parseXMLDeclaration rd v c e t = Ok (v', c') -> v' = v.
Proof.
  unfold parseXMLDeclaration. cbv zeta. intros H. inv_ok; reflexivity.
Qed.

Lemma parseProcessingInstruction_effect rd v c t v' c' :
  parseProcessingInstruction rd v c t = Ok (v', c') -> v' = v.
Proof.
  unfold parseProcessingInstruction. cbv zeta. intros H. inv_ok; reflexivity.
Qed.

Lemma parseEndTag_effect rd v c e v' c' :
  parseEndTag rd v c e = Ok (v', c') -> quiet v v' /\ depth v' = depth v - 1.
Proof.
  unfold parseEndTag. cbv zeta. intros H. inv_ok.
  split; [split|]; reflexivity.
Qed.

Lemma bytes_eqb_eq a b : bytes_eqb a b = true <-> a = b.
Proof.
  revert b; induction a as [|x a IH]; intros [|y b]; cbn [bytes_eqb];
    split; try discriminate; auto.
  - intros H. apply andb_prop in H as [H1 H2].
    apply Ascii.eqb_eq in H1. apply IH in H2. congruence.
  - intros [= -> ->]. apply andb_true_intro. split.
    + apply Ascii.eqb_refl.
    + now apply IH.
Qed.

Lemma count_element_effect l v :
  url (count_element l v) = url v
  /\ depth (count_element l v) = depth v
  /\ isArchive (count_element l v)
     = (isArchive v || (bytes_eqb l (bytes "unit") && (depth v =? 1))).
Proof.
  unfold count_element.
  destruct (bytes_eqb l (bytes "unit")) eqn:U.
  - apply bytes_eqb_eq in U. subst l. cbn. repeat split.
    destruct (depth v =? 1), (isArchive v); reflexivity.
  - repeat match goal with
    | |- context [if ?b then _ else _] => destruct b
    end; cbn; repeat split; rewrite ?orb_false_r; reflexivity.
Qed.

Lemma parseStartTag_effect rd v c e v' c' :
  parseStartTag rd v c e = Ok (v', c') ->
  exists nm,
    tag_name rd InvalidStartTagName UnterminatedStartTag EmptyStartTagName (c + 1) e
    = Ok nm
    /\ url v' = url v
    /\ isArchive v'
       = (isArchive v || (bytes_eqb (tn_localName nm) (bytes "unit") && (depth v =? 1)))
    /\ depth v <= depth v' <= depth v + 1.
Proof.
  unfold parseStartTag. cbv zeta. intros H.
  destruct (tag_name rd _ _ _ (c + 1) e) as [nm| |]; cbn [bind] in H;
    try discriminate H.
  exists nm. split; [reflexivity|].
  destruct (count_element_effect (tn_localName nm) v) as (U & D & A).
  set (w := count_element (tn_localName nm) v) in *.
  inv_ok; unfold remember_tag; cbn; rewrite ?U, ?D, ?A; repeat split;
    try reflexivity; lia.
Qed.

Lemma parseWhitespace_effect rd v c e v' c' :
  parseWhitespace rd v c e = Ok (v', c') -> v' = v.
Proof. unfold parseWhitespace. intros H. inv_ok; reflexivity. Qed.

Lemma parseCharacters_effect rd v c e v' c' :
  parseCharacters rd v c e = Ok (v', c') -> quiet v v' /\ depth v' = depth v.
Proof.
  unfold parseCharacters. cbv zeta. intros H. inv_ok.
  split; [split|]; reflexivity.
Qed.

Lemma refill_effect st st' :
  refill st = Ok st' -> exists n, locals st' = add_totalBytes n (locals st).
Proof.
  unfold refill. intros H. inv_ok. eexists. reflexivity.
Qed.

Lemma ensure_effect look incomplete st st' t :
  ensure look incomplete st = Ok (st', t) ->
  st' = st \/ exists n, locals st' = add_totalBytes n (locals st).
Proof.
  unfold ensure. intros H.
  destruct (look (rd_of st) (cursor st) (cursorEnd st)) as [t0| |];
    cbn [bind] in H; try discriminate H.
  destruct (t0 =? cursorEnd st).
  - destruct (refill st) as [st1| |] eqn:R; cbn [bind] in H; try discriminate H.
    apply refill_effect in R. inv_ok. now right.
  - inv_ok. now left.
Qed.

Lemma ensure_within_effect limit incomplete st st' :
  ensure_within limit incomplete st = Ok st' ->
  st' = st \/ exists n, locals st' = add_totalBytes n (locals st).
Proof.
  unfold ensure_within. intros H.
  destruct (cursorEnd st - cursor st <? limit); [|inv_ok; now left].
  destruct (ensure _ incomplete st) as [[st1 t]| |] eqn:E; cbn [bind] in H;
    try discriminate H.
  apply ensure_effect in E. inv_ok. exact E.
Qed.

(** The two ways [ensure] can have succeeded. *)
Ltac ensured H :=
  first [apply ensure_effect in H | apply ensure_within_effect in H];
  destruct H as [->|(? & H)].

Lemma handle_effect k st st' :
  handle k st = Ok st' ->
  url_after k st st' /\ isArchive_after k st st' /\ depth_after k st st'.
Proof.
  destruct st as [v b c e src]. unfold handle, rd_of.
  cbn [locals buffer cursor cursorEnd stdin]. intros H.
  destruct k; unfold url_after, isArchive_after, depth_after, rd_of;
    cbn [locals buffer cursor cursorEnd stdin].
  - destruct (parseNamespace _ v c e) as [[v1 c1]| |] eqn:P; inv_ok.
    apply parseNamespace_effect in P as ((U & A) & D). cbn. auto.
  - destruct (parseAttribute _ v c e) as [[v1 c1]| |] eqn:P; inv_ok.
    apply parseAttribute_effect in P as (l & x & ve & -> & U & A & D). cbn.
    split; [|auto]. eauto.
  - destruct (parseXMLComment _ v c e) as [[v1 c1]| |] eqn:P; inv_ok.
    apply parseXMLComment_effect in P as ((U & A) & D). cbn. repeat split; auto; lia.
  - destruct (parseCDATA _ v c e) as [[v1 c1]| |] eqn:P; inv_ok.
    apply parseCDATA_effect in P as ((U & A) & D). cbn. repeat split; auto; lia.
  - destruct (ensure _ _ _) as [[st1 t]| |] eqn:E; cbn [bind] in H; try discriminate H.
    destruct (parseXMLDeclaration _ _ _ _ _) as [[v1 c1]| |] eqn:P; inv_ok.
    apply parseXMLDeclaration_effect in P. subst v1. cbn.
    ensured E; cbn; try rewrite E; cbn; repeat split; auto; lia.
  - destruct (ensure _ _ _) as [[st1 t]| |] eqn:E; cbn [bind] in H; try discriminate H.
    destruct (parseProcessingInstruction _ _ _ _) as [[v1 c1]| |] eqn:P; inv_ok.
    apply parseProcessingInstruction_effect in P. subst v1. cbn.
    ensured E; cbn; try rewrite E; cbn; repeat split; auto; lia.
  - destruct (ensure_within _ _ _) as [st1| |] eqn:E; cbn [bind] in H; try discriminate H.
    destruct (parseEndTag _ _ _ _) as [[v1 c1]| |] eqn:P; inv_ok.
    apply parseEndTag_effect in P as ((U & A) & D). cbn. rewrite U, A, D.
    ensured E; cbn; try rewrite E; cbn; repeat split; auto; lia.
  - destruct (ensure_within _ _ _) as [st1| |] eqn:E; cbn [bind] in H; try discriminate H.
    destruct (parseStartTag _ _ _ _) as [[v1 c1]| |] eqn:P; inv_ok.
    apply parseStartTag_effect in P as (nm & T & U & A & D). cbn.
    split; [|split].
    + rewrite U. ensured E; cbn; try rewrite E; reflexivity.
    + exists st1, nm. split; [reflexivity|]. split; [exact T|].
      rewrite A. ensured E; cbn; try rewrite E; reflexivity.
    + ensured E; cbn in *; try rewrite E in *; cbn in *; lia.
  - destruct (parseWhitespace _ v c e) as [[v1 c1]| |] eqn:P; inv_ok.
    apply parseWhitespace_effect in P. subst v1. cbn. repeat split; auto; lia.
  - inv_ok. unfold parseEntityReference. cbn. repeat split; auto; lia.
  - destruct (parseCharacters _ v c e) as [[v1 c1]| |] eqn:P; inv_ok.
    apply parseCharacters_effect in P as ((U & A) & D). cbn. repeat split; auto; lia.
Qed.

Lemma step_effect st st' :
  step st = Continue st' \/ step st = Break st' ->
  if cursorEnd st - cursor st <? 5
  then exists n, locals st' = add_totalBytes n (locals st)
  else handle (construct_at st) st = Ok st'.
Proof.
  unfold step. destruct (cursorEnd st - cursor st <? 5).
  - destruct (refill st) as [st1| |] eqn:R.
    + apply refill_effect in R.
      destruct (_ && _); intros [[= <-]|[= <-]]; exact R.
    + intros [|]; discriminate.
    + intros [|]; discriminate.
  - destruct (handle _ st); intros [H|H]; try discriminate H.
    now injection H as ->.
Qed.

(** ** The document URL *)

Lemma url_step st st' :
  step st = Continue st' \/ step st = Break st' ->
  url (locals st')
  = match url_attribute st with Some x => x | None => url (locals st) end.
Proof.
  intros H. apply step_effect in H. unfold url_attribute.
  destruct (cursorEnd st - cursor st <? 5).
  - destruct H as (n & ->). reflexivity.
  - apply handle_effect in H as (U & _ & _).
    destruct (construct_at st); cbn [url_after] in U; auto.
    destruct U as (l & x & ve & -> & U). rewrite U.
    destruct (bytes_eqb l (bytes "url")); reflexivity.
Qed.

Lemma last_nonempty {A} l : forall y d d' : A, last (y :: l) d = last (y :: l) d'.
Proof.
  induction l as [|z l IH]; intros y d d'; [reflexivity|].
  change (last (z :: l) d = last (z :: l) d'). apply IH.
Qed.

Lemma last_cons {A} (x d : A) l : last (x :: l) d = last l x.
Proof.
  destruct l as [|y l]; [reflexivity|].
  change (last (y :: l) d = last (y :: l) x). apply last_nonempty.
Qed.

Lemma loop_url fuel : forall st v,
  loop fuel st = Exit0 v ->
  url v = last (url_values fuel st) (url (locals st)).
Proof.
  induction fuel as [|fuel IH]; intros st v; cbn [loop url_values];
    [discriminate|].
  destruct (step st) as [st'|st'| |] eqn:S; try discriminate.
  - intros H. apply IH in H. rewrite H.
    rewrite (url_step st st' (or_introl S)).
    destruct (url_attribute st); [rewrite last_cons|]; reflexivity.
  - intros [= <-]. rewrite (url_step st st' (or_intror S)).
    unfold url_attribute, step in *.
    destruct (cursorEnd st - cursor st <? 5); [reflexivity|].
    destruct (handle _ st); discriminate.
Qed.

Lemma two_urls_run :
  exists v,
    main 20 (whole two_urls) = Exit0 v
    /\ rep_url (report v) = bytes "b"
    /\ url_values 20 (initial BUFFER_SIZE (whole two_urls)) = [bytes "a"; bytes "b"].
Proof.
  eexists. split; [vm_compute; reflexivity|].
  split; vm_compute; reflexivity.
Qed.

(** C8, as the specification has it, does not hold: with two [url]
    attributes the report carries the second value. *)
Lemma reported_url_is_not_the_first :
  ~ (forall src fuel v,
        main fuel src = Exit0 v ->
        rep_url (report v) = hd [] (url_values fuel (initial BUFFER_SIZE src))).
Proof.
  intros H. destruct two_urls_run as (v & Hv & Hu & Hvals).
  pose proof (H _ _ _ Hv) as E. rewrite Hu, Hvals in E. clear - E.
  discriminate E.
Qed.

(** C8, amended: every attribute whose local name is [url] overwrites the
    document URL, and nothing else changes it, so that the URL of the
    report is the value of the last such attribute parsed, and is empty
    when there is none. *)
Theorem reported_url_is_the_last fuel src v :
  main fuel src = Exit0 v ->
  rep_url (report v) = last (url_values fuel (initial BUFFER_SIZE src)) [].
Proof. intros H. apply loop_url in H. exact H. Qed.

Lemma reported_url_is_the_last_witness :
  exists v,
    main 20 (whole two_urls) = Exit0 v
    /\ rep_url (report v)
       = last (url_values 20 (initial BUFFER_SIZE (whole two_urls))) [].
Proof.
  refine (let H := _ : main 20 (whole two_urls) = Exit0 _ in
          ex_intro _ _ (conj H (reported_url_is_the_last 20 (whole two_urls) _ H))).
  vm_compute. reflexivity.
Defined.

(** ** Archives *)

Lemma isArchive_step st st' :
  step st = Continue st' \/ step st = Break st' ->
  isArchive (locals st')
  = (isArchive (locals st) || (unit_start_tag st && (depth (locals st) =? 1))).
Proof.
  intros H. apply step_effect in H. unfold unit_start_tag.
  destruct (cursorEnd st - cursor st <? 5).
  - destruct H as (n & ->). cbn. now rewrite orb_false_r.
  - apply handle_effect in H as (_ & A & _).
    destruct (construct_at st); cbn [isArchive_after] in A;
      rewrite ?A, ?orb_false_r; auto.
    destruct A as (st1 & nm & -> & -> & A). exact A.
Qed.

Lemma loop_isArchive fuel : forall st v,
  loop fuel st = Exit0 v ->
  isArchive v = (isArchive (locals st) || unit_seen_at_depth_1 fuel st).
Proof.
  induction fuel as [|fuel IH]; intros st v; cbn [loop unit_seen_at_depth_1];
    [discriminate|].
  destruct (step st) as [st'|st'| |] eqn:S; try discriminate.
  - intros H. apply IH in H. rewrite H, (isArchive_step st st' (or_introl S)).
    now rewrite orb_assoc.
  - intros [= <-]. rewrite (isArchive_step st st' (or_intror S)).
    unfold unit_start_tag, step in *.
    destruct (cursorEnd st - cursor st <? 5); [reflexivity|].
    destruct (handle _ st); discriminate.
Qed.

Lemma after_ended n m st : after n st = None -> after (n + m) st = None.
Proof.
  revert st; induction n as [|n IH]; intros st; cbn [after Nat.add];
    [discriminate|].
  destruct (step st); auto.
Qed.

Lemma archive_runs :
  (exists v, main 20 (whole self_closing_nested_unit) = Exit0 v
             /\ isArchive v = true /\ unitCount v = 2 /\ files v = 1)
  /\ (exists v, main 20 (whole unit_inside_other) = Exit0 v
                /\ isArchive v = true /\ unitCount v = 1 /\ files v = 0).
Proof.
  split; eexists; (split; [vm_compute; reflexivity|]); repeat split.
Qed.

(** C5, as the specification has it, does not hold: [isArchive] is set by
    a nested [<unit/>], which is self-closing (the turn that scans it
    neither raises [depth] nor leaves the header open), and it is set when
    the outermost element is not [unit]. *)
Lemma isArchive_without_an_open_nested_unit :
  ~ (forall src fuel v,
        main fuel src = Exit0 v -> isArchive v = true ->
        exists n st st',
          after n (initial BUFFER_SIZE src) = Some st
          /\ step st = Continue st'
          /\ unit_start_tag st = true /\ depth (locals st) = 1
          /\ (depth (locals st') = 2 \/ inTag (locals st') = true))
  /\ ~ (forall src fuel v,
        main fuel src = Exit0 v -> isArchive v = true ->
        exists st, after 1 (initial BUFFER_SIZE src) = Some st
                   /\ unit_start_tag st = true).
Proof.
  destruct archive_runs as ((v & Hv & Ha & _) & (w & Hw & Hb & _)).
  split.
  - intros H.
    destruct (H _ _ _ Hv Ha) as (n & st & st' & Hn & Hs & Hu & Hd & Ho).
    clear - Hn Hs Hu Hd Ho.
    do 6 (destruct n as [|n];
          [ vm_compute in Hn;
            first [ discriminate Hn
                  | injection Hn as <-;
                    vm_compute in Hu; try discriminate Hu;
                    vm_compute in Hd; try discriminate Hd;
                    vm_compute in Hs; injection Hs as <-;
                    destruct Ho as [Ho|Ho]; vm_compute in Ho; discriminate Ho ] |]).
    assert (E : after (6 + n) (initial BUFFER_SIZE (whole self_closing_nested_unit))
                = None) by (apply after_ended; vm_compute; reflexivity).
    change (6 + n)%nat with (S (S (S (S (S (S n)))))) in E.
    rewrite E in Hn. discriminate Hn.
  - intros H. destruct (H _ _ _ Hw Hb) as (st & Hn & Hu).
    clear - Hn Hu. vm_compute in Hn. injection Hn as <-.
    vm_compute in Hu. discriminate Hu.
Qed.

(** C5, amended: [isArchive] is true at the end exactly when some turn has
    scanned a start tag whose local name is [unit] while [depth] was 1,
    whether that tag is self-closing or not and whatever the outermost
    element is; the Files row is [unitCount - 1] when [isArchive] is true
    and [unitCount] otherwise. *)
Theorem isArchive_and_files fuel src v :
  main fuel src = Exit0 v ->
  isArchive v = unit_seen_at_depth_1 fuel (initial BUFFER_SIZE src)
  /\ rep_Files (report v) = (if isArchive v then unitCount v - 1 else unitCount v).
Proof.
  intros H. split; [|reflexivity].
  apply loop_isArchive in H. exact H.
Qed.

Lemma isArchive_and_files_witness :
  exists v,
    main 20 (whole self_closing_nested_unit) = Exit0 v
    /\ isArchive v
       = unit_seen_at_depth_1 20 (initial BUFFER_SIZE (whole self_closing_nested_unit))
    /\ rep_Files (report v) = (if isArchive v then unitCount v - 1 else unitCount v).
Proof.
  refine (let H := _ : main 20 (whole self_closing_nested_unit) = Exit0 _ in
          ex_intro _ _
            (conj H (isArchive_and_files 20 (whole self_closing_nested_unit) _ H))).
  vm_compute. reflexivity.
Defined.

(** ** The depth *)

Lemma depth_step st st' :
  step st = Continue st' \/ step st = Break st' ->
  if at_end_tag st
  then depth (locals st') = depth (locals st) - 1
  else depth (locals st) <= depth (locals st') <= depth (locals st) + 1.
Proof.
  intros H. apply step_effect in H. unfold at_end_tag.
  destruct (cursorEnd st - cursor st <? 5).
  - destruct H as (n & ->). cbn. lia.
  - apply handle_effect in H as (_ & _ & D).
    destruct (construct_at st); exact D.
Qed.

(** C4, as the specification has it, does not hold: an end tag that no
    start tag precedes takes [depth] to -1. *)
Lemma depth_can_be_negative :
  ~ (forall src n st,
        after n (initial BUFFER_SIZE src) = Some st -> 0 <= depth (locals st)).
Proof.
  intros H.
  assert (E : exists st, after 2 (initial BUFFER_SIZE (whole stray_end_tag)) = Some st
                         /\ depth (locals st) = -1).
  { eexists. split; [vm_compute; reflexivity | reflexivity]. }
  destruct E as (st & Hs & Hd). apply H in Hs. rewrite Hd in Hs. clear - Hs. lia.
Qed.

(** ** The name-character table, entry by entry *)

(** X1: the table of name characters, entry by entry: a byte below 128 is
    accepted exactly when it is a letter, a digit, [-], [.] or [_], so the
    colon is not; a byte of 128 or more is no subscript of the bitset. *)
Lemma tagNameMask_table c :
  tagNameMask c = if code c <? 128 then Ok (name_char c) else Undef.
Proof.
  destruct c as [[] [] [] [] [] [] [] []]; vm_compute; reflexivity.
Qed.

Lemma view_from_app rd c a b :
  view_from rd c (length (a ++ b)) = a ++ b ->
  view_from rd c (length a) = a /\ view_from rd (c + size a) (length b) = b.
Proof.
  revert c; induction a as [|x a IH]; intros c; cbn [app length view_from].
  - unfold size. cbn [length]. rewrite Z.add_0_r. auto.
  - intros [= Hx H]. apply IH in H as [H1 H2]. split.
    + now rewrite Hx, H1.
    + replace (c + size (x :: a)) with (c + 1 + size a)
        by (unfold size; cbn [length]; lia).
      exact H2.
Qed.

Lemma find_name_from_run rd s : forall c n x,
  all_name s = true -> tagNameMask x = Ok false ->
  view_from rd c (length (s ++ [x])) = s ++ [x] ->
  (length s < n)%nat ->
  find_name_from rd c n = Ok (c + size s).
Proof.
  induction s as [|y s IH]; intros c n x Hs Hx Hv Hn.
  - destruct n as [|n]; [inversion Hn|]. cbn [app length view_from] in Hv.
    injection Hv as Hv. cbn [find_name_from]. rewrite Hv, Hx. cbn [bind].
    unfold size. cbn [length]. now rewrite Z.add_0_r.
  - destruct n as [|n]; [inversion Hn|]. cbn [app length view_from] in Hv.
    injection Hv as Hy Hv. cbn [all_name forallb] in Hs.
    apply andb_prop in Hs as [Hy' Hs]. cbn [find_name_from]. rewrite Hy.
    destruct (tagNameMask y) as [[|]| |]; try discriminate Hy'. cbn [bind].
    rewrite (IH (c + 1) n x); auto.
    + f_equal. unfold size. cbn [length]. lia.
    + cbn [length] in Hn. lia.
Qed.

Lemma find_name_from_names rd : forall n c r,
  find_name_from rd c n = Ok r ->
  all_name (view_from rd c (Z.to_nat (r - c))) = true.
Proof.
  induction n as [|n IH]; intros c r; cbn [find_name_from].
  - intros [= <-]. now rewrite Z.sub_diag.
  - destruct (tagNameMask (rd c)) as [[|]| |] eqn:T; cbn [bind]; try discriminate.
    + intros H. pose proof (find_name_from_bounds _ _ _ _ H) as B.
      apply IH in H.
      replace (Z.to_nat (r - c)) with (S (Z.to_nat (r - (c + 1)))) by lia.
      cbn [view_from all_name forallb]. rewrite T. exact H.
    + intros [= <-]. now rewrite Z.sub_diag.
Qed.

Lemma all_name_no_colon s : all_name s = true -> find_colon s = None.
Proof.
  induction s as [|x s IH]; cbn [all_name forallb find_colon]; auto.
  intros H. apply andb_prop in H as [Hx Hs].
  destruct (byte_eqb x ":") eqn:E.
  - apply Ascii.eqb_eq in E. subst x. discriminate Hx.
  - now rewrite (IH Hs).
Qed.

(** ** Where a diagnostic comes from *)

Lemma find_if_no_error rd p first last x : find_if rd p first last <> Err x.
Proof. unfold find_if. destruct (last <? first); discriminate. Qed.

Lemma find_no_error rd y first last x : find rd y first last <> Err x.
Proof. apply find_if_no_error. Qed.

Lemma find_if_not_no_error rd p first last x :
  find_if_not rd p first last <> Err x.
Proof. apply find_if_no_error. Qed.

Lemma search_no_error rd pat first last x : search rd pat first last <> Err x.
Proof. unfold search. destruct (last <? first); discriminate. Qed.

Lemma find_name_end_no_error rd first last x :
  find_name_end rd first last <> Err x.
Proof.
  unfold find_name_end. destruct (last <? first); [discriminate|].
  generalize (Z.to_nat (last - first)) as n. intros n; revert first.
  induction n as [|n IH]; intros first; cbn [find_name_from]; [discriminate|].
  rewrite tagNameMask_table. destruct (code (rd first) <? 128); cbn [bind];
    [|discriminate].
  destruct (name_char (rd first)); [apply IH|discriminate].
Qed.

(** Go back through a branch that has ended with a diagnostic. *)
Ltac inv_err :=
  repeat match goal with
  | H : Ok _ = Err _ |- _ => discriminate H
  | H : Undef = Err _ |- _ => discriminate H
  | H : Err _ = Err _ |- _ => injection H as H; subst
  | H : find _ _ _ _ = Err _ |- _ => now apply find_no_error in H
  | H : find_if_not _ _ _ _ = Err _ |- _ => now apply find_if_not_no_error in H
  | H : find_if _ _ _ _ = Err _ |- _ => now apply find_if_no_error in H
  | H : search _ _ _ _ = Err _ |- _ => now apply search_no_error in H
  | H : find_name_end _ _ _ = Err _ |- _ => now apply find_name_end_no_error in H
  | H : bind ?m _ = Err _ |- _ =>
      let E := fresh "B" in destruct m eqn:E; cbn [bind] in H
  | H : (if ?b then _ else _) = Err _ |- _ =>
      let E := fresh "T" in destruct b eqn:E
  | H : match ?p with (_, _) => _ end = Err _ |- _ => destruct p
  end.

Lemma attribute_parts_never_invalid rd c e x :
  attribute_parts rd c e = Err x -> never_issued x.
Proof.
  unfold attribute_parts. cbv zeta.
  destruct (find_name_end rd c e) as [nameEnd| |] eqn:N; cbn [bind];
    try discriminate; [|now apply find_name_end_no_error in N].
  assert (C : find_colon (view rd c (nameEnd - c)) = None).
  { apply all_name_no_colon. unfold find_name_end in N.
    destruct (e <? c); [discriminate|].
    apply find_name_from_names in N. exact N. }
  rewrite C. intros H. inv_err; repeat split; discriminate.
Qed.

Lemma read_retry_error count pend scr src :
  read_retry count pend scr = (ReadError, src) -> In Failure scr.
Proof.
  induction scr as [|ev scr IH]; cbn [read_retry]; [discriminate|].
  destruct ev as [more| |]; [discriminate| |]; intros H.
  - right. now apply IH.
  - now left.
Qed.

(** A refill ends with a diagnostic only when a read has failed. *)
Lemma refill_error st x :
  refill st = Err x -> x = FileInputError /\ In Failure (script (stdin st)).
Proof.
  unfold refill, refillBuffer. intros H.
  destruct (cursorEnd st <? cursor st); [discriminate H|].
  cbv zeta in H. destruct (read_retry _ _ _) as [[[|y bs]|] src'] eqn:R;
    cbn [bind r_ret] in H.
  - discriminate H.
  - unfold size in H. cbn [length] in H.
    replace (Z.of_nat (S (length bs)) <? 0) with false in H
      by (symmetry; apply Z.ltb_ge; lia).
    discriminate H.
  - cbn [Z.ltb Z.compare] in H. injection H as <-.
    split; [reflexivity|]. now apply read_retry_error in R.
Qed.

Lemma ensure_error look incomplete st x :
  (forall rd first last y, look rd first last <> Err y) ->
  ensure look incomplete st = Err x ->
  x = incomplete \/ (x = FileInputError /\ In Failure (script (stdin st))).
Proof.
  intros Hl. unfold ensure. intros H.
  destruct (look (rd_of st) (cursor st) (cursorEnd st)) as [t| |] eqn:L;
    cbn [bind] in H; try discriminate H; [|now apply Hl in L].
  destruct (t =? cursorEnd st); [|discriminate H].
  destruct (refill st) as [st1| |] eqn:R; cbn [bind] in H; try discriminate H.
  - destruct (look (rd_of st1) (cursor st1) (cursorEnd st1)) as [t1| |] eqn:L1;
      cbn [bind] in H; try discriminate H; [|now apply Hl in L1].
    destruct (t1 =? cursorEnd st1); [|discriminate H].
    injection H as <-. now left.
  - injection H as <-. right. now apply refill_error in R.
Qed.

Lemma ensure_within_error limit incomplete st x :
  ensure_within limit incomplete st = Err x ->
  x = incomplete \/ (x = FileInputError /\ In Failure (script (stdin st))).
Proof.
  unfold ensure_within. destruct (_ <? limit); [|discriminate].
  destruct (ensure _ incomplete st) as [r| |] eqn:E; cbn [bind]; try discriminate.
  intros [= <-]. apply ensure_error in E; auto.
  intros rd first last y. apply find_no_error.
Qed.

Ltac issued := split; [repeat split; discriminate|discriminate].

Ltac issued_by E :=
  destruct E as [->|(-> & E)]; [issued|split; [repeat split; discriminate|auto]].

Lemma step_error st x : step st = Return1 x -> diagnosed st x.
Proof.
  unfold step. destruct (cursorEnd st - cursor st <? 5) eqn:D.
  - destruct (refill st) as [st1|y|] eqn:R; try discriminate.
    + destruct (_ && _); discriminate.
    + intros [= ->]. apply refill_error in R as (-> & R).
      split; [repeat split; discriminate|auto].
  - apply Z.ltb_ge in D.
    destruct (handle (construct_at st) st) as [st1|y|] eqn:H; try discriminate.
    intros [= ->]. revert H. generalize (construct_at st) as k.
    unfold diagnosed.
    destruct st as [v b c e src]. cbn [cursor cursorEnd stdin] in *.
    intros k H. destruct k; unfold handle in H;
      cbn [locals buffer cursor cursorEnd stdin] in H.
    + unfold parseNamespace in H. cbv zeta in H. inv_err; issued.
    + unfold parseAttribute in H. cbv zeta in H.
      destruct (attribute_parts _ c e) as [[[l y] ve]| |] eqn:A;
        cbn [bind] in H.
      * inv_err; issued.
      * injection H as <-. split; [now apply attribute_parts_never_invalid in A|].
        intros ->. revert A. unfold attribute_parts. cbv zeta. intros A.
        inv_err; discriminate.
      * discriminate H.
    + unfold parseXMLComment in H. cbv zeta in H.
      replace (c =? e) with false in H by (symmetry; apply Z.eqb_neq; lia).
      inv_err; issued.
    + unfold parseCDATA in H. cbv zeta in H.
      replace (c =? e) with false in H by (symmetry; apply Z.eqb_neq; lia).
      inv_err; issued.
    + destruct (ensure _ _ _) as [[st1 t]| |] eqn:E; cbn [bind] in H.
      * unfold parseXMLDeclaration, declaration_attribute in H. cbv zeta in H.
        inv_err; issued.
      * injection H as <-. apply ensure_error in E; [issued_by E|].
        intros rd first last y. apply find_no_error.
      * discriminate H.
    + destruct (ensure _ _ _) as [[st1 t]| |] eqn:E; cbn [bind] in H.
      * unfold parseProcessingInstruction in H. cbv zeta in H. inv_err; issued.
      * injection H as <-. apply ensure_error in E; [issued_by E|].
        intros rd first last y. apply search_no_error.
      * discriminate H.
    + destruct (ensure_within _ _ _) as [st1| |] eqn:E; cbn [bind] in H.
      * unfold parseEndTag, tag_name in H. cbv zeta in H. inv_err; issued.
      * injection H as <-. apply ensure_within_error in E. issued_by E.
      * discriminate H.
    + destruct (ensure_within _ _ _) as [st1| |] eqn:E; cbn [bind] in H.
      * unfold parseStartTag, tag_name in H. cbv zeta in H. inv_err; issued.
      * injection H as <-. apply ensure_within_error in E. issued_by E.
      * discriminate H.
    + unfold parseWhitespace in H. inv_err.
    + discriminate H.
    + unfold parseCharacters in H. cbv zeta in H. inv_err.
Qed.

(** ** Names as they are written *)

Lemma view_app rd c a b :
  view rd c (size (a ++ b)) = a ++ b ->
  view rd c (size a) = a /\ view rd (c + size a) (size b) = b.
Proof.
  unfold view, size. rewrite !Nat2Z.id. apply view_from_app.
Qed.

Lemma find_name_end_run rd s c e x :
  all_name s = true -> tagNameMask x = Ok false ->
  view rd c (size (s ++ [x])) = s ++ [x] ->
  c + size s < e ->
  find_name_end rd c e = Ok (c + size s).
Proof.
  intros Hs Hx Hv He. unfold find_name_end.
  replace (e <? c) with false by (symmetry; apply Z.ltb_ge; unfold size in *; lia).
  apply (find_name_from_run rd s c _ x); auto.
  - unfold view, size in Hv. now rewrite Nat2Z.id in Hv.
  - unfold size in He. lia.
Qed.

Lemma view_head rd c x s : view rd c (size (x :: s)) = x :: s -> rd c = x.
Proof.
  unfold view, size. rewrite Nat2Z.id. cbn [length view_from]. now intros [= -> _].
Qed.

Lemma all_name_head x s :
  all_name (x :: s) = true -> byte_eqb x ":" = false.
Proof.
  cbn [all_name forallb]. intros H. apply andb_prop in H as [H _].
  destruct (byte_eqb x ":") eqn:E; auto.
  apply Ascii.eqb_eq in E. subst x. discriminate H.
Qed.

Lemma size_app a b : size (a ++ b) = size a + size b.
Proof. unfold size. rewrite length_app. lia. Qed.

(** An attribute written with a prefix is refused: the name ends at the
    colon, and the colon is not '='. *)
Lemma prefixed_attribute_parts rd p c e :
  all_name p = true ->
  view rd c (size (p ++ [":"])) = p ++ [":"] ->
  c + size p < e ->
  attribute_parts rd c e = Err MissingEquals.
Proof.
  intros Hp Hv He. unfold attribute_parts. cbv zeta.
  rewrite (find_name_end_run rd p c e ":" Hp eq_refl Hv He). cbn [bind].
  replace (c + size p =? e) with false by (symmetry; apply Z.eqb_neq; lia).
  replace (c + size p - c) with (size p) by lia.
  apply view_app in Hv as [Hv1 Hv2]. rewrite Hv1.
  rewrite (all_name_no_colon p Hp).
  apply (view_head rd (c + size p) ":" []) in Hv2.
  rewrite Hv2. change (isspace ":") with false. cbn [bind].
  replace (c + size p =? e) with false by (symmetry; apply Z.eqb_neq; lia).
  rewrite Hv2. reflexivity.
Qed.

(** X2: an attribute written with a prefix, as in [xml:lang], is refused
    with "missing =": its name ends at the colon, which the table does not
    accept, and the colon is not [=]. *)
Theorem prefixed_attribute_refused rd v p c e :
  all_name p = true ->
  view rd c (size (p ++ [":"])) = p ++ [":"] ->
  c + size p < e ->
  parseAttribute rd v c e = Err MissingEquals.
Proof.
  intros Hp Hv He. unfold parseAttribute.
  now rewrite (prefixed_attribute_parts rd p c e Hp Hv He).
Qed.

Lemma prefixed_attribute_refused_witness :
  parseAttribute prefixed_attribute initial_locals 0 14 = Err MissingEquals.
Proof.
  refine (prefixed_attribute_refused prefixed_attribute initial_locals
            (bytes "xml") 0 14 _ _ _); reflexivity.
Defined.

Lemma view_from_join rd a b : forall c,
  view_from rd c (length a) = a -> view_from rd (c + size a) (length b) = b ->
  view_from rd c (length (a ++ b)) = a ++ b.
Proof.
  induction a as [|y a IH]; intros c; cbn [app length view_from].
  - unfold size. cbn [length]. rewrite Z.add_0_r. auto.
  - intros [= Hy Ha] Hb. rewrite Hy. f_equal. apply IH; auto.
    replace (c + 1 + size a) with (c + size (y :: a))
      by (unfold size; cbn [length]; lia).
    exact Hb.
Qed.

Lemma view_join rd c a b :
  view rd c (size a) = a -> view rd (c + size a) (size b) = b ->
  view rd c (size (a ++ b)) = a ++ b.
Proof.
  unfold view, size. rewrite !Nat2Z.id. apply view_from_join.
Qed.

(** X3: the name of a start or end tag is read back as it is written: the
    prefix before the colon, the local name after it, the whole as the
    qualified name, and the cursor left at the byte [x] that ends it. *)
Theorem tag_name_reads_qualified rd i u m prefix local x c e :
  all_name prefix = true -> all_name local = true ->
  tagNameMask x = Ok false ->
  (prefix = [] -> local <> [] /\ x <> ":") ->
  view rd c (size (qualified prefix local ++ [x])) = qualified prefix local ++ [x] ->
  c + size (qualified prefix local) < e ->
  tag_name rd i u m c e
  = Ok (mkTagName prefix (qualified prefix local) local
          (c + size (qualified prefix local))).
Proof.
  intros Hp Hl Hx H0 Hv He. unfold tag_name. cbv zeta.
  destruct prefix as [|p0 prefix].
  - (* no prefix *)
    destruct (H0 eq_refl) as [Hne Hxc]. cbn [qualified] in *.
    destruct local as [|l0 local]; [now elim Hne|].
    pose proof (view_app _ _ _ _ Hv) as [Hv1 Hv2].
    rewrite (view_head _ _ _ _ Hv1), (all_name_head _ _ Hl).
    rewrite (find_name_end_run rd (l0 :: local) c e x Hl Hx Hv He). cbn [bind].
    replace (c + size (l0 :: local) =? e) with false
      by (symmetry; apply Z.eqb_neq; lia).
    rewrite (view_head rd _ x [] Hv2).
    replace (byte_eqb x ":") with false
      by (symmetry; apply Ascii.eqb_neq; exact Hxc).
    cbn [bind Z.eqb]. rewrite Z.add_0_r, Z.sub_0_r.
    replace (c + size (l0 :: local) - c) with (size (l0 :: local)) by lia.
    rewrite Hv1. reflexivity.
  - (* prefix:local *)
    change (qualified (p0 :: prefix) local) with ((p0 :: prefix) ++ ":" :: local)
      in *.
    set (p := p0 :: prefix) in *.
    assert (Sq : size (p ++ ":" :: local) = size p + 1 + size local)
      by (rewrite size_app; unfold size; cbn [length]; lia).
    assert (Sp : 0 < size p) by (unfold size, p; cbn [length]; lia).
    assert (Sl : 0 <= size local) by (unfold size; lia).
    pose proof (view_app _ _ _ _ Hv) as [HvS Hvx].
    pose proof (view_app _ _ _ _ HvS) as [Hv1 Hrest].
    pose proof (view_app rd (c + size p) [":"] local Hrest) as [Hcol Hloc].
    replace (c + size p + size [":"]) with (c + size p + 1) in Hloc by reflexivity.
    assert (Hpc : view rd c (size (p ++ [":"])) = p ++ [":"])
      by (now apply view_join).
    assert (Hlx : view rd (c + size p + 1) (size (local ++ [x])) = local ++ [x]).
    { apply view_join; auto.
      replace (c + size p + 1 + size local) with (c + size (p ++ ":" :: local))
        by lia.
      exact Hvx. }
    rewrite (view_head rd c p0 prefix Hv1), (all_name_head _ _ Hp).
    rewrite (find_name_end_run rd p c e ":" Hp eq_refl Hpc) by lia. cbn [bind].
    replace (c + size p =? e) with false by (symmetry; apply Z.eqb_neq; lia).
    rewrite (view_head rd _ ":" [] Hcol).
    change (byte_eqb ":" ":") with true.
    rewrite (find_name_end_run rd local (c + size p + 1) e x Hl Hx Hlx) by lia.
    cbn [bind].
    replace (c + size p - c) with (size p) by lia.
    replace (size p =? 0) with false by (symmetry; apply Z.eqb_neq; lia).
    rewrite Hv1.
    replace (c + size p + 1 + size local - c) with (size (p ++ ":" :: local))
      by lia.
    rewrite HvS.
    assert (Hne : match p ++ ":" :: local with [] => true | _ => false end = false)
      by reflexivity.
    rewrite Hne.
    replace (size (p ++ ":" :: local) - (size p + 1)) with (size local) by lia.
    replace (c + (size p + 1)) with (c + size p + 1) by lia.
    rewrite Hloc. do 2 f_equal. lia.
Qed.

Lemma tag_name_reads_qualified_witness :
  tag_name qualified_tag InvalidStartTagName UnterminatedStartTag
    EmptyStartTagName 1 10
  = Ok (mkTagName (bytes "src") (bytes "src:unit") (bytes "unit") 9).
Proof.
  refine (tag_name_reads_qualified qualified_tag InvalidStartTagName
            UnterminatedStartTag EmptyStartTagName (bytes "src") (bytes "unit")
            ">" 1 10 _ _ _ _ _ _).
  - reflexivity.
  - reflexivity.
  - reflexivity.
  - intros H. discriminate H.
  - reflexivity.
  - reflexivity.
Defined.

(** ** Text outside the root element *)

Lemma construct_at_outside st :
  inTag (locals st) = false -> inXMLComment (locals st) = false ->
  inCDATA (locals st) = false -> depth (locals st) = 0 ->
  rd_of st (cursor st) <> "<" ->
  construct_at st = CWhitespace.
Proof.
  intros HT HC HD Hd Ha. unfold construct_at, classify.
  repeat first [rewrite fst_first_match | rewrite fst_andL | rewrite fst_orL].
  unfold at_, flag. cbn [fst].
  rewrite HT, HC, HD, Hd, !Z.add_0_r.
  replace (byte_eqb (rd_of st (cursor st)) "<") with false
    by (symmetry; now apply Ascii.eqb_neq).
  rewrite !andb_false_r. reflexivity.
Qed.

Lemma stuck_outside st :
  5 <= cursorEnd st - cursor st ->
  inTag (locals st) = false -> inXMLComment (locals st) = false ->
  inCDATA (locals st) = false -> depth (locals st) = 0 ->
  rd_of st (cursor st) <> "<" -> isspace (rd_of st (cursor st)) = false ->
  step st = Continue st.
Proof.
  intros Hw HT HC HD Hd Ha Hs. unfold step.
  replace (cursorEnd st - cursor st <? 5) with false
    by (symmetry; apply Z.ltb_ge; lia).
  rewrite (construct_at_outside st HT HC HD Hd Ha). cbn [handle].
  unfold parseWhitespace, find_if_not, find_if.
  replace (cursorEnd st <? cursor st) with false
    by (symmetry; apply Z.ltb_ge; lia).
  destruct (Z.to_nat (cursorEnd st - cursor st)) as [|n] eqn:N; [lia|].
  cbn [find_from]. rewrite Hs. cbn [negb bind].
  destruct st; reflexivity.
Qed.

(** X4: at depth 0, outside a tag, a comment and a CDATA section, a byte
    that is neither [<] nor white space stops the scan for good: the turn
    leaves the state as it is, so the loop never ends. *)
Theorem text_outside_the_root_never_returns st fuel :
  5 <= cursorEnd st - cursor st ->
  inTag (locals st) = false -> inXMLComment (locals st) = false ->
  inCDATA (locals st) = false -> depth (locals st) = 0 ->
  rd_of st (cursor st) <> "<" -> isspace (rd_of st (cursor st)) = false ->
  loop fuel st = Running.
Proof.
  intros Hw HT HC HD Hd Ha Hs. apply loop_stuck. now apply stuck_outside.
Qed.

Lemma text_outside_the_root_never_returns_witness :
  loop 10 after_the_root = Running.
Proof.
  refine (text_outside_the_root_never_returns after_the_root 10 _ _ _ _ _ _ _).
  - vm_compute. discriminate.
  - reflexivity.
  - reflexivity.
  - reflexivity.
  - reflexivity.
  - vm_compute. discriminate.
  - reflexivity.
Defined.

(** X5: text before the root element: an input of at least five bytes,
    given in one read, whose first byte is neither [<] nor white space makes
    the program loop for ever, whatever follows. *)
Theorem text_before_root_never_returns x input fuel :
  x <> "<" -> isspace x = false ->
  4 <= size input -> size input < BUFFER_SIZE ->
  main fuel (whole (x :: input)) = Running.
Proof.
  intros Hx Hs Hn Hc. unfold main, scan. destruct fuel as [|fuel]; [reflexivity|].
  cbn [loop]. unfold step, initial, whole.
  cbn [cursor cursorEnd]. rewrite Z.sub_diag. cbn [Z.ltb Z.compare].
  rewrite refill_at_end by (unfold size in *; cbn [length]; lia).
  cbn [locals cursor cursorEnd inXMLComment inCDATA add_totalBytes initial_locals
       negb andb].
  replace (0 =? size (x :: input)) with false
    by (symmetry; apply Z.eqb_neq; unfold size; cbn [length]; lia).
  apply loop_stuck. apply stuck_outside; cbn [locals cursor cursorEnd inTag
    inXMLComment inCDATA depth add_totalBytes initial_locals]; auto.
  all: try (unfold size in *; cbn [length]; lia).
  all: unfold rd_of, byteAt; cbn [buffer filled Z.ltb Z.compare store];
    replace (0 <? size (firstn 0 _ ++ (x :: input) ++ _)) with true
      by (symmetry; apply Z.ltb_lt; unfold size; cbn; lia);
    assumption.
Qed.

Lemma text_before_root_never_returns_witness :
  main 10 (whole ("a" :: bytes "bcd<r/>")) = Running.
Proof.
  refine (text_before_root_never_returns "a" (bytes "bcd<r/>") 10 _ _ _ _).
  - discriminate.
  - reflexivity.
  - vm_compute. discriminate.
  - reflexivity.
Defined.

(** ** The end of the stream *)

Lemma read_retry_empty count scr :
  Forall delivers scr ->
  exists scr', read_retry count [] scr = (ReadBytes [], mkSource [] scr')
               /\ Forall delivers scr'.
Proof.
  intros Hs. induction Hs as [|ev scr Hev Hs IH]; cbn [read_retry].
  - exists []. rewrite firstn_nil, skipn_nil. auto.
  - destruct ev as [more| |].
    + exists scr. rewrite firstn_nil, skipn_nil. auto.
    + exact IH.
    + now elim Hev.
Qed.

Lemma refill_at_end_of_stream v b c e scr :
  c <= e -> Forall delivers scr ->
  exists f scr',
    refill (mkState v b c e (mkSource [] scr))
    = Ok (mkState v (mkBuffer f (capacity b)) (capacity b) (capacity b)
            (mkSource [] scr'))
    /\ Forall delivers scr'.
Proof.
  intros Hc Hs. unfold refill, refillBuffer.
  cbn [cursor cursorEnd buffer stdin locals pending script].
  replace (e <? c) with false by (symmetry; apply Z.ltb_ge; lia).
  cbv zeta.
  destruct (read_retry_empty (Z.to_nat (capacity b - (0 + (e - c)))) scr Hs)
    as (scr' & -> & Hs').
  cbn [bind r_ret r_cursor r_cursorEnd r_buffer r_stdin Z.ltb Z.compare].
  rewrite add_totalBytes_0. eauto.
Qed.

(** X6: at the end of the stream, with fewer than five bytes left in the
    window and neither a comment nor a CDATA section open, the program
    returns 0 with its variables as they are: the bytes left are not
    scanned, and a tag header that is still open is no error. *)
Theorem end_of_stream_returns_0 st fuel :
  cursor st <= cursorEnd st -> cursorEnd st - cursor st < 5 ->
  pending (stdin st) = [] -> Forall delivers (script (stdin st)) ->
  inXMLComment (locals st) = false -> inCDATA (locals st) = false ->
  loop (S fuel) st = Exit0 (locals st).
Proof.
  destruct st as [v b c e [pend scr]].
  cbn [cursor cursorEnd stdin pending script locals].
  intros Hc Hw -> Hs HC HD. cbn [loop]. unfold step. cbn [cursor cursorEnd].
  replace (e - c <? 5) with true by (symmetry; apply Z.ltb_lt; lia).
  destruct (refill_at_end_of_stream v b c e scr Hc Hs) as (f & scr' & -> & _).
  cbn [locals cursor cursorEnd]. now rewrite HC, HD, Z.eqb_refl.
Qed.

Lemma end_of_stream_returns_0_witness :
  loop 1 at_end_of_stream = Exit0 (locals at_end_of_stream).
Proof.
  refine (end_of_stream_returns_0 at_end_of_stream 0 _ _ _ _ _ _).
  - vm_compute. discriminate.
  - reflexivity.
  - reflexivity.
  - repeat constructor. discriminate.
  - reflexivity.
  - reflexivity.
Defined.

(** X7: at the end of the stream with a comment or a CDATA section open,
    the loop refills for ever: the program neither returns nor writes a
    diagnostic. *)
Theorem open_comment_never_returns fuel : forall st,
  cursor st <= cursorEnd st -> cursorEnd st - cursor st < 5 ->
  pending (stdin st) = [] -> Forall delivers (script (stdin st)) ->
  inXMLComment (locals st) = true \/ inCDATA (locals st) = true ->
  loop fuel st = Running.
Proof.
  induction fuel as [|fuel IH]; intros st; [reflexivity|].
  destruct st as [v b c e [pend scr]].
  cbn [cursor cursorEnd stdin pending script locals].
  intros Hc Hw -> Hs Ho. cbn [loop]. unfold step. cbn [cursor cursorEnd].
  replace (e - c <? 5) with true by (symmetry; apply Z.ltb_lt; lia).
  destruct (refill_at_end_of_stream v b c e scr Hc Hs) as (f & scr' & -> & Hs').
  cbn [locals cursor cursorEnd].
  replace (negb (inXMLComment v) && negb (inCDATA v)) with false
    by (destruct Ho as [-> | ->]; cbn; now rewrite ?andb_false_r).
  cbn [andb]. apply IH; cbn [cursor cursorEnd stdin pending script locals]; auto; lia.
Qed.

Lemma open_comment_never_returns_witness :
  loop 10 in_open_comment = Running.
Proof.
  refine (open_comment_never_returns 10 in_open_comment _ _ _ _ _).
  - vm_compute. discriminate.
  - reflexivity.
  - reflexivity.
  - repeat constructor. discriminate.
  - left. reflexivity.
Defined.

(** ** What every turn keeps *)

Lemma count_newlines_le s : 0 <= count_newlines s <= size s.
Proof.
  unfold count_newlines, size. pose proof (filter_length_le (byte_eqb newline) s).
  lia.
Qed.

Ltac framed :=
  unfold frame, elements; cbn; rewrite ?size_view by lia;
  repeat split; try reflexivity; try lia.

Lemma close_header_frame rd v c v' c' :
  close_header rd v c = (v', c') -> frame v v' c c'.
Proof.
  unfold close_header. intros H.
  destruct (byte_eqb (rd c) ">"); [|destruct (_ && _)]; injection H as <- <-;
    framed.
Qed.

Lemma frame_from v v' c0 c c' : frame v v' c c' -> c0 <= c -> frame v v' c0 c'.
Proof. unfold frame. intros (T & E & A & L & X) H. repeat split; auto; lia. Qed.

Lemma parseNamespace_frame rd v c e v' c' :
  parseNamespace rd v c e = Ok (v', c') -> frame v v' c c'.
Proof.
  unfold parseNamespace. cbv zeta. intros H. inv_ok.
  all: match goal with H : close_header _ _ _ = _ |- _ =>
         apply close_header_frame in H; eapply frame_from; [exact H|lia] end.
Qed.

Lemma attribute_parts_forward rd c e l x valueEnd :
  attribute_parts rd c e = Ok (l, x, valueEnd) -> c <= valueEnd.
Proof. unfold attribute_parts. cbv zeta. intros H. inv_ok. all: lia. Qed.

Lemma parseAttribute_frame rd v c e v' c' :
  parseAttribute rd v c e = Ok (v', c') -> frame v v' c c'.
Proof.
  unfold parseAttribute. cbv zeta. intros H.
  destruct (attribute_parts rd c e) as [[[l x] ve]| |] eqn:P; cbn [bind] in H;
    try discriminate H.
  apply attribute_parts_forward in P.
  set (b := bytes_eqb l (bytes "url")) in *.
  inv_ok.
  all: match goal with H : close_header _ _ _ = _ |- _ =>
         apply close_header_frame in H end.
  all: apply (frame_from _ _ c) in H; [|lia].
  all: destruct b; unfold frame, elements in *; cbn in *; exact H.
Qed.

(** Decide the conditions that are left, in the goal and above it. *)
Ltac split_ifs :=
  repeat match goal with
  | |- context [if ?b then _ else _] => destruct b
  | H : context [if ?b then _ else _] |- _ => destruct b
  end.

Lemma parseXMLComment_frame rd v c e v' c' :
  parseXMLComment rd v c e = Ok (v', c') -> frame v v' c c'.
Proof.
  unfold parseXMLComment. cbv zeta. intros H. inv_ok.
  all: framed; split_ifs; lia.
Qed.

Lemma parseCDATA_frame rd v c e v' c' :
  parseCDATA rd v c e = Ok (v', c') -> frame v v' c c'.
Proof.
  unfold parseCDATA. cbv zeta. intros H. inv_ok.
  all: match goal with |- context [count_newlines ?s] =>
         pose proof (count_newlines_le s) as N end.
  all: destruct (inCDATA v); rewrite size_view in N by lia; framed;
    split_ifs; lia.
Qed.

Lemma parseEndTag_frame rd v c e v' c' :
  parseEndTag rd v c e = Ok (v', c') -> frame v v' c c'.
Proof.
  unfold parseEndTag. cbv zeta. intros H.
  destruct (tag_name rd _ _ _ (c + 2) e) as [nm| |] eqn:N; cbn [bind] in H;
    try discriminate H.
  apply tag_name_bounds in N. inv_ok. framed.
Qed.

Lemma parseCharacters_frame rd v c e v' c' :
  parseCharacters rd v c e = Ok (v', c') -> frame v v' c c'.
Proof.
  unfold parseCharacters. cbv zeta. intros H. inv_ok.
  match goal with |- context [count_newlines ?s] =>
    pose proof (count_newlines_le s) as N end.
  rewrite size_view in N by lia. framed.
Qed.

Lemma parseEntityReference_frame rd v c v' c' :
  parseEntityReference rd v c = (v', c') -> frame v v' c c'.
Proof.
  unfold parseEntityReference. intros [= <- <-]. framed; split_ifs; lia.
Qed.

Lemma declaration_attribute_forward rd c t a valueEnd :
  declaration_attribute rd c t = Ok (a, valueEnd) -> c <= valueEnd.
Proof. unfold declaration_attribute. cbv zeta. intros H. inv_ok; lia. Qed.

Lemma parseXMLDeclaration_forward rd v c e t v' c' :
  parseXMLDeclaration rd v c e t = Ok (v', c') -> c <= c'.
Proof.
  unfold parseXMLDeclaration. cbv zeta. intros H. inv_ok.
  all: repeat match goal with
       | H : declaration_attribute _ _ _ = Ok _ |- _ =>
           apply declaration_attribute_forward in H
       end.
  all: lia.
Qed.

Lemma parseProcessingInstruction_forward rd v c t v' c' :
  parseProcessingInstruction rd v c t = Ok (v', c') -> c <= c'.
Proof.
  unfold parseProcessingInstruction. cbv zeta. intros H. inv_ok; lia.
Qed.

Lemma parseWhitespace_forward rd v c e v' c' :
  parseWhitespace rd v c e = Ok (v', c') -> c <= c'.
Proof. unfold parseWhitespace. intros H. inv_ok; lia. Qed.

(** The chain in the start tag adds one to one counter, or to none. *)
Lemma count_element_frame l v :
  totalBytes (count_element l v) = totalBytes v
  /\ textsize (count_element l v) = textsize v
  /\ loc (count_element l v) = loc v.
Proof.
  unfold count_element.
  repeat match goal with
  | |- context [if ?b then _ else _] => destruct b
  end; cbn; repeat split; reflexivity.
Qed.

Lemma parseStartTag_frame rd v c e v' c' :
  parseStartTag rd v c e = Ok (v', c') ->
  exists nm,
    tag_name rd InvalidStartTagName UnterminatedStartTag EmptyStartTagName (c + 1) e
    = Ok nm
    /\ totalBytes v' = totalBytes v
    /\ elements v' = elements (count_element (tn_localName nm) v)
    /\ isArchive v' = isArchive (count_element (tn_localName nm) v)
    /\ textsize v' = textsize v /\ loc v' = loc v
    /\ c + 1 <= c'.
Proof.
  unfold parseStartTag. cbv zeta. intros H.
  destruct (tag_name rd _ _ _ (c + 1) e) as [nm| |] eqn:N; cbn [bind] in H;
    try discriminate H.
  exists nm. split; [reflexivity|]. apply tag_name_bounds in N.
  destruct (count_element_frame (tn_localName nm) v) as (T & X & L).
  set (w := count_element (tn_localName nm) v) in *.
  inv_ok; unfold remember_tag, elements; cbn; rewrite ?T, ?X, ?L; repeat split;
    try reflexivity; lia.
Qed.

(** Split the conjunctions of the goal, and nothing else. *)
Ltac conjs := repeat match goal with |- _ /\ _ => split end.

Lemma Keeps_refl st : Keeps st st.
Proof. unfold Keeps. conjs; try lia; auto. now exists []. Qed.

Lemma Keeps_trans st1 st2 st3 : Keeps st1 st2 -> Keeps st2 st3 -> Keeps st1 st3.
Proof.
  unfold Keeps.
  intros (B1 & S1 & L1 & C1 & A1 & p1 & P1) (B2 & S2 & L2 & C2 & A2 & p2 & P2).
  conjs; try lia.
  - intros H.
    destruct (A2 H) as [H2|H2]; [destruct (A1 H2); [auto|right; lia]|right; lia].
  - exists (p1 ++ p2). rewrite P1, P2. apply app_assoc.
Qed.

Lemma read_retry_split count pend scr bs src :
  read_retry count pend scr = (ReadBytes bs, src) ->
  pend = bs ++ pending src /\ (length bs <= count)%nat
  /\ (bs = [] -> (0 < count)%nat -> pend = []).
Proof.
  revert src; induction scr as [|ev scr IH]; intros src; cbn [read_retry].
  - intros [= <- <-]. cbn [pending]. rewrite firstn_skipn, length_firstn.
    repeat split; [lia|]. destruct pend; [auto|].
    destruct count; [lia|]. cbn. discriminate.
  - destruct ev as [more| |]; [|apply IH|discriminate].
    intros [= <- <-]. cbn [pending]. rewrite firstn_skipn, length_firstn.
    destruct (Nat.min count (length pend)) eqn:M; repeat split; try lia;
      (destruct pend; [auto|]); (destruct count; [lia|]); cbn in *; discriminate.
Qed.

Lemma read_retry_script count pend scr r src :
  read_retry count pend scr = (r, src) -> exists past, scr = past ++ script src.
Proof.
  revert src; induction scr as [|ev scr IH]; intros src; cbn [read_retry].
  - intros [= <- <-]. now exists [].
  - destruct ev as [more| |].
    + intros [= <- <-]. now exists [Deliver more].
    + intros H. apply IH in H as (past & ->). now exists (Interrupted :: past).
    + intros [= <- <-]. now exists [Failure].
Qed.

Lemma length_store l pos bs :
  length (store l pos bs) = Nat.max (length l) (pos + length bs).
Proof.
  unfold store. rewrite !length_app, length_firstn, length_app, repeat_length,
    length_skipn. lia.
Qed.

(** What a refill that succeeds does. *)
Lemma refill_does st st' :
  refill st = Ok st' ->
  cursor st <= cursorEnd st
  /\ capacity (buffer st') = capacity (buffer st)
  /\ (exists past, script (stdin st) = past ++ script (stdin st'))
  /\ exists bs,
       pending (stdin st) = bs ++ pending (stdin st')
       /\ locals st' = add_totalBytes (size bs) (locals st)
       /\ size bs <= Z.max 0 (capacity (buffer st) - (cursorEnd st - cursor st))
       /\ match bs with
          | [] => cursor st' = capacity (buffer st)
                  /\ cursorEnd st' = capacity (buffer st)
                  /\ filled (buffer st')
                     = store (filled (buffer st)) 0
                         (window (buffer st) (cursor st) (cursorEnd st))
                  /\ (cursorEnd st - cursor st < capacity (buffer st) ->
                      pending (stdin st) = [])
          | _ => cursor st' = 0
                 /\ cursorEnd st' = cursorEnd st - cursor st + size bs
                 /\ filled (buffer st')
                    = store (store (filled (buffer st)) 0
                               (window (buffer st) (cursor st) (cursorEnd st)))
                        (Z.to_nat (cursorEnd st - cursor st)) bs
          end.
Proof.
  destruct st as [v b c e src]. unfold refill, refillBuffer.
  cbn [locals buffer cursor cursorEnd stdin].
  destruct (e <? c) eqn:Hce; cbn [bind]; [discriminate|]. apply Z.ltb_ge in Hce.
  destruct (read_retry _ _ _) as [[bs|] src'] eqn:R; cbn [bind].
  - pose proof (read_retry_script _ _ _ _ _ R) as Hs.
    apply read_retry_split in R as (E & Hlen & Hnil).
    destruct bs as [|x bs]; cbn [bind r_ret r_cursor r_cursorEnd r_buffer r_stdin].
    + cbn [Z.ltb Z.compare]. intros [= <-].
      cbn [locals buffer cursor cursorEnd stdin capacity filled].
      split; [lia|]. split; [reflexivity|]. split; [exact Hs|].
      exists []. cbn [app size length].
      conjs; try (unfold size; cbn [length]; lia); auto.
      intros Hc. apply Hnil; [reflexivity|lia].
    + unfold size at 1. cbn [length].
      replace (Z.of_nat (S (length bs)) <? 0) with false
        by (symmetry; apply Z.ltb_ge; lia).
      intros [= <-]. cbn [locals buffer cursor cursorEnd stdin capacity filled].
      split; [lia|]. split; [reflexivity|]. split; [exact Hs|]. exists (x :: bs).
      conjs; auto; unfold size; cbn [length] in *; lia.
  - cbn [r_ret Z.ltb Z.compare]. discriminate.
Qed.

Lemma add_totalBytes_fields n v :
  totalBytes (add_totalBytes n v) = totalBytes v + n
  /\ counted (add_totalBytes n v) = counted v
  /\ elements (add_totalBytes n v) = elements v
  /\ isArchive (add_totalBytes n v) = isArchive v
  /\ loc (add_totalBytes n v) = loc v
  /\ textsize (add_totalBytes n v) = textsize v.
Proof. repeat split; reflexivity. Qed.

Lemma refill_keeps st st' : refill st = Ok st' -> Keeps st st'.
Proof.
  intros H. apply refill_does in H as (Hc & Hcap & Hs & bs & P & L & Hn & Hb).
  unfold Keeps, slack. rewrite L, P. cbn. unfold size in *. rewrite length_app.
  destruct bs as [|x bs]; destruct Hb as (-> & -> & _); cbn [length] in *;
    conjs; try lia; auto.
  all: change (counted (add_totalBytes ?n ?v)) with (counted v); lia.
Qed.

Lemma refill_within cap st st' :
  Within cap st -> refill st = Ok st' -> Within cap st'.
Proof.
  intros (C & Hc & He & Hf) H.
  apply refill_does in H as (Hce & Hcap & _ & bs & P & L & Hn & Hb).
  unfold Within. rewrite Hcap, C in *.
  destruct bs as [|x bs].
  - destruct Hb as (-> & -> & -> & _). unfold size in *.
    rewrite length_store, length_window. cbn [Nat.add]. conjs; lia.
  - destruct Hb as (-> & -> & ->). unfold size in *.
    rewrite !length_store, length_window. cbn [Nat.add length] in *.
    conjs; lia.
Qed.

Lemma ensure_refills look incomplete st st' t :
  ensure look incomplete st = Ok (st', t) -> st' = st \/ refill st = Ok st'.
Proof.
  unfold ensure. intros H.
  destruct (look (rd_of st) (cursor st) (cursorEnd st)) as [t0| |];
    cbn [bind] in H; try discriminate H.
  destruct (t0 =? cursorEnd st).
  - destruct (refill st) as [st1| |] eqn:R; cbn [bind] in H; try discriminate H.
    inv_ok. now right.
  - inv_ok. now left.
Qed.

Lemma ensure_within_refills limit incomplete st st' :
  ensure_within limit incomplete st = Ok st' -> st' = st \/ refill st = Ok st'.
Proof.
  unfold ensure_within. intros H.
  destruct (cursorEnd st - cursor st <? limit); [|inv_ok; now left].
  destruct (ensure _ incomplete st) as [[st1 t]| |] eqn:E; cbn [bind] in H;
    try discriminate H.
  apply ensure_refills in E. inv_ok. exact E.
Qed.

(** A refill, if there was one, keeps what a refill keeps. *)
Lemma refilled_keeps cap st st' :
  st' = st \/ refill st = Ok st' ->
  Keeps st st' /\ (Within cap st -> Within cap st').
Proof.
  intros [->|R].
  - split; [apply Keeps_refl|auto].
  - split; [now apply refill_keeps|]. intros W. now apply (refill_within cap st).
Qed.

Lemma moved_keeps st v' c' :
  frame (locals st) v' (cursor st) c' -> Keeps st (moved st (v', c')).
Proof.
  unfold frame, elements, Keeps, slack, counted, moved.
  cbn [locals buffer cursor cursorEnd stdin fst snd].
  intros (T & [= E1 E2 E3 E4 E5 E6] & A & L & X).
  rewrite T, E1, E2, E3, E4, E5, E6, A. conjs; try lia; auto. now exists [].
Qed.

Lemma moved_forward st c' : cursor st <= c' -> Keeps st (moved st (locals st, c')).
Proof.
  intros H. apply moved_keeps. unfold frame. conjs; auto; lia.
Qed.

Lemma moved_within cap st r :
  cursor st <= snd r -> Within cap st -> Within cap (moved st r).
Proof.
  unfold Within, moved. cbn [locals buffer cursor cursorEnd stdin].
  intros H (C & Hc & He & Hf). conjs; auto; lia.
Qed.

Lemma frame_forward v v' c c' : frame v v' c c' -> c <= c'.
Proof. unfold frame. intros (_ & _ & _ & L & X). lia. Qed.

(** The chain in the start tag adds one to one counter, or to none, and
    sets [isArchive] only when it counts a unit. *)
Lemma count_element_counts l v :
  let w := count_element l v in
  counted w <= counted v + 1
  /\ (exprCount v <= exprCount w /\ functionCount v <= functionCount w
      /\ classCount v <= classCount w /\ unitCount v <= unitCount w
      /\ declCount v <= declCount w /\ commentCount v <= commentCount w)
  /\ (isArchive w = true -> isArchive v = true \/ unitCount v < unitCount w).
Proof.
  unfold count_element, counted.
  repeat match goal with
  | |- context [if bytes_eqb ?a ?b then _ else _] => destruct (bytes_eqb a b)
  end; cbn; conjs; try lia; auto.
Qed.

Lemma started_keeps st nm v' c' :
  totalBytes v' = totalBytes (locals st) ->
  elements v' = elements (count_element (tn_localName nm) (locals st)) ->
  isArchive v' = isArchive (count_element (tn_localName nm) (locals st)) ->
  textsize v' = textsize (locals st) -> loc v' = loc (locals st) ->
  cursor st + 1 <= c' ->
  Keeps st (moved st (v', c')).
Proof.
  intros T E A X L C.
  destruct (count_element_counts (tn_localName nm) (locals st)) as (K & M & U).
  destruct (count_element_frame (tn_localName nm) (locals st)) as (_ & X' & _).
  cbv zeta in *.
  unfold elements, Keeps, slack, counted, moved in *.
  cbn [locals buffer cursor cursorEnd stdin fst snd].
  injection E as E1 E2 E3 E4 E5 E6.
  rewrite X' in K.
  rewrite T, E1, E2, E3, E4, E5, E6, A, X, L. conjs; try lia; [exact U|].
  now exists [].
Qed.

Lemma handle_keeps cap k st st' :
  handle k st = Ok st' -> Keeps st st' /\ (Within cap st -> Within cap st').
Proof.
  unfold handle. intros H. destruct k.
  - destruct (parseNamespace _ _ _ _) as [[v1 c1]| |] eqn:P; inv_ok.
    apply parseNamespace_frame in P.
    split; [now apply moved_keeps|apply moved_within; now apply frame_forward in P].
  - destruct (parseAttribute _ _ _ _) as [[v1 c1]| |] eqn:P; inv_ok.
    apply parseAttribute_frame in P.
    split; [now apply moved_keeps|apply moved_within; now apply frame_forward in P].
  - destruct (parseXMLComment _ _ _ _) as [[v1 c1]| |] eqn:P; inv_ok.
    apply parseXMLComment_frame in P.
    split; [now apply moved_keeps|apply moved_within; now apply frame_forward in P].
  - destruct (parseCDATA _ _ _ _) as [[v1 c1]| |] eqn:P; inv_ok.
    apply parseCDATA_frame in P.
    split; [now apply moved_keeps|apply moved_within; now apply frame_forward in P].
  - destruct (ensure _ _ _) as [[st1 t]| |] eqn:E; cbn [bind] in H; try discriminate H.
    destruct (parseXMLDeclaration _ _ _ _ _) as [[v1 c1]| |] eqn:P; inv_ok.
    pose proof (parseXMLDeclaration_effect _ _ _ _ _ _ _ P) as ->.
    apply parseXMLDeclaration_forward in P.
    apply ensure_refills, (refilled_keeps cap) in E as (K & W).
    split; [eapply Keeps_trans; [exact K|now apply moved_forward]|].
    intros W0. apply moved_within; auto.
  - destruct (ensure _ _ _) as [[st1 t]| |] eqn:E; cbn [bind] in H; try discriminate H.
    destruct (parseProcessingInstruction _ _ _ _) as [[v1 c1]| |] eqn:P; inv_ok.
    pose proof (parseProcessingInstruction_effect _ _ _ _ _ _ P) as ->.
    apply parseProcessingInstruction_forward in P.
    apply ensure_refills, (refilled_keeps cap) in E as (K & W).
    split; [eapply Keeps_trans; [exact K|now apply moved_forward]|].
    intros W0. apply moved_within; auto.
  - destruct (ensure_within _ _ _) as [st1| |] eqn:E; cbn [bind] in H; try discriminate H.
    destruct (parseEndTag _ _ _ _) as [[v1 c1]| |] eqn:P; inv_ok.
    apply parseEndTag_frame in P.
    apply ensure_within_refills, (refilled_keeps cap) in E as (K & W).
    split; [eapply Keeps_trans; [exact K|now apply moved_keeps]|].
    intros W0. apply moved_within; auto. now apply frame_forward in P.
  - destruct (ensure_within _ _ _) as [st1| |] eqn:E; cbn [bind] in H; try discriminate H.
    destruct (parseStartTag _ _ _ _) as [[v1 c1]| |] eqn:P; inv_ok.
    apply parseStartTag_frame in P as (nm & _ & T & El & A & X & L & C).
    apply ensure_within_refills, (refilled_keeps cap) in E as (K & W).
    split; [eapply Keeps_trans; [exact K|now apply (started_keeps st1 nm)]|].
    intros W0. apply moved_within; auto. cbn [snd]. lia.
  - destruct (parseWhitespace _ _ _ _) as [[v1 c1]| |] eqn:P; inv_ok.
    pose proof (parseWhitespace_effect _ _ _ _ _ _ P) as ->.
    apply parseWhitespace_forward in P.
    split; [now apply moved_forward|now apply moved_within].
  - inv_ok.
    destruct (parseEntityReference _ _ _) as [v1 c1] eqn:P.
    apply parseEntityReference_frame in P.
    split; [now apply moved_keeps|apply moved_within; now apply frame_forward in P].
  - destruct (parseCharacters _ _ _ _) as [[v1 c1]| |] eqn:P; inv_ok.
    apply parseCharacters_frame in P.
    split; [now apply moved_keeps|apply moved_within; now apply frame_forward in P].
Qed.

Lemma step_keeps cap st st' :
  step st = Continue st' \/ step st = Break st' ->
  Keeps st st' /\ (Within cap st -> Within cap st').
Proof.
  unfold step. intros H.
  destruct (cursorEnd st - cursor st <? 5).
  - destruct (refill st) as [st1| |] eqn:R;
      [|destruct H as [H|H]; discriminate H..].
    assert (st1 = st') as ->.
    { destruct (_ && _); destruct H as [H|H]; congruence. }
    apply (refilled_keeps cap). now right.
  - destruct (handle _ st) as [st1| |] eqn:Hh;
      [|destruct H as [H|H]; discriminate H..].
    assert (st1 = st') as -> by (destruct H as [H|H]; congruence).
    now apply (handle_keeps cap) in Hh.
Qed.

Lemma after_keeps cap n : forall st st',
  after n st = Some st' -> Keeps st st' /\ (Within cap st -> Within cap st').
Proof.
  induction n as [|n IH]; intros st st'; cbn [after].
  - intros [= ->]. split; [apply Keeps_refl|auto].
  - destruct (step st) as [st1| | |] eqn:S; try discriminate.
    intros A. apply IH in A as (K & W).
    destruct (step_keeps cap st st1 (or_introl S)) as (K1 & W1).
    split; [eapply Keeps_trans; eauto|auto].
Qed.

(** A run that returns 0 has left the loop by [break], after some turns. *)
Lemma loop_exit fuel : forall st v,
  loop fuel st = Exit0 v ->
  exists n st1 st2,
    after n st = Some st1 /\ step st1 = Break st2 /\ v = locals st2.
Proof.
  induction fuel as [|fuel IH]; intros st v; cbn [loop]; [discriminate|].
  destruct (step st) as [st'|st'| |] eqn:Hs; try discriminate.
  - intros H. apply IH in H as (n & st1 & st2 & A & B & E).
    exists (S n), st1, st2. cbn [after]. rewrite Hs. auto.
  - intros [= <-]. exists O, st, st'. cbn [after]. auto.
Qed.

Lemma initial_within cap src : 0 <= cap -> Within cap (initial cap src).
Proof. intros H. unfold Within, initial. cbn. lia. Qed.

(** The turn that leaves the loop: a refill that read nothing. *)
Lemma break_does st st' :
  step st = Break st' ->
  cursorEnd st - cursor st < 5
  /\ refill st = Ok st'
  /\ cursor st' = cursorEnd st'
  /\ locals st' = locals st
  /\ (cursorEnd st - cursor st < capacity (buffer st) -> pending (stdin st) = []).
Proof.
  unfold step. destruct (cursorEnd st - cursor st <? 5) eqn:W.
  - apply Z.ltb_lt in W.
    destruct (refill st) as [st1| |] eqn:R; try discriminate.
    destruct (_ && _) eqn:B; [|discriminate]. intros [= ->].
    apply andb_prop in B as [_ B]. apply Z.eqb_eq in B.
    pose proof (refill_does _ _ R) as (Hc & _ & _ & bs & P & L & _ & Hb).
    destruct bs as [|x bs].
    + destruct Hb as (_ & _ & _ & Hp). rewrite L.
      conjs; auto. apply add_totalBytes_0.
    + destruct Hb as (C0 & C1 & _). unfold size in C1. cbn [length] in C1. lia.
  - destruct (handle _ st); discriminate.
Qed.

(** X8: when the program returns 0, [totalBytes] is the length of the
    whole stream, however the reads cut it, for a buffer of five bytes or
    more. *)
Theorem totalBytes_is_the_input cap fuel src v :
  5 <= cap -> scan cap fuel src = Exit0 v -> totalBytes v = size (pending src).
Proof.
  unfold scan. intros Hcap H.
  apply loop_exit in H as (n & st1 & st2 & A & B & ->).
  apply (after_keeps cap) in A as (K & W).
  destruct (W (initial_within cap src ltac:(lia))) as (C & _).
  apply break_does in B as (Hw & _ & _ & -> & Hp).
  rewrite C in Hp. destruct K as (K & _). rewrite Hp in K by lia.
  cbn in K. cbn [size length] in K. lia.
Qed.

Lemma totalBytes_is_the_input_witness :
  exists v,
    scan 64 8 (whole scenario1) = Exit0 v
    /\ totalBytes v = size (pending (whole scenario1)).
Proof.
  refine (let H := _ : scan 64 8 (whole scenario1) = Exit0 _ in
          ex_intro _ _
            (conj H (totalBytes_is_the_input 64 8 (whole scenario1) _
                       ltac:(vm_compute; discriminate) H))).
  vm_compute. reflexivity.
Defined.

(** X10: in every state that the loop reaches, [cursor] is not before the
    buffer, [cursorEnd] is inside it, and no refill has stored a byte past
    its capacity. *)
Theorem window_stays_in_the_buffer cap n src st :
  0 <= cap -> after n (initial cap src) = Some st ->
  capacity (buffer st) = cap
  /\ 0 <= cursor st
  /\ 0 <= cursorEnd st <= cap
  /\ size (filled (buffer st)) <= cap.
Proof.
  intros Hcap A. apply (after_keeps cap) in A as (_ & W).
  apply W, initial_within, Hcap.
Qed.

Lemma window_stays_in_the_buffer_witness :
  exists st,
    after 4 (initial 16 (whole one_element)) = Some st
    /\ capacity (buffer st) = 16
    /\ 0 <= cursor st
    /\ 0 <= cursorEnd st <= 16
    /\ size (filled (buffer st)) <= 16.
Proof.
  eexists. split; [vm_compute; reflexivity|].
  apply (window_stays_in_the_buffer 16 4 (whole one_element));
    [vm_compute; discriminate|vm_compute; reflexivity].
Defined.

(** ** The element counters *)

Lemma count_element_elements l v :
  elements (count_element l v) = elements_with (Some l) v.
Proof.
  unfold count_element, elements_with, elements, one_if.
  destruct (bytes_eqb l (bytes "expr")) eqn:E1;
    [apply bytes_eqb_eq in E1; subst l; cbn; repeat f_equal; lia|].
  destruct (bytes_eqb l (bytes "decl")) eqn:E2;
    [apply bytes_eqb_eq in E2; subst l; cbn; repeat f_equal; lia|].
  destruct (bytes_eqb l (bytes "comment")) eqn:E3;
    [apply bytes_eqb_eq in E3; subst l; cbn; repeat f_equal; lia|].
  destruct (bytes_eqb l (bytes "function")) eqn:E4;
    [apply bytes_eqb_eq in E4; subst l; cbn; repeat f_equal; lia|].
  destruct (bytes_eqb l (bytes "unit")) eqn:E5;
    [apply bytes_eqb_eq in E5; subst l; cbn; repeat f_equal; lia|].
  destruct (bytes_eqb l (bytes "class")) eqn:E6;
    [apply bytes_eqb_eq in E6; subst l; cbn; repeat f_equal; lia|].
  cbn. repeat f_equal; lia.
Qed.

Lemma refilled_elements st st' :
  st' = st \/ refill st = Ok st' -> elements (locals st') = elements (locals st).
Proof.
  intros [->|R]; [reflexivity|].
  apply refill_does in R as (_ & _ & _ & bs & _ & -> & _). reflexivity.
Qed.

Lemma handle_elements k st st' :
  handle k st = Ok st' ->
  elements (locals st')
  = elements_with (match k with
                   | CStartTag =>
                       match ensure_within 200 IncompleteStartTag st with
                       | Ok st1 =>
                           match tag_name (rd_of st1) InvalidStartTagName
                                   UnterminatedStartTag EmptyStartTagName
                                   (cursor st1 + 1) (cursorEnd st1) with
                           | Ok nm => Some (tn_localName nm)
                           | _ => None
                           end
                       | _ => None
                       end
                   | _ => None
                   end) (locals st).
Proof.
  unfold handle. intros H. destruct k; cbn [elements_with].
  - destruct (parseNamespace _ _ _ _) as [[v1 c1]| |] eqn:P; inv_ok.
    now apply parseNamespace_frame in P as (_ & E & _).
  - destruct (parseAttribute _ _ _ _) as [[v1 c1]| |] eqn:P; inv_ok.
    now apply parseAttribute_frame in P as (_ & E & _).
  - destruct (parseXMLComment _ _ _ _) as [[v1 c1]| |] eqn:P; inv_ok.
    now apply parseXMLComment_frame in P as (_ & E & _).
  - destruct (parseCDATA _ _ _ _) as [[v1 c1]| |] eqn:P; inv_ok.
    now apply parseCDATA_frame in P as (_ & E & _).
  - destruct (ensure _ _ _) as [[st1 t]| |] eqn:E; cbn [bind] in H; try discriminate H.
    destruct (parseXMLDeclaration _ _ _ _ _) as [[v1 c1]| |] eqn:P; inv_ok.
    pose proof (parseXMLDeclaration_effect _ _ _ _ _ _ _ P) as ->.
    now apply ensure_refills, refilled_elements in E.
  - destruct (ensure _ _ _) as [[st1 t]| |] eqn:E; cbn [bind] in H; try discriminate H.
    destruct (parseProcessingInstruction _ _ _ _) as [[v1 c1]| |] eqn:P; inv_ok.
    pose proof (parseProcessingInstruction_effect _ _ _ _ _ _ P) as ->.
    now apply ensure_refills, refilled_elements in E.
  - destruct (ensure_within _ _ _) as [st1| |] eqn:E; cbn [bind] in H; try discriminate H.
    destruct (parseEndTag _ _ _ _) as [[v1 c1]| |] eqn:P; inv_ok.
    apply parseEndTag_frame in P as (_ & El & _).
    apply ensure_within_refills, refilled_elements in E.
    cbn [moved locals fst]. congruence.
  - destruct (ensure_within _ _ _) as [st1| |] eqn:E; cbn [bind] in H; try discriminate H.
    destruct (parseStartTag _ _ _ _) as [[v1 c1]| |] eqn:P; inv_ok.
    apply parseStartTag_frame in P as (nm & -> & _ & El & _).
    apply ensure_within_refills, refilled_elements in E.
    cbn [moved locals fst]. rewrite El, count_element_elements.
    unfold elements_with, elements in *. injection E as -> -> -> -> -> ->.
    reflexivity.
  - destruct (parseWhitespace _ _ _ _) as [[v1 c1]| |] eqn:P; inv_ok.
    now pose proof (parseWhitespace_effect _ _ _ _ _ _ P) as ->.
  - inv_ok. destruct (parseEntityReference _ _ _) as [v1 c1] eqn:P.
    now apply parseEntityReference_frame in P as (_ & E & _).
  - destruct (parseCharacters _ _ _ _) as [[v1 c1]| |] eqn:P; inv_ok.
    now apply parseCharacters_frame in P as (_ & E & _).
Qed.

Lemma step_elements st st' :
  step st = Continue st' \/ step st = Break st' ->
  elements (locals st') = elements_with (start_tag_read st) (locals st).
Proof.
  unfold step, start_tag_read. intros H.
  destruct (cursorEnd st - cursor st <? 5).
  - destruct (refill st) as [st1| |] eqn:R;
      [|destruct H as [H|H]; discriminate H..].
    assert (st1 = st') as ->.
    { destruct (_ && _); destruct H as [H|H]; congruence. }
    apply refilled_elements. now right.
  - destruct (handle _ st) as [st1| |] eqn:Hh;
      [|destruct H as [H|H]; discriminate H..].
    assert (st1 = st') as -> by (destruct H as [H|H]; congruence).
    apply handle_elements in Hh. rewrite Hh.
    destruct (construct_at st); reflexivity.
Qed.

Lemma break_reads_no_tag st st' : step st = Break st' -> start_tag_read st = None.
Proof.
  intros B. apply break_does in B as (W & _). unfold start_tag_read.
  replace (cursorEnd st - cursor st <? 5) with true
    by (symmetry; apply Z.ltb_lt; lia).
  reflexivity.
Qed.

(** Write the literals out, byte by byte. *)
Ltac spell :=
  repeat match goal with
  | |- context [bytes ?s] =>
      let r := eval cbv in (bytes s) in change (bytes s) with r
  end.

(** X11: when the program returns 0, each of the six element counters has
    grown by the number of turns that read a start tag with that local
    name, whatever its prefix and whether or not the tag closes itself;
    no other branch touches them. *)
Theorem counters_are_the_start_tags fuel : forall st v,
  loop fuel st = Exit0 v ->
  exprCount v = exprCount (locals st) + start_tags (bytes "expr") fuel st
  /\ functionCount v
     = functionCount (locals st) + start_tags (bytes "function") fuel st
  /\ classCount v = classCount (locals st) + start_tags (bytes "class") fuel st
  /\ unitCount v = unitCount (locals st) + start_tags (bytes "unit") fuel st
  /\ declCount v = declCount (locals st) + start_tags (bytes "decl") fuel st
  /\ commentCount v
     = commentCount (locals st) + start_tags (bytes "comment") fuel st.
Proof.
  induction fuel as [|fuel IH]; intros st v; cbn [loop start_tags];
    [discriminate|].
  destruct (step st) as [st'|st'| |] eqn:Hs; try discriminate.
  - intros H. apply IH in H as (-> & -> & -> & -> & -> & ->).
    pose proof (step_elements st st' (or_introl Hs)) as E.
    unfold start_tag_named, elements_with, elements, one_if in *.
    destruct (start_tag_read st) as [l|]; injection E as -> -> -> -> -> ->;
      conjs; spell; split_ifs; lia.
  - intros [= <-].
    pose proof (step_elements st st' (or_intror Hs)) as E.
    rewrite (break_reads_no_tag _ _ Hs) in E.
    unfold elements_with, elements in E. injection E as -> -> -> -> -> ->.
    conjs; lia.
Qed.

Lemma counters_are_the_start_tags_witness :
  exists v,
    loop 20 (initial 64 (whole commented)) = Exit0 v
    /\ exprCount v
       = exprCount (locals (initial 64 (whole commented)))
         + start_tags (bytes "expr") 20 (initial 64 (whole commented))
    /\ functionCount v
       = functionCount (locals (initial 64 (whole commented)))
         + start_tags (bytes "function") 20 (initial 64 (whole commented))
    /\ classCount v
       = classCount (locals (initial 64 (whole commented)))
         + start_tags (bytes "class") 20 (initial 64 (whole commented))
    /\ unitCount v
       = unitCount (locals (initial 64 (whole commented)))
         + start_tags (bytes "unit") 20 (initial 64 (whole commented))
    /\ declCount v
       = declCount (locals (initial 64 (whole commented)))
         + start_tags (bytes "decl") 20 (initial 64 (whole commented))
    /\ commentCount v
       = commentCount (locals (initial 64 (whole commented)))
         + start_tags (bytes "comment") 20 (initial 64 (whole commented)).
Proof.
  refine (let H := _ : loop 20 (initial 64 (whole commented)) = Exit0 _ in
          ex_intro _ _
            (conj H (counters_are_the_start_tags 20 (initial 64 (whole commented)) _ H))).
  vm_compute. reflexivity.
Defined.

(** ** Runs that return 1 *)

(** A run that returns 1 has ended in some turn with a diagnostic. *)
Lemma loop_error fuel : forall st x,
  loop fuel st = Exit1 x ->
  exists n st1, after n st = Some st1 /\ step st1 = Return1 x.
Proof.
  induction fuel as [|fuel IH]; intros st x; cbn [loop]; [discriminate|].
  destruct (step st) as [st'|st'| |] eqn:Hs; try discriminate.
  - intros H. apply IH in H as (n & st1 & A & B).
    exists (S n), st1. cbn [after]. rewrite Hs. auto.
  - intros [= <-]. exists O, st. cbn [after]. auto.
Qed.

(** X12: a run that returns 1 never does so with "Unterminated XML
    comment", "Unterminated CDATA" or "Invalid attribute name": the three
    tests that lead there cannot succeed. *)
Theorem diagnostics_never_issued fuel st x :
  loop fuel st = Exit1 x -> never_issued x.
Proof.
  intros H. apply loop_error in H as (n & st1 & _ & H).
  now apply step_error in H as (H & _).
Qed.

Lemma diagnostics_never_issued_witness :
  main 5 (whole attribute_without_value) = Exit1 MissingEquals
  /\ never_issued MissingEquals.
Proof.
  refine (let H := _ : main 5 (whole attribute_without_value) = Exit1 MissingEquals in
          conj H (diagnostics_never_issued 5
                    (initial BUFFER_SIZE (whole attribute_without_value)) _ H)).
  vm_compute. reflexivity.
Defined.

(** X13: a run returns 1 with "File input error" only when one of the
    reads has failed with an error other than an interruption. *)
Theorem file_input_error_is_a_failed_read fuel st :
  loop fuel st = Exit1 FileInputError -> In Failure (script (stdin st)).
Proof.
  intros H. apply loop_error in H as (n & st1 & A & H).
  apply step_error in H as (_ & H). specialize (H eq_refl).
  apply (after_keeps 0) in A as ((_ & _ & _ & _ & _ & past & ->) & _).
  apply in_or_app. now right.
Qed.

Lemma file_input_error_is_a_failed_read_witness :
  main 5 failing_read = Exit1 FileInputError
  /\ In Failure (script failing_read).
Proof.
  refine (let H := _ : main 5 failing_read = Exit1 FileInputError in
          conj H (file_input_error_is_a_failed_read 5
                    (initial BUFFER_SIZE failing_read) H)).
  vm_compute. reflexivity.
Defined.

(** ** What counts as text *)

Lemma close_header_text rd v c v' c' :
  close_header rd v c = (v', c') -> textsize v' = textsize v /\ loc v' = loc v.
Proof.
  unfold close_header. intros H.
  destruct (byte_eqb (rd c) ">"); [|destruct (_ && _)]; injection H as <- <-;
    split; reflexivity.
Qed.

Lemma parseNamespace_text rd v c e v' c' :
  parseNamespace rd v c e = Ok (v', c') ->
  textsize v' = textsize v /\ loc v' = loc v.
Proof.
  unfold parseNamespace. cbv zeta. intros H. inv_ok.
  all: match goal with H : close_header _ _ _ = _ |- _ =>
         apply close_header_text in H; exact H end.
Qed.

Lemma parseAttribute_text rd v c e v' c' :
  parseAttribute rd v c e = Ok (v', c') ->
  textsize v' = textsize v /\ loc v' = loc v.
Proof.
  unfold parseAttribute. cbv zeta. intros H.
  destruct (attribute_parts rd c e) as [[[l x] ve]| |] eqn:P; cbn [bind] in H;
    try discriminate H.
  set (b := bytes_eqb l (bytes "url")) in *.
  inv_ok.
  all: match goal with H : close_header _ _ _ = _ |- _ =>
         apply close_header_text in H end.
  all: destruct b; cbn in *; exact H.
Qed.

Lemma parseXMLComment_text rd v c e v' c' :
  parseXMLComment rd v c e = Ok (v', c') ->
  textsize v' = textsize v /\ loc v' = loc v.
Proof. unfold parseXMLComment. cbv zeta. intros H. inv_ok; split; reflexivity. Qed.

Lemma parseEndTag_text rd v c e v' c' :
  parseEndTag rd v c e = Ok (v', c') ->
  textsize v' = textsize v /\ loc v' = loc v.
Proof. unfold parseEndTag. cbv zeta. intros H. inv_ok; split; reflexivity. Qed.

Lemma refilled_text st st' :
  st' = st \/ refill st = Ok st' ->
  textsize (locals st') = textsize (locals st)
  /\ loc (locals st') = loc (locals st).
Proof.
  intros [->|R]; [split; reflexivity|].
  apply refill_does in R as (_ & _ & _ & bs & _ & -> & _). split; reflexivity.
Qed.

(** X14: a turn that goes on and is not on CDATA, an entity reference or
    character data leaves [textsize] and [loc] as they are: tags,
    attributes, namespaces, comments, processing instructions, the XML
    declaration and refills count no character and no line. *)
Theorem markup_is_not_counted st st' :
  step st = Continue st' -> counts_text st = false ->
  textsize (locals st') = textsize (locals st)
  /\ loc (locals st') = loc (locals st).
Proof.
  unfold step, counts_text.
  destruct (cursorEnd st - cursor st <? 5).
  - destruct (refill st) as [st1| |] eqn:R; try discriminate.
    destruct (_ && _); [discriminate|]. intros [= <-] _.
    apply refilled_text. now right.
  - destruct (handle _ st) as [st1| |] eqn:H; try discriminate.
    intros [= <-]. revert H. generalize (construct_at st) as k.
    intros k H Hk. unfold handle in H. destruct k; try discriminate Hk.
    + destruct (parseNamespace _ _ _ _) as [[v1 c1]| |] eqn:P; inv_ok.
      now apply parseNamespace_text in P.
    + destruct (parseAttribute _ _ _ _) as [[v1 c1]| |] eqn:P; inv_ok.
      now apply parseAttribute_text in P.
    + destruct (parseXMLComment _ _ _ _) as [[v1 c1]| |] eqn:P; inv_ok.
      now apply parseXMLComment_text in P.
    + destruct (ensure _ _ _) as [[st2 t]| |] eqn:E; cbn [bind] in H; try discriminate H.
      destruct (parseXMLDeclaration _ _ _ _ _) as [[v1 c1]| |] eqn:P; inv_ok.
      pose proof (parseXMLDeclaration_effect _ _ _ _ _ _ _ P) as ->.
      now apply ensure_refills, refilled_text in E.
    + destruct (ensure _ _ _) as [[st2 t]| |] eqn:E; cbn [bind] in H; try discriminate H.
      destruct (parseProcessingInstruction _ _ _ _) as [[v1 c1]| |] eqn:P; inv_ok.
      pose proof (parseProcessingInstruction_effect _ _ _ _ _ _ P) as ->.
      now apply ensure_refills, refilled_text in E.
    + destruct (ensure_within _ _ _) as [st2| |] eqn:E; cbn [bind] in H; try discriminate H.
      destruct (parseEndTag _ _ _ _) as [[v1 c1]| |] eqn:P; inv_ok.
      cbn [moved locals fst]. apply parseEndTag_text in P as (-> & ->).
      now apply ensure_within_refills, refilled_text in E.
    + destruct (ensure_within _ _ _) as [st2| |] eqn:E; cbn [bind] in H; try discriminate H.
      destruct (parseStartTag _ _ _ _) as [[v1 c1]| |] eqn:P; inv_ok.
      cbn [moved locals fst].
      apply parseStartTag_frame in P as (nm & _ & _ & _ & _ & -> & -> & _).
      now apply ensure_within_refills, refilled_text in E.
    + destruct (parseWhitespace _ _ _ _) as [[v1 c1]| |] eqn:P; inv_ok.
      pose proof (parseWhitespace_effect _ _ _ _ _ _ P) as ->. split; reflexivity.
Qed.

Lemma markup_is_not_counted_witness :
  exists st',
    step at_start_tag = Continue st'
    /\ textsize (locals st') = textsize (locals at_start_tag)
    /\ loc (locals st') = loc (locals at_start_tag).
Proof.
  refine (let H := _ : step at_start_tag = Continue _ in
          ex_intro _ _
            (conj H (markup_is_not_counted at_start_tag _ H
                       ltac:(vm_compute; reflexivity)))).
  vm_compute. reflexivity.
Defined.

(** ** Runs that never end *)

Lemma find_from_skips rd p n : forall first,
  p (rd first) = false -> (0 < n)%nat -> first < find_from rd p first n.
Proof.
  destruct n as [|n]; intros first Hp Hn; [lia|].
  cbn [find_from]. rewrite Hp.
  pose proof (find_from_bounds rd p (first + 1) n). lia.
Qed.

Lemma find_if_skips rd p first last r :
  find_if rd p first last = Ok r -> first < last -> p (rd first) = false ->
  first < r.
Proof.
  unfold find_if. destruct (last <? first); [discriminate|].
  intros [= <-] Hl Hp. apply find_from_skips; [exact Hp|lia].
Qed.

Lemma construct_at_characters st :
  construct_at st = CCharacters ->
  byte_eqb (rd_of st (cursor st)) "<" = false
  /\ byte_eqb (rd_of st (cursor st)) "&" = false.
Proof.
  unfold construct_at, classify.
  repeat rewrite fst_first_match.
  repeat match goal with
  | |- (if ?b then _ else _) = _ -> _ => destruct b eqn:?; [discriminate|]
  end.
  intros _. unfold at_ in *. cbn [fst] in *. rewrite Z.add_0_r in *. auto.
Qed.

Lemma close_header_forward rd v c v' c' :
  close_header rd v c = (v', c') -> c <= c'.
Proof. intros H. apply close_header_frame, frame_forward in H. exact H. Qed.

Lemma parseNamespace_moves rd v c e v' c' :
  parseNamespace rd v c e = Ok (v', c') -> c < c'.
Proof.
  unfold parseNamespace. cbv zeta. intros H. inv_ok.
  all: match goal with H : close_header _ _ _ = _ |- _ =>
         apply close_header_forward in H end; lia.
Qed.

Lemma parseAttribute_moves rd v c e v' c' :
  parseAttribute rd v c e = Ok (v', c') -> c < c'.
Proof.
  unfold parseAttribute. cbv zeta. intros H.
  destruct (attribute_parts rd c e) as [[[l x] ve]| |] eqn:P; cbn [bind] in H;
    try discriminate H.
  apply attribute_parts_forward in P.
  inv_ok.
  all: match goal with H : close_header _ _ _ = _ |- _ =>
         apply close_header_forward in H end; lia.
Qed.

(** Decide the conditions that are left, keeping what each says. *)
Ltac decide_ifs :=
  repeat match goal with
  | |- context [if ?b then _ else _] =>
      let E := fresh "T" in destruct b eqn:E; note_test E
  | H : context [if ?b then _ else _] |- _ =>
      let E := fresh "T" in destruct b eqn:E; note_test E
  end.

Lemma parseXMLComment_moves rd v c e v' c' :
  parseXMLComment rd v c e = Ok (v', c') -> c < c'.
Proof.
  unfold parseXMLComment. cbv zeta. intros H. inv_ok.
  all: cbn [inXMLComment set_inXMLComment]; decide_ifs; lia.
Qed.

Lemma parseCDATA_moves rd v c e v' c' :
  parseCDATA rd v c e = Ok (v', c') -> c < c'.
Proof.
  unfold parseCDATA. cbv zeta. intros H. inv_ok.
  all: cbn [inCDATA set_inCDATA add_text]; decide_ifs; lia.
Qed.

Lemma parseXMLDeclaration_moves rd v c e t v' c' :
  parseXMLDeclaration rd v c e t = Ok (v', c') -> c < c'.
Proof.
  unfold parseXMLDeclaration. cbv zeta. intros H. inv_ok.
  all: repeat match goal with
       | H : declaration_attribute _ _ _ = Ok _ |- _ =>
           apply declaration_attribute_forward in H
       end.
  all: lia.
Qed.

Lemma parseProcessingInstruction_moves rd v c t v' c' :
  parseProcessingInstruction rd v c t = Ok (v', c') -> c < c'.
Proof.
  unfold parseProcessingInstruction. cbv zeta. intros H. inv_ok; lia.
Qed.

Lemma parseEndTag_moves rd v c e v' c' :
  parseEndTag rd v c e = Ok (v', c') -> c < c'.
Proof.
  unfold parseEndTag. cbv zeta. intros H.
  destruct (tag_name rd _ _ _ (c + 2) e) as [nm| |] eqn:N; cbn [bind] in H;
    try discriminate H.
  apply tag_name_bounds in N. inv_ok. lia.
Qed.

Lemma parseEntityReference_moves rd v c v' c' :
  parseEntityReference rd v c = (v', c') -> c < c'.
Proof.
  unfold parseEntityReference. intros [= <- <-]. split_ifs; lia.
Qed.

Lemma parseCharacters_moves rd v c e v' c' :
  parseCharacters rd v c e = Ok (v', c') -> c < e ->
  byte_eqb (rd c) "<" = false -> byte_eqb (rd c) "&" = false ->
  c < c'.
Proof.
  unfold parseCharacters. cbv zeta. intros H He H1 H2.
  destruct (find_if rd _ c e) as [t| |] eqn:F; cbn [bind] in H;
    try discriminate H.
  pose proof (find_if_skips _ _ _ _ _ F He) as S. cbv beta in S.
  rewrite H1, H2 in S. specialize (S eq_refl).
  inv_ok. rewrite size_view by lia. lia.
Qed.

Lemma read_retry_consumes count pend scr r src :
  read_retry count pend scr = (r, src) ->
  (scr = [] /\ script src = []) \/ (length (script src) < length scr)%nat.
Proof.
  revert src; induction scr as [|ev scr IH]; intros src; cbn [read_retry].
  - intros [= <- <-]. now left.
  - right. destruct ev as [more| |].
    + injection H as <- <-. cbn. lia.
    + apply IH in H as [(-> & ->)|H]; cbn [length]; lia.
    + injection H as <- <-. cbn. lia.
Qed.

Lemma refill_consumes st st' :
  refill st = Ok st' ->
  (script (stdin st) = [] /\ script (stdin st') = [])
  \/ (length (script (stdin st')) < length (script (stdin st)))%nat.
Proof.
  unfold refill, refillBuffer. intros H.
  destruct (cursorEnd st <? cursor st); [discriminate H|].
  cbv zeta in H. destruct (read_retry _ _ _) as [[[|y bs]|] src'] eqn:R;
    cbn [bind r_ret] in H.
  - cbn [Z.ltb Z.compare] in H. injection H as <-. cbn [stdin r_stdin].
    now apply read_retry_consumes in R.
  - unfold size in H. cbn [length] in H.
    replace (Z.of_nat (S (length bs)) <? 0) with false in H
      by (symmetry; apply Z.ltb_ge; lia).
    injection H as <-. cbn [stdin r_stdin]. now apply read_retry_consumes in R.
  - cbn [Z.ltb Z.compare] in H. discriminate H.
Qed.

Lemma state_eta st :
  mkState (locals st) (buffer st) (cursor st) (cursorEnd st) (stdin st) = st.
Proof. destruct st; reflexivity. Qed.

Lemma source_eta src : mkSource (pending src) (script src) = src.
Proof. destruct src; reflexivity. Qed.

Lemma buffer_eta b : mkBuffer (filled b) (capacity b) = b.
Proof. destruct b; reflexivity. Qed.

(** A refill leaves less to do, unless it finds the stream at its end with
    an empty window at the end of the buffer: then it changes nothing. *)
Lemma refill_remaining st st' :
  refill st = Ok st' -> 0 < capacity (buffer st) ->
  0 <= remaining st
  /\ (remaining st' < remaining st
      \/ (st' = st /\ pending (stdin st) = [])).
Proof.
  intros R Hcap. pose proof (refill_consumes _ _ R) as Hs.
  pose proof R as R0. unfold refill in R0.
  apply refill_does in R as (Hc & Hb & _ & bs & P & L & Hn & Hbs).
  unfold remaining at 1 2 3. rewrite P, Hb. unfold size in *. rewrite length_app.
  assert (Hle : Z.of_nat (length (script (stdin st')))
                <= Z.of_nat (length (script (stdin st)))).
  { destruct Hs as [(-> & ->)|Hs]; lia. }
  destruct bs as [|x bs].
  - destruct Hbs as (C1 & C2 & F & Hp). rewrite C1, C2, Z.eqb_refl.
    cbn [length app] in *.
    split; [destruct (cursor st =? capacity (buffer st)); lia|].
    destruct (cursor st =? capacity (buffer st)) eqn:Hf; [|left; lia].
    apply Z.eqb_eq in Hf.
    destruct Hs as [(S1 & S2)|Hs]; [|left; lia].
    destruct (Z.eq_dec (cursorEnd st) (cursor st)) as [He|He]; [|left; lia].
    right. assert (Hp' : pending (stdin st) = []) by (apply Hp; lia).
    split; [|congruence].
    rewrite <- (state_eta st'), <- (state_eta st).
    rewrite L, C1, C2, He, Hf, add_totalBytes_0. f_equal.
    + rewrite <- (buffer_eta (buffer st')), <- (buffer_eta (buffer st)).
      rewrite F, Hb. f_equal. unfold window. rewrite He, Hf, Z.sub_diag.
      reflexivity.
    + rewrite <- (source_eta (stdin st')), <- (source_eta (stdin st)).
      rewrite S1, S2. f_equal. congruence.
  - destruct Hbs as (C1 & C2 & F). rewrite C1, C2.
    cbn [length] in *.
    split; [destruct (cursor st =? capacity (buffer st)); lia|].
    left. destruct (0 =? capacity (buffer st));
      destruct (cursor st =? capacity (buffer st)); lia.
Qed.

(** A refill inside a branch does not leave more to do. *)
Lemma refilled_remaining st st' :
  st' = st \/ refill st = Ok st' -> 0 < capacity (buffer st) ->
  remaining st' <= remaining st
  /\ capacity (buffer st') = capacity (buffer st).
Proof.
  intros [->|R] Hcap; [split; [lia|reflexivity]|].
  pose proof (refill_remaining _ _ R Hcap) as (_ & [H|(-> & _)]);
    (split; [lia|]); try reflexivity.
  now apply refill_does in R as (_ & Hb & _).
Qed.

Lemma moved_remaining st v' c' :
  cursor st < c' -> remaining (moved st (v', c')) < remaining st.
Proof.
  unfold remaining, moved. cbn [locals buffer cursor cursorEnd stdin fst snd].
  intros H.
  destruct (c' =? capacity (buffer st)); destruct (cursor st =? capacity (buffer st));
    lia.
Qed.

Lemma handle_remaining st st' :
  handle (construct_at st) st = Ok st' ->
  5 <= cursorEnd st - cursor st -> 0 < capacity (buffer st) ->
  remaining st' < remaining st \/ (st' = st /\ construct_at st = CWhitespace).
Proof.
  intros H Hw Hcap. revert H.
  destruct (construct_at st) eqn:Hk; unfold handle; intros H.
  - destruct (parseNamespace _ _ _ _) as [[v1 c1]| |] eqn:P; inv_ok.
    left. apply moved_remaining. now apply parseNamespace_moves in P.
  - destruct (parseAttribute _ _ _ _) as [[v1 c1]| |] eqn:P; inv_ok.
    left. apply moved_remaining. now apply parseAttribute_moves in P.
  - destruct (parseXMLComment _ _ _ _) as [[v1 c1]| |] eqn:P; inv_ok.
    left. apply moved_remaining. now apply parseXMLComment_moves in P.
  - destruct (parseCDATA _ _ _ _) as [[v1 c1]| |] eqn:P; inv_ok.
    left. apply moved_remaining. now apply parseCDATA_moves in P.
  - destruct (ensure _ _ _) as [[st1 t]| |] eqn:E; cbn [bind] in H; try discriminate H.
    destruct (parseXMLDeclaration _ _ _ _ _) as [[v1 c1]| |] eqn:P; inv_ok.
    apply parseXMLDeclaration_moves in P.
    apply ensure_refills in E. apply refilled_remaining in E as (E & _); [|exact Hcap].
    left. pose proof (moved_remaining st1 v1 c1 P). lia.
  - destruct (ensure _ _ _) as [[st1 t]| |] eqn:E; cbn [bind] in H; try discriminate H.
    destruct (parseProcessingInstruction _ _ _ _) as [[v1 c1]| |] eqn:P; inv_ok.
    apply parseProcessingInstruction_moves in P.
    apply ensure_refills in E. apply refilled_remaining in E as (E & _); [|exact Hcap].
    left. pose proof (moved_remaining st1 v1 c1 P). lia.
  - destruct (ensure_within _ _ _) as [st1| |] eqn:E; cbn [bind] in H; try discriminate H.
    destruct (parseEndTag _ _ _ _) as [[v1 c1]| |] eqn:P; inv_ok.
    apply parseEndTag_moves in P.
    apply ensure_within_refills in E.
    apply refilled_remaining in E as (E & _); [|exact Hcap].
    left. pose proof (moved_remaining st1 v1 c1 P). lia.
  - destruct (ensure_within _ _ _) as [st1| |] eqn:E; cbn [bind] in H; try discriminate H.
    destruct (parseStartTag _ _ _ _) as [[v1 c1]| |] eqn:P; inv_ok.
    apply parseStartTag_frame in P as (nm & _ & _ & _ & _ & _ & _ & P).
    apply ensure_within_refills in E.
    apply refilled_remaining in E as (E & _); [|exact Hcap].
    left. pose proof (moved_remaining st1 v1 c1 ltac:(lia)). lia.
  - destruct (parseWhitespace _ _ _ _) as [[v1 c1]| |] eqn:P; inv_ok.
    pose proof (parseWhitespace_effect _ _ _ _ _ _ P) as ->.
    apply parseWhitespace_forward in P.
    destruct (Z.eq_dec c1 (cursor st)) as [->|Hne].
    + right. split; [|reflexivity]. unfold moved. cbn [fst snd]. apply state_eta.
    + left. apply moved_remaining. lia.
  - inv_ok. destruct (parseEntityReference _ _ _) as [v1 c1] eqn:P.
    left. apply moved_remaining. now apply parseEntityReference_moves in P.
  - destruct (parseCharacters _ _ _ _) as [[v1 c1]| |] eqn:P; inv_ok.
    apply construct_at_characters in Hk as (H1 & H2).
    left. apply moved_remaining.
    apply (parseCharacters_moves _ _ _ _ _ _ P); [lia|exact H1|exact H2].
Qed.

(** A turn that goes on leaves less to do, or leaves the state as it is. *)
Lemma step_remaining st st' :
  step st = Continue st' -> 0 < capacity (buffer st) ->
  0 <= remaining st /\ (remaining st' < remaining st \/ (st' = st /\ stands_still st)).
Proof.
  intros H Hcap. pose proof H as H0. unfold step in H.
  destruct (cursorEnd st - cursor st <? 5) eqn:W.
  - apply Z.ltb_lt in W.
    destruct (refill st) as [st1| |] eqn:R; try discriminate H.
    destruct (_ && _) eqn:B; [discriminate H|]. injection H as ->.
    pose proof (refill_remaining _ _ R Hcap) as (H1 & [H2|(-> & Hp)]);
      (split; [exact H1|]); [now left|].
    right. split; [reflexivity|]. split; [exact H0|]. right.
    split; [exact W|]. split; [exact Hp|].
    apply refill_does in R as (_ & _ & _ & bs & P & _ & _ & Hbs).
    rewrite Hp in P. destruct bs; [|discriminate P].
    destruct Hbs as (C1 & C2 & _). rewrite C1, C2, Z.eqb_refl, andb_true_r in B.
    destruct (inXMLComment (locals st)); [now left|].
    destruct (inCDATA (locals st)); [now right|discriminate B].
  - apply Z.ltb_ge in W.
    destruct (handle _ st) as [st1| |] eqn:Hh; try discriminate H.
    injection H as ->.
    split.
    + unfold remaining, size.
      destruct (cursor st =? capacity (buffer st)); lia.
    + apply handle_remaining in Hh as [Hh|(-> & Hk)]; auto.
      right. split; [reflexivity|]. split; [exact H0|]. left. auto.
Qed.

(** Unless the turns come to a state that a turn leaves as it is, a loop
    that is given more turns than there is left to do does not use them
    up. *)
Lemma loop_remaining cap fuel : forall st,
  0 < cap -> Within cap st ->
  remaining st < Z.of_nat fuel ->
  loop (S fuel) st = Running ->
  exists n st', after n st = Some st' /\ stands_still st'.
Proof.
  induction fuel as [|fuel IH]; intros st Hcap W Hm H.
  - cbn [loop] in H. destruct (step st) as [st'|st'| |] eqn:Hs; try discriminate H.
    destruct W as (C & _). rewrite <- C in Hcap.
    apply step_remaining in Hs as (H0 & _); [|exact Hcap].
    exfalso. clear H. revert H0 Hm. cbn [Z.of_nat]. lia.
  - remember (S fuel) as f eqn:Hf. cbn [loop] in H.
    destruct (step st) as [st'|st'| |] eqn:Hs; try discriminate H.
    pose proof (step_keeps cap st st' (or_introl Hs)) as (_ & W').
    specialize (W' W).
    assert (Hc : 0 < capacity (buffer st)) by (destruct W as (-> & _); exact Hcap).
    pose proof (step_remaining _ _ Hs Hc) as (H0 & [H1|(-> & H1)]).
    + subst f. destruct (IH st') as (n & st2 & A & F); auto; [lia|].
      exists (S n), st2. cbn [after]. rewrite Hs. auto.
    + exists O, st. split; [reflexivity|exact H1].
Qed.

Lemma remaining_initial cap src :
  remaining (initial cap src)
  = 4 * size (pending src) + Z.of_nat (length (script src)).
Proof.
  unfold remaining, initial. cbn [cursor cursorEnd buffer stdin capacity].
  rewrite Z.sub_diag, Z.eqb_refl. lia.
Qed.

(** X15: a run with a buffer of five bytes or more that is still going
    after [4 * n + m + 2] turns, [n] being the length of the stream and [m]
    the number of read events written down, never ends: it has come to a
    state that a turn leaves as it is, which is text outside the root
    element or the end of the stream inside a comment or a CDATA section.
    Every other run returns or leaves defined behaviour within that many
    turns. *)
Theorem endless_runs_stand_still cap fuel src :
  5 <= cap ->
  (4 * length (pending src) + length (script src) + 2 <= fuel)%nat ->
  scan cap fuel src = Running ->
  (exists n st, after n (initial cap src) = Some st /\ stands_still st)
  /\ forall more, scan cap more src = Running.
Proof.
  unfold scan. intros Hcap Hf H.
  destruct fuel as [|fuel]; [lia|].
  assert (E : exists n st, after n (initial cap src) = Some st /\ stands_still st).
  { apply (loop_remaining cap fuel); auto; [lia|apply initial_within; lia|].
    rewrite remaining_initial. unfold size. lia. }
  split; [exact E|].
  destruct E as (n & st & A & S & _). exact (loop_never n _ st A S).
Qed.

Lemma endless_runs_stand_still_witness :
  (exists n st,
      after n (initial 16 (whole text_before_the_root)) = Some st
      /\ stands_still st)
  /\ forall more, scan 16 more (whole text_before_the_root) = Running.
Proof.
  refine (endless_runs_stand_still 16 40 (whole text_before_the_root) _ _ _).
  - vm_compute. discriminate.
  - vm_compute. repeat constructor.
  - vm_compute. reflexivity.
Defined.

(** ** The depth, turn by turn *)

Lemma close_header_depth rd v c :
  depth (fst (close_header rd v c)) = depth v + one_if (byte_eqb (rd c) ">").
Proof.
  unfold close_header, one_if.
  destruct (byte_eqb (rd c) ">"); [cbn; lia|].
  destruct (_ && _); cbn; lia.
Qed.

Lemma parseNamespace_header rd v c e :
  parseNamespace rd v c e
  = (p <- namespace_header rd c e ;; Ok (close_header rd v p)).
Proof.
  unfold parseNamespace, namespace_header. cbv zeta.
  repeat match goal with
  | |- bind ?m _ = bind (bind ?m _) _ => destruct m; cbn [bind]; auto
  | |- (if ?b then _ else _) = bind (if ?b then _ else _) _ =>
      destruct b; cbn [bind]; auto
  end.
Qed.

Lemma parseAttribute_depth rd v c e v' c' :
  parseAttribute rd v c e = Ok (v', c') ->
  exists p, attribute_header rd c e = Ok p
            /\ depth v' = depth v + one_if (byte_eqb (rd p) ">").
Proof.
  unfold parseAttribute, attribute_header. cbv zeta. intros H.
  destruct (attribute_parts rd c e) as [[[l x] ve]| |]; cbn [bind] in *;
    try discriminate H.
  set (w := if bytes_eqb l (bytes "url") then set_url x v else v) in *.
  assert (Hw : depth w = depth v) by (subst w; destruct (bytes_eqb _ _); reflexivity).
  destruct (if isspace (rd (ve + 1)) then _ else _) as [p| |]; cbn [bind] in H;
    try discriminate H.
  exists p. split; [reflexivity|].
  injection H as H. rewrite <- Hw.
  rewrite <- (close_header_depth rd w p), H. reflexivity.
Qed.

Lemma parseStartTag_depth rd v c e v' c' :
  parseStartTag rd v c e = Ok (v', c') ->
  exists p, start_tag_header rd c e = Ok p
            /\ depth v' = depth v + one_if (byte_eqb (rd p) ">").
Proof.
  unfold parseStartTag, start_tag_header. cbv zeta. intros H.
  destruct (tag_name rd _ _ _ (c + 1) e) as [nm| |]; cbn [bind] in *;
    try discriminate H.
  destruct (count_element_effect (tn_localName nm) v) as (_ & D & _).
  set (w := count_element (tn_localName nm) v) in *.
  destruct (if negb (byte_eqb (rd (tn_end nm)) ">") then _ else _) as [p| |];
    cbn [bind] in H; try discriminate H.
  exists p. split; [reflexivity|]. unfold one_if.
  destruct (byte_eqb (rd p) ">"); [|destruct (_ && _)]; injection H as <- _;
    unfold remember_tag; cbn; lia.
Qed.

Lemma refilled_depth st st' :
  st' = st \/ refill st = Ok st' -> depth (locals st') = depth (locals st).
Proof.
  intros [->|R]; [reflexivity|].
  apply refill_does in R as (_ & _ & _ & bs & _ & -> & _). reflexivity.
Qed.

(** What a turn does to [depth]: an opened element adds 1, an end tag
    takes 1 off, and nothing else changes it. *)
Lemma step_depth st st' :
  step st = Continue st' ->
  depth (locals st')
  = depth (locals st) + one_if (opens_element st) - one_if (at_end_tag st).
Proof.
  unfold step, opens_element, header_byte, at_end_tag.
  destruct (cursorEnd st - cursor st <? 5).
  - destruct (refill st) as [st1| |] eqn:R; try discriminate.
    destruct (_ && _); [discriminate|]. intros [= <-].
    rewrite (refilled_depth st st1 (or_intror R)). cbn. lia.
  - destruct (handle _ st) as [st1| |] eqn:H; try discriminate.
    intros [= <-]. revert H. generalize (construct_at st) as k.
    intros k H. unfold handle in H. destruct k.
    + rewrite parseNamespace_header in H.
      destruct (namespace_header _ _ _) as [p| |]; cbn [bind] in H;
        try discriminate H.
      injection H as <-. unfold moved. cbn [locals fst].
      rewrite close_header_depth. cbn [one_if]. lia.
    + destruct (parseAttribute _ _ _ _) as [[v1 c1]| |] eqn:P; inv_ok.
      cbn [moved locals fst].
      apply parseAttribute_depth in P as (p & -> & ->). cbn. lia.
    + destruct (parseXMLComment _ _ _ _) as [[v1 c1]| |] eqn:P; inv_ok.
      cbn [moved locals fst].
      apply parseXMLComment_effect in P as (_ & ->). cbn. lia.
    + destruct (parseCDATA _ _ _ _) as [[v1 c1]| |] eqn:P; inv_ok.
      cbn [moved locals fst].
      apply parseCDATA_effect in P as (_ & ->). cbn. lia.
    + destruct (ensure _ _ _) as [[st2 t]| |] eqn:E; cbn [bind] in H; try discriminate H.
      destruct (parseXMLDeclaration _ _ _ _ _) as [[v1 c1]| |] eqn:P; inv_ok.
      cbn [moved locals fst].
      pose proof (parseXMLDeclaration_effect _ _ _ _ _ _ _ P) as ->.
      apply ensure_refills, refilled_depth in E. cbn [moved locals fst one_if].
      lia.
    + destruct (ensure _ _ _) as [[st2 t]| |] eqn:E; cbn [bind] in H; try discriminate H.
      destruct (parseProcessingInstruction _ _ _ _) as [[v1 c1]| |] eqn:P; inv_ok.
      cbn [moved locals fst].
      pose proof (parseProcessingInstruction_effect _ _ _ _ _ _ P) as ->.
      apply ensure_refills, refilled_depth in E. cbn [moved locals fst one_if].
      lia.
    + destruct (ensure_within _ _ _) as [st2| |] eqn:E; cbn [bind] in H; try discriminate H.
      destruct (parseEndTag _ _ _ _) as [[v1 c1]| |] eqn:P; inv_ok.
      cbn [moved locals fst].
      apply parseEndTag_effect in P as (_ & ->).
      apply ensure_within_refills, refilled_depth in E. cbn [moved locals fst one_if].
      lia.
    + destruct (ensure_within _ _ _) as [st2| |] eqn:E; cbn [bind] in H; try discriminate H.
      destruct (parseStartTag _ _ _ _) as [[v1 c1]| |] eqn:P; inv_ok.
      cbn [moved locals fst].
      apply parseStartTag_depth in P as (p & -> & ->).
      apply ensure_within_refills, refilled_depth in E. cbn [moved locals fst one_if].
      lia.
    + destruct (parseWhitespace _ _ _ _) as [[v1 c1]| |] eqn:P; inv_ok.
      cbn [moved locals fst].
      pose proof (parseWhitespace_effect _ _ _ _ _ _ P) as ->. cbn. lia.
    + inv_ok. unfold parseEntityReference. cbn. lia.
    + destruct (parseCharacters _ _ _ _) as [[v1 c1]| |] eqn:P; inv_ok.
      cbn [moved locals fst].
      apply parseCharacters_effect in P as (_ & ->). cbn. lia.
Qed.

Lemma after_depth n : forall st st',
  after n st = Some st' ->
  depth (locals st') = depth (locals st) + opened n st - closed n st.
Proof.
  induction n as [|n IH]; intros st st'; cbn [after opened closed].
  - intros [= ->]. lia.
  - destruct (step st) as [st1| | |] eqn:Hs; try discriminate.
    intros A. apply IH in A. apply step_depth in Hs. lia.
Qed.

(** C4, amended: [depth] is 0 when the loop is entered, and at every
    iteration boundary it is the number of turns so far that ended the
    header of a start tag with [>] less the number of turns that scanned an
    end tag: nothing else changes it.  So it is at least 0 exactly when no
    more end tags than opened elements have been scanned, above 0 while
    more elements have been opened than closed, and 0 exactly when as many
    have been closed as opened: before the first start tag, and again after
    the end tag of the outermost element. *)
Theorem depth_is_opened_minus_closed cap src n st :
  after n (initial cap src) = Some st ->
  depth (locals st) = opened n (initial cap src) - closed n (initial cap src)
  /\ (0 <= depth (locals st)
      <-> closed n (initial cap src) <= opened n (initial cap src))
  /\ (0 < depth (locals st)
      <-> closed n (initial cap src) < opened n (initial cap src))
  /\ (depth (locals st) = 0
      <-> opened n (initial cap src) = closed n (initial cap src)).
Proof.
  intros A. apply after_depth in A. cbn [initial locals depth initial_locals] in A.
  repeat split; lia.
Qed.

Lemma depth_is_opened_minus_closed_witness :
  exists st,
    after 8 (initial BUFFER_SIZE (whole nested_elements)) = Some st
    /\ depth (locals st)
       = opened 8 (initial BUFFER_SIZE (whole nested_elements))
         - closed 8 (initial BUFFER_SIZE (whole nested_elements))
    /\ (0 <= depth (locals st)
        <-> closed 8 (initial BUFFER_SIZE (whole nested_elements))
            <= opened 8 (initial BUFFER_SIZE (whole nested_elements)))
    /\ (0 < depth (locals st)
        <-> closed 8 (initial BUFFER_SIZE (whole nested_elements))
            < opened 8 (initial BUFFER_SIZE (whole nested_elements)))
    /\ (depth (locals st) = 0
        <-> opened 8 (initial BUFFER_SIZE (whole nested_elements))
            = closed 8 (initial BUFFER_SIZE (whole nested_elements))).
Proof.
  eexists. split; [vm_compute; reflexivity|].
  apply (depth_is_opened_minus_closed BUFFER_SIZE (whole nested_elements) 8).
  vm_compute. reflexivity.
Defined.

(** ** The range of the [int] variables *)

Ltac weigh := unfold covered, weight, counted; cbn; rewrite ?size_view by lia; lia.

Lemma close_header_covered rd v c v' c' e :
  close_header rd v c = (v', c') -> c < e -> covered v v' c c' e.
Proof.
  unfold close_header. intros H He.
  destruct (byte_eqb (rd c) ">"); [|destruct (_ && _)]; injection H as <- <-;
    weigh.
Qed.

Lemma covered_from v v' c0 c c' e :
  covered v v' c c' e -> c0 <= c -> covered v v' c0 c' e.
Proof. unfold covered. lia. Qed.

Lemma parseNamespace_covered rd v c e v' c' :
  parseNamespace rd v c e = Ok (v', c') -> covered v v' c c' e.
Proof.
  unfold parseNamespace. cbv zeta. intros H. inv_ok.
  all: match goal with H : close_header _ _ _ = _ |- _ =>
         pose proof (close_header_forward _ _ _ _ _ H);
         unfold close_header in H end.
  all: decide_ifs; inv_ok; weigh.
Qed.

Lemma parseAttribute_covered rd v c e v' c' :
  parseAttribute rd v c e = Ok (v', c') -> covered v v' c c' e.
Proof.
  unfold parseAttribute. cbv zeta. intros H.
  destruct (attribute_parts rd c e) as [[[l x] ve]| |] eqn:P; cbn [bind] in H;
    try discriminate H.
  pose proof (attribute_parts_forward _ _ _ _ _ _ P).
  apply attribute_parts_bounds in P.
  set (b := bytes_eqb l (bytes "url")) in *.
  inv_ok.
  all: match goal with H : close_header _ _ _ = _ |- _ =>
         pose proof (close_header_forward _ _ _ _ _ H);
         unfold close_header in H end.
  all: decide_ifs; inv_ok; destruct b; weigh.
Qed.

Lemma parseXMLComment_covered rd v c e v' c' :
  parseXMLComment rd v c e = Ok (v', c') -> covered v v' c c' e.
Proof.
  intros H. pose proof (parseXMLComment_moves _ _ _ _ _ _ H).
  revert H. unfold parseXMLComment. cbv zeta. intros H. inv_ok.
  all: decide_ifs; weigh.
Qed.

Lemma parseCDATA_covered rd v c e v' c' :
  parseCDATA rd v c e = Ok (v', c') -> covered v v' c c' e.
Proof.
  unfold parseCDATA. cbv zeta. intros H. inv_ok.
  all: cbn [inCDATA set_inCDATA add_text]; decide_ifs; weigh.
Qed.

Lemma tag_name_room rd i u m c e nm :
  tag_name rd i u m c e = Ok nm -> c < e.
Proof. unfold tag_name. cbv zeta. intros H. inv_ok; lia. Qed.

Lemma parseEndTag_covered rd v c e v' c' :
  parseEndTag rd v c e = Ok (v', c') -> covered v v' c c' e.
Proof.
  unfold parseEndTag. cbv zeta. intros H.
  destruct (tag_name rd _ _ _ (c + 2) e) as [nm| |] eqn:N; cbn [bind] in H;
    try discriminate H.
  pose proof (tag_name_room _ _ _ _ _ _ _ N).
  apply tag_name_bounds in N. inv_ok. weigh.
Qed.

Lemma count_element_weight l v :
  counted v <= counted (count_element l v) <= counted v + 1
  /\ depth (count_element l v) = depth v.
Proof.
  destruct (count_element_counts l v) as (K & M & _).
  destruct (count_element_frame l v) as (_ & X & _).
  destruct (count_element_effect l v) as (_ & D & _).
  cbv zeta in *. unfold counted in *. lia.
Qed.

Lemma parseStartTag_covered rd v c e v' c' :
  parseStartTag rd v c e = Ok (v', c') -> covered v v' c c' e.
Proof.
  unfold parseStartTag. cbv zeta. intros H.
  destruct (tag_name rd _ _ _ (c + 1) e) as [nm| |] eqn:N; cbn [bind] in H;
    try discriminate H.
  pose proof (tag_name_room _ _ _ _ _ _ _ N).
  apply tag_name_bounds in N.
  destruct (count_element_weight (tn_localName nm) v) as (K & D).
  set (w := count_element (tn_localName nm) v) in *.
  inv_ok; unfold covered, weight, remember_tag, counted in *; cbn in *; lia.
Qed.

Lemma parseCharacters_covered rd v c e v' c' :
  parseCharacters rd v c e = Ok (v', c') -> covered v v' c c' e.
Proof.
  unfold parseCharacters. cbv zeta. intros H. inv_ok. weigh.
Qed.

Lemma parseEntityReference_covered rd v c v' c' e :
  parseEntityReference rd v c = (v', c') -> c < e -> covered v v' c c' e.
Proof.
  unfold parseEntityReference. intros [= <- <-] He. decide_ifs; weigh.
Qed.

Lemma unchanged_covered v c c' e : c <= c' -> c <= e -> covered v v c c' e.
Proof. unfold covered. lia. Qed.

Lemma refill_accounted st st' :
  refill st = Ok st' -> Accounted st ->
  Accounted st' /\ cursor st' <= cursorEnd st'.
Proof.
  intros R A. apply refill_does in R as (Hc & _ & _ & bs & _ & L & _ & Hb).
  unfold Accounted, weight, counted in *. rewrite L. cbn.
  unfold size in *.
  destruct bs as [|x bs].
  - destruct Hb as (-> & -> & _). cbn [length] in *. lia.
  - destruct Hb as (-> & -> & _). cbn [length] in *. lia.
Qed.

Lemma refilled_accounted st st' :
  st' = st \/ refill st = Ok st' -> Accounted st -> cursor st <= cursorEnd st ->
  Accounted st' /\ cursor st' <= cursorEnd st'.
Proof.
  intros [->|R] A H; [auto|]. now apply refill_accounted with (st := st).
Qed.

Lemma moved_accounted st v' c' :
  covered (locals st) v' (cursor st) c' (cursorEnd st) ->
  totalBytes v' = totalBytes (locals st) ->
  Accounted st -> Accounted (moved st (v', c')).
Proof.
  unfold covered, Accounted, moved. cbn [locals cursor cursorEnd fst snd].
  intros (H1 & H2) T A. rewrite T. lia.
Qed.

Lemma frame_totalBytes v v' c c' : frame v v' c c' -> totalBytes v' = totalBytes v.
Proof. now intros (T & _). Qed.

Lemma handle_accounted k st st' :
  handle k st = Ok st' -> 5 <= cursorEnd st - cursor st ->
  Accounted st -> Accounted st'.
Proof.
  unfold handle. intros H Hw A. destruct k.
  - destruct (parseNamespace _ _ _ _) as [[v1 c1]| |] eqn:P; inv_ok.
    apply moved_accounted; auto;
      [now apply parseNamespace_covered in P
      |now apply parseNamespace_frame, frame_totalBytes in P].
  - destruct (parseAttribute _ _ _ _) as [[v1 c1]| |] eqn:P; inv_ok.
    apply moved_accounted; auto;
      [now apply parseAttribute_covered in P
      |now apply parseAttribute_frame, frame_totalBytes in P].
  - destruct (parseXMLComment _ _ _ _) as [[v1 c1]| |] eqn:P; inv_ok.
    apply moved_accounted; auto;
      [now apply parseXMLComment_covered in P
      |now apply parseXMLComment_frame, frame_totalBytes in P].
  - destruct (parseCDATA _ _ _ _) as [[v1 c1]| |] eqn:P; inv_ok.
    apply moved_accounted; auto;
      [now apply parseCDATA_covered in P
      |now apply parseCDATA_frame, frame_totalBytes in P].
  - destruct (ensure _ _ _) as [[st1 t]| |] eqn:E; cbn [bind] in H; try discriminate H.
    destruct (parseXMLDeclaration _ _ _ _ _) as [[v1 c1]| |] eqn:P; inv_ok.
    pose proof (parseXMLDeclaration_effect _ _ _ _ _ _ _ P) as ->.
    apply parseXMLDeclaration_forward in P.
    apply ensure_refills in E. apply refilled_accounted in E as (A1 & H1); auto; [|lia].
    apply moved_accounted; auto. now apply unchanged_covered.
  - destruct (ensure _ _ _) as [[st1 t]| |] eqn:E; cbn [bind] in H; try discriminate H.
    destruct (parseProcessingInstruction _ _ _ _) as [[v1 c1]| |] eqn:P; inv_ok.
    pose proof (parseProcessingInstruction_effect _ _ _ _ _ _ P) as ->.
    apply parseProcessingInstruction_forward in P.
    apply ensure_refills in E. apply refilled_accounted in E as (A1 & H1); auto; [|lia].
    apply moved_accounted; auto. now apply unchanged_covered.
  - destruct (ensure_within _ _ _) as [st1| |] eqn:E; cbn [bind] in H; try discriminate H.
    destruct (parseEndTag _ _ _ _) as [[v1 c1]| |] eqn:P; inv_ok.
    apply ensure_within_refills in E.
    apply refilled_accounted in E as (A1 & H1); auto; [|lia].
    apply moved_accounted; auto;
      [now apply parseEndTag_covered in P
      |now apply parseEndTag_frame, frame_totalBytes in P].
  - destruct (ensure_within _ _ _) as [st1| |] eqn:E; cbn [bind] in H; try discriminate H.
    destruct (parseStartTag _ _ _ _) as [[v1 c1]| |] eqn:P; inv_ok.
    apply ensure_within_refills in E.
    apply refilled_accounted in E as (A1 & H1); auto; [|lia].
    apply moved_accounted; auto;
      [now apply parseStartTag_covered in P
      |now apply parseStartTag_frame in P as (nm & _ & T & _)].
  - destruct (parseWhitespace _ _ _ _) as [[v1 c1]| |] eqn:P; inv_ok.
    pose proof (parseWhitespace_effect _ _ _ _ _ _ P) as ->.
    apply parseWhitespace_forward in P.
    apply moved_accounted; auto. apply unchanged_covered; lia.
  - inv_ok. destruct (parseEntityReference _ _ _) as [v1 c1] eqn:P.
    apply moved_accounted; auto;
      [apply (parseEntityReference_covered _ _ _ _ _ _ P); lia
      |now apply parseEntityReference_frame, frame_totalBytes in P].
  - destruct (parseCharacters _ _ _ _) as [[v1 c1]| |] eqn:P; inv_ok.
    apply moved_accounted; auto;
      [now apply parseCharacters_covered in P
      |now apply parseCharacters_frame, frame_totalBytes in P].
Qed.

Lemma step_accounted st st' :
  step st = Continue st' \/ step st = Break st' -> Accounted st -> Accounted st'.
Proof.
  unfold step. intros H A.
  destruct (cursorEnd st - cursor st <? 5) eqn:W.
  - destruct (refill st) as [st1| |] eqn:R;
      [|destruct H as [H|H]; discriminate H..].
    assert (st1 = st') as ->.
    { destruct (_ && _); destruct H as [H|H]; congruence. }
    now apply refill_accounted in R.
  - apply Z.ltb_ge in W.
    destruct (handle _ st) as [st1| |] eqn:Hh;
      [|destruct H as [H|H]; discriminate H..].
    assert (st1 = st') as -> by (destruct H as [H|H]; congruence).
    now apply handle_accounted in Hh.
Qed.

Lemma after_accounted n : forall st st',
  after n st = Some st' -> Accounted st -> Accounted st'.
Proof.
  induction n as [|n IH]; intros st st'; cbn [after].
  - now intros [= ->].
  - destruct (step st) as [st1| | |] eqn:Hs; try discriminate.
    intros A G. apply (IH st1); auto.
    now apply (step_accounted st st1 (or_introl Hs)).
Qed.

Lemma initial_accounted cap src : Accounted (initial cap src).
Proof. unfold Accounted, initial, weight, counted. cbn. lia. Qed.

Lemma after_in_int_range cap src n st :
  size (pending src) <= INT_MAX ->
  after n (initial cap src) = Some st ->
  in_int_range (size (pending src)) (locals st).
Proof.
  intros Hs A.
  pose proof (after_accounted _ _ _ A (initial_accounted cap src)) as G.
  apply (after_keeps cap) in A as ((B & _ & L & M & U & _) & _).
  unfold Accounted, weight, counted in G.
  cbn [initial locals stdin initial_locals totalBytes loc textsize exprCount
       functionCount classCount unitCount declCount commentCount isArchive] in *.
  unfold in_int_range, size in *.
  repeat match goal with |- _ /\ _ => split end; try lia.
  intros Ha. destruct (U Ha) as [X|X]; [discriminate X|lia].
Qed.

Lemma report_rows_in_range n v :
  in_int_range n v -> rows_in_range n (report v).
Proof.
  unfold in_int_range, rows_in_range, report, files. cbn.
  intros (L & E & F & C & U & D & M & A & S & T & I).
  destruct (isArchive v); [specialize (A eq_refl)|];
    repeat match goal with |- _ /\ _ => split end; lia.
Qed.

(** X9: on a stream of at most [INT_MAX] bytes no variable of type [int]
    leaves the range of [int]: at every iteration boundary [loc],
    [textsize] and the six counters are at least 0, [loc] is at most
    [textsize], and [textsize], the counters and the absolute value of
    [depth] together are at most [totalBytes], which is at most the length
    of the stream.  So the additions of the program do not overflow on such
    a stream, and the integers of this development are the values of its
    variables.  In the report of a run that returns 0 no row is negative,
    LOC is at most Characters, and Characters, Files and the element rows
    together are at most the srcML bytes. *)
Theorem report_within_the_input cap src :
  size (pending src) <= INT_MAX ->
  (forall n st,
      after n (initial cap src) = Some st ->
      in_int_range (size (pending src)) (locals st))
  /\ (forall fuel v,
         scan cap fuel src = Exit0 v ->
         in_int_range (size (pending src)) v
         /\ rows_in_range (size (pending src)) (report v)).
Proof.
  intros Hs. split.
  - intros n st A. now apply (after_in_int_range cap src n).
  - unfold scan. intros fuel v H.
    apply loop_exit in H as (n & st1 & st2 & A & B & ->).
    apply break_does in B as (_ & _ & _ & -> & _).
    pose proof (after_in_int_range cap src n st1 Hs A) as R.
    split; [exact R|now apply report_rows_in_range].
Qed.

Lemma report_within_the_input_witness :
  exists v,
    scan 64 8 (whole scenario1) = Exit0 v
    /\ in_int_range (size (pending (whole scenario1))) v
    /\ rows_in_range (size (pending (whole scenario1))) (report v).
Proof.
  refine (let H := _ : scan 64 8 (whole scenario1) = Exit0 _ in
          ex_intro _ _
            (conj H (proj2 (report_within_the_input 64 (whole scenario1)
                              ltac:(vm_compute; discriminate)) 8%nat _ H))).
  vm_compute. reflexivity.
Defined.
